(** * Scheduling-App: the four scheduling endpoints of [API/scheduling.py]

    A shallow embedding of [fcfs], [sjf], [priority_scheduling] and
    [round_robin], followed by the properties of the engine that the
    specification states about them.

    Conventions of the embedding:
    - Python integers are [Z]; a process is the list of integers the request
      carries ([List[int]]), read by position: [p[0]] id, [p[1]] arrival,
      [p[2]] burst, [p[3]] priority.  Indexing past the end raises
      [IndexError], unpacking a row that has not exactly four items raises
      [ValueError].
    - [schedule.processes] is the one object shared with the caller.  Every
      endpoint returns the content of that list after the call next to its
      own outcome.
    - [while] loops take a fuel argument: one unit per evaluation of the loop
      condition.  [OutOfFuel] says the loop was still running. *)

From stdpp Require Import gmap list sorting strings.
From Stdlib Require Import ZArith Lia.

Local Open Scope Z_scope.

(** ** Outcomes: a value, a Python exception, or a loop that is still running *)

Inductive exn := IndexError | ValueError | KeyError.

Inductive outcome (A : Type) :=
  | Returns (a : A)
  | Raises (e : exn)
  | OutOfFuel.

Arguments Returns {A} a.
Arguments Raises {A} e.
Arguments OutOfFuel {A}.

Definition bind {A B : Type} (m : outcome A) (k : A -> outcome B) : outcome B :=
  match m with
  | Returns a => k a
  | Raises e => Raises e
  | OutOfFuel => OutOfFuel
  end.

Notation "'do' x <- m ; k" := (bind m (fun x => k))
  (at level 10, x name, m at level 100, k at level 200).

Fixpoint map_o {A B : Type} (f : A -> outcome B) (l : list A) : outcome (list B) :=
  match l with
  | [] => Returns []
  | x :: l' =>
      do y <- f x;
      do ys <- map_o f l';
      Returns (y :: ys)
  end.

Fixpoint filter_o {A : Type} (f : A -> outcome bool) (l : list A) : outcome (list A) :=
  match l with
  | [] => Returns []
  | x :: l' =>
      do b <- f x;
      do ys <- filter_o f l';
      Returns (if b then x :: ys else ys)
  end.

(** ** Rows and responses *)

Abbreviation row := (list Z).

(** [p[i]] *)
Definition item (p : row) (i : nat) : outcome Z :=
  match p !! i with
  | Some v => Returns v
  | None => Raises IndexError
  end.

(** [pid, at, bt, pri = process] *)
Definition unpack4 (p : row) : outcome (Z * Z * Z * Z) :=
  match p with
  | [pid; at_; bt; pri] => Returns (pid, at_, bt, pri)
  | _ => Raises ValueError
  end.

(** The dictionary an endpoint returns: [{'finish': .., 'order': ..}] or
    [{"error": ..}]. *)
Inductive response :=
  | Schedule (finish order : list Z)
  | ErrorMsg (msg : string).

(** ** [sort(key=lambda x: x[1])]

    Python computes every key first (an [IndexError] there leaves the list as
    it was), then sorts stably, comparing keys with [<] only.  The result of
    a stable sort is determined by its input, so insertion from the right,
    each item going in front of the first key that is not smaller, computes
    the list Python's sort leaves. *)

Definition keyed (k : nat) (p : row) : outcome (Z * row) :=
  do v <- item p k;
  Returns (v, p).

Fixpoint insert_keyed (x : Z * row) (l : list (Z * row)) : list (Z * row) :=
  match l with
  | [] => [x]
  | y :: l' => if y.1 <? x.1 then y :: insert_keyed x l' else x :: y :: l'
  end.

Definition sort_keyed (l : list (Z * row)) : list (Z * row) :=
  foldr insert_keyed [] l.

Definition sorted_by (k : nat) (processes : list row) : outcome (list row) :=
  do ks <- map_o (keyed k) processes;
  Returns ((sort_keyed ks).*2).

(** ** [fcfs] *)

Record fcfs_state := FcfsState {
  f_time : Z;
  f_start : list Z;
  f_finish : list Z;
  f_order : list Z
}.

Definition fcfs_init : fcfs_state := FcfsState 0 [] [] [].

Fixpoint fcfs_loop (processes : list row) (st : fcfs_state) : outcome fcfs_state :=
  match processes with
  | [] => Returns st
  | process :: rest =>
      do u <- unpack4 process;
      let '(pid, at_, bt, _) := u in
      let time := if f_time st <? at_ then at_ else f_time st in
      fcfs_loop rest
        (FcfsState (time + bt) (f_start st ++ [time])
           (f_finish st ++ [time + bt]) (f_order st ++ [pid]))
  end.

Definition fcfs (processes : list row) : list row * outcome response :=
  match sorted_by 1 processes with
  | Returns sorted =>
      (sorted,
       do st <- fcfs_loop sorted fcfs_init;
       Returns (Schedule (f_finish st) (f_order st)))
  | Raises e => (processes, Raises e)
  | OutOfFuel => (processes, OutOfFuel)
  end.

(** ** [sjf] and [priority_scheduling]

    The two functions are the same text up to the index of the selection key:
    [x[2]] in [sjf], [x[3]] in [priority_scheduling]. *)

Record np_state := NpState {
  np_time : Z;
  np_completed : list row;
  np_order : list Z;
  np_finish : list Z;
  np_idles : nat   (* ghost: how often the [time += 1] branch ran *)
}.

Definition np_init : np_state := NpState 0 [] [] [] 0.

(** [min(available, key=..)] keeps the first item whose key is minimal. *)
Fixpoint min_keyed (best : Z * row) (l : list (Z * row)) : row :=
  match l with
  | [] => best.2
  | x :: l' => if x.1 <? best.1 then min_keyed x l' else min_keyed best l'
  end.

Definition min_by (k : nat) (l : list row) : outcome row :=
  do ks <- map_o (keyed k) l;
  match ks with
  | [] => Raises ValueError
  | x :: ks' => Returns (min_keyed x ks')
  end.

Section NonPreemptive.
Variable key : nat.
Variable processes : list row.

(** [[p for p in processes if p[1] <= time and p not in completed]] *)
Definition np_available (time : Z) (completed : list row) : outcome (list row) :=
  filter_o (fun p =>
              do a <- item p 1;
              Returns ((a <=? time) && negb (bool_decide (p ∈ completed))))
           processes.

Definition np_body (st : np_state) : outcome np_state :=
  do available <- np_available (np_time st) (np_completed st);
  match available with
  | [] =>
      Returns (NpState (np_time st + 1) (np_completed st) (np_order st)
                 (np_finish st) (S (np_idles st)))
  | _ :: _ =>
      do p <- min_by key available;
      do bt <- item p 2;
      do pid <- item p 0;
      Returns (NpState (np_time st + bt) (np_completed st ++ [p])
                 (np_order st ++ [pid]) (np_finish st ++ [np_time st + bt])
                 (np_idles st))
  end.

Fixpoint np_loop (fuel : nat) (n : nat) (st : np_state) : outcome np_state :=
  match fuel with
  | O => OutOfFuel
  | S fuel' =>
      if (length (np_completed st) <? n)%nat
      then do st' <- np_body st; np_loop fuel' n st'
      else Returns st
  end.
End NonPreemptive.

Definition nonpreemptive (key : nat) (fuel : nat) (processes : list row)
  : list row * outcome response :=
  match sorted_by 1 processes with
  | Returns sorted =>
      (sorted,
       do st <- np_loop key sorted fuel (length sorted) np_init;
       Returns (Schedule (np_finish st) (np_order st)))
  | Raises e => (processes, Raises e)
  | OutOfFuel => (processes, OutOfFuel)
  end.

Definition sjf : nat -> list row -> list row * outcome response := nonpreemptive 2.
Definition priority_scheduling : nat -> list row -> list row * outcome response :=
  nonpreemptive 3.

(** ** [round_robin] *)

(** A value of [process_dict]. *)
Record pentry := PEntry {
  arrival : Z;
  burst : Z;
  priority : Z;
  remaining : Z
}.

(** [{p[0]: {"arrival": p[1], "burst": p[2], "priority": p[3], "remaining": p[2]}
     for p in processes}]: a later row replaces an earlier one with its id. *)
Fixpoint build_dict (processes : list row) (d : gmap Z pentry) : outcome (gmap Z pentry) :=
  match processes with
  | [] => Returns d
  | p :: rest =>
      do pid <- item p 0;
      do a <- item p 1;
      do b <- item p 2;
      do pr <- item p 3;
      build_dict rest (<[pid := PEntry a b pr b]> d)
  end.

(** [process_dict[pid]] *)
Definition dict_get (d : gmap Z pentry) (pid : Z) : outcome pentry :=
  match d !! pid with
  | Some e => Returns e
  | None => Raises KeyError
  end.

(** One dispatch as the loop body computes it, kept for the statements about
    slices: the process, [exec_time], and the remaining burst it is left with. *)
Record slice := Slice {
  s_pid : Z;
  s_exec : Z;
  s_left : Z
}.

Record rr_state := RrState {
  rr_time : Z;
  rr_queue : list Z;
  rr_completed : gset Z;
  rr_order : list Z;
  rr_finish : list Z;
  rr_dict : gmap Z pentry;
  rr_idles : nat;          (* ghost: how often the [time += 1] branch ran *)
  rr_slices : list slice   (* ghost: one entry per [order.append] *)
}.

Section RoundRobin.
Variable quantum : Z.
Variable sorted_processes : list row.
Variable n : nat.

(** The two [for p in sorted_processes] loops that fill the queue.  The
    second one also tests [pid != current_pid]; [skip] is that process. *)
Fixpoint enqueue_arrivals (d : gmap Z pentry) (time : Z) (completed : gset Z)
    (skip : option Z) (ps : list row) (queue : list Z) : outcome (list Z) :=
  match ps with
  | [] => Returns queue
  | p :: rest =>
      do pid <- item p 0;
      do e <- dict_get d pid;
      if (arrival e <=? time)
         && negb (bool_decide (pid ∈ completed))
         && negb (bool_decide (pid ∈ queue))
         && negb (bool_decide (skip = Some pid))
      then enqueue_arrivals d time completed skip rest (queue ++ [pid])
      else enqueue_arrivals d time completed skip rest queue
  end.

Definition rr_body (st : rr_state) : outcome rr_state :=
  do queue <- enqueue_arrivals (rr_dict st) (rr_time st) (rr_completed st) None
                sorted_processes (rr_queue st);
  match queue with
  | [] =>
      Returns (RrState (rr_time st + 1) queue (rr_completed st) (rr_order st)
                 (rr_finish st) (rr_dict st) (S (rr_idles st)) (rr_slices st))
  | current_pid :: queue =>
      do e <- dict_get (rr_dict st) current_pid;
      let exec_time := Z.min quantum (remaining e) in
      let rest := remaining e - exec_time in
      let d := <[current_pid := PEntry (arrival e) (burst e) (priority e) rest]>
                 (rr_dict st) in
      let time := rr_time st + exec_time in
      let order := rr_order st ++ [current_pid] in
      let finish := rr_finish st ++ [time] in
      let slices := rr_slices st ++ [Slice current_pid exec_time rest] in
      do queue <- enqueue_arrivals d time (rr_completed st) (Some current_pid)
                    sorted_processes queue;
      do e' <- dict_get d current_pid;
      if 0 <? remaining e'
      then Returns (RrState time (queue ++ [current_pid]) (rr_completed st)
                      order finish d (rr_idles st) slices)
      else Returns (RrState time queue (rr_completed st ∪ {[current_pid]})
                      order finish d (rr_idles st) slices)
  end.

Fixpoint rr_loop (fuel : nat) (st : rr_state) : outcome rr_state :=
  match fuel with
  | O => OutOfFuel
  | S fuel' =>
      if (size (rr_completed st) <? n)%nat
      then do st' <- rr_body st; rr_loop fuel' st'
      else Returns st
  end.
End RoundRobin.

Definition rr_init (d : gmap Z pentry) : rr_state :=
  RrState 0 [] ∅ [] [] d 0 [].

(** The run below the [quantum is None] test: the final state of the loop. *)
Definition rr_run (fuel : nat) (processes : list row) (quantum : Z) : outcome rr_state :=
  do process_dict <- build_dict processes ∅;
  do sorted_processes <- sorted_by 1 processes;
  rr_loop quantum sorted_processes (length processes) fuel (rr_init process_dict).

Definition round_robin (fuel : nat) (processes : list row) (quantum : option Z)
  : list row * outcome response :=
  match quantum with
  | None =>
      (processes,
       Returns (ErrorMsg "Quantum must be provided for Round Robin scheduling"))
  | Some quantum =>
      (processes,
       do st <- rr_run fuel processes quantum;
       Returns (Schedule (rr_finish st) (rr_order st)))
  end.

(** ** Reading a row in statements: the fields of a well-formed record *)

Definition pid_of (p : row) : Z := nth 0 p 0.
Definition arrival_of (p : row) : Z := nth 1 p 0.
Definition burst_of (p : row) : Z := nth 2 p 0.
Definition priority_of (p : row) : Z := nth 3 p 0.

(** What the transport layer is expected to have checked: four fields per
    record, [arrival >= 0], [burst > 0], ids unique within the batch. *)
Definition wf_row (p : row) : Prop :=
  length p = 4%nat ∧ 0 <= arrival_of p ∧ 0 < burst_of p.

Definition valid_batch (processes : list row) : Prop :=
  Forall wf_row processes ∧ NoDup (pid_of <$> processes).

(** Which endpoint a request is routed to. *)
Inductive operation :=
  | RunFcfs
  | RunSjf
  | RunPriority
  | RunRoundRobin (quantum : option Z).

Definition run (op : operation) (fuel : nat) (processes : list row)
  : list row * outcome response :=
  match op with
  | RunFcfs => fcfs processes
  | RunSjf => sjf fuel processes
  | RunPriority => priority_scheduling fuel processes
  | RunRoundRobin quantum => round_robin fuel processes quantum
  end.


(** ** Orders on rows used in the statements *)

Definition arrival_le (p q : row) : Prop := arrival_of p <= arrival_of q.

Definition key_le (x y : Z * row) : Prop := x.1 <= y.1.

(** The stable sort by arrival of a batch whose rows all have an arrival. *)
Definition sort_arrival (processes : list row) : list row :=
  (sort_keyed ((fun p => (arrival_of p, p)) <$> processes)).*2.

Definition has_arrival (p : row) : Prop := (2 <= length p)%nat.

#[global] Instance has_arrival_dec (p : row) : Decision (has_arrival p).
Proof. unfold has_arrival. apply _. Defined.


(** ** Vocabulary for the statements about [sjf] and [priority_scheduling] *)

(** The test of the list comprehension, on a row that has an arrival. *)
Definition eligible (time : Z) (completed : list row) (p : row) : Prop :=
  arrival_of p <= time /\ p ∉ completed.

#[global] Instance eligible_dec time completed p : Decision (eligible time completed p).
Proof. unfold eligible. apply _. Defined.

(** The latest arrival of a batch (0 for the empty batch). *)
Definition max_arrival (processes : list row) : Z :=
  foldr (fun p m => Z.max (arrival_of p) m) 0 processes.

Definition total_burst (processes : list row) : Z :=
  foldr (fun p s => burst_of p + s) 0 processes.

(** The state of the non-preemptive loop at the loop head, on a batch whose
    sorted copy is [l]: what has been completed is a duplicate-free part of
    the batch, [order] lists the ids of the completed rows in completion
    order, every order entry has its finish time, and the idle steps taken so
    far fit below the latest arrival. *)
Definition np_inv (l : list row) (st : np_state) : Prop :=
  NoDup (np_completed st)
  /\ np_completed st ⊆ l
  /\ np_order st = pid_of <$> np_completed st
  /\ length (np_finish st) = length (np_order st)
  /\ Z.of_nat (np_idles st) + Z.max 0 (max_arrival l - np_time st) <= max_arrival l.

(** Iterations of the loop body a state has behind it. *)
Definition np_steps (st : np_state) : nat := (length (np_order st) + np_idles st)%nat.

(** Iterations the loop can still need: one per uncompleted record and one
    per time unit up to the latest arrival. *)
Definition np_measure (l : list row) (st : np_state) : nat :=
  (length l - length (np_completed st) + Z.to_nat (max_arrival l - np_time st))%nat.

(** ** Completion tracked by process id

    Spec-worded variant of the non-preemptive loop, to compare with the one
    from the source: the specification has the engine keep the set of ids of
    the completed processes and test membership of the id, where the source
    keeps the completed rows and tests membership of the row. *)

Record id_state := IdState {
  id_time : Z;
  id_done : gset Z;
  id_order : list Z;
  id_finish : list Z
}.

Definition id_init : id_state := IdState 0 ∅ [] [].

Section ById.
Variable key : nat.
Variable processes : list row.

Definition id_available (time : Z) (done : gset Z) : outcome (list row) :=
  filter_o (fun p =>
              do a <- item p 1;
              do pid <- item p 0;
              Returns ((a <=? time) && negb (bool_decide (pid ∈ done))))
           processes.

Definition id_body (st : id_state) : outcome id_state :=
  do available <- id_available (id_time st) (id_done st);
  match available with
  | [] =>
      Returns (IdState (id_time st + 1) (id_done st) (id_order st) (id_finish st))
  | _ :: _ =>
      do p <- min_by key available;
      do bt <- item p 2;
      do pid <- item p 0;
      Returns (IdState (id_time st + bt) (id_done st ∪ {[pid]})
                 (id_order st ++ [pid]) (id_finish st ++ [id_time st + bt]))
  end.

Fixpoint id_loop (fuel : nat) (n : nat) (st : id_state) : outcome id_state :=
  match fuel with
  | O => OutOfFuel
  | S fuel' =>
      if (size (id_done st) <? n)%nat
      then do st' <- id_body st; id_loop fuel' n st'
      else Returns st
  end.
End ById.

Definition nonpreemptive_by_id (key : nat) (fuel : nat) (processes : list row)
  : outcome response :=
  do sorted <- sorted_by 1 processes;
  do st <- id_loop key sorted fuel (length sorted) id_init;
  Returns (Schedule (id_finish st) (id_order st)).

(** The two loops in step: same clock, same output so far, and the set of
    completed ids is the set of ids of the completed rows. *)
Definition id_sim (st : np_state) (ist : id_state) : Prop :=
  id_time ist = np_time st
  /\ id_done ist = list_to_set (pid_of <$> np_completed st)
  /\ id_order ist = np_order st
  /\ id_finish ist = np_finish st.

(** Number of dispatch events of process [pid] in an order list. *)
Definition events_of (pid : Z) (order : list Z) : nat :=
  length (filter (fun x => x = pid) order).

(** ** Vocabulary for the statements about [round_robin] *)

(** The record [process_dict] holds for row [p] when [r] of its burst
    remains. *)
Definition entry_of (p : row) (r : Z) : pentry :=
  PEntry (arrival_of p) (burst_of p) (priority_of p) r.

(** [process_dict] has an entry for every row of the batch, with the row's
    own fields. *)
Definition dict_ok (l : list row) (d : gmap Z pentry) : Prop :=
  forall p, p ∈ l -> exists r, d !! pid_of p = Some (entry_of p r).

(** The test of the two admission loops, read on the row. *)
Definition admissible (time : Z) (completed : gset Z) (skip : option Z)
    (queue : list Z) (p : row) : Prop :=
  arrival_of p <= time
  /\ (pid_of p ∉ completed)
  /\ (pid_of p ∉ queue)
  /\ skip <> Some (pid_of p).

#[global] Instance admissible_dec time completed skip queue p :
  Decision (admissible time completed skip queue p).
Proof. unfold admissible. apply _. Defined.

(** Remaining burst of a process according to [process_dict]. *)
Definition left_of (d : gmap Z pentry) (pid : Z) : Z :=
  match d !! pid with
  | Some e => remaining e
  | None => 0
  end.

Definition total_left (d : gmap Z pentry) (l : list row) : Z :=
  foldr (fun p s => left_of d (pid_of p) + s) 0 l.

(** The slices of one process, and the time they add up to. *)
Definition slices_of (pid : Z) (slices : list slice) : list slice :=
  filter (fun s => s_pid s = pid) slices.

Definition executed (pid : Z) (slices : list slice) : Z :=
  foldr (fun s t => s_exec s + t) 0 (slices_of pid slices).

(** [ceil(burst / quantum)] for a positive quantum. *)
Definition ceil_div (burst quantum : Z) : Z := (burst + quantum - 1) / quantum.

(** The state [rr_body] returns when the queue is empty after admission. *)
Definition rr_after_idle (st : rr_state) : rr_state :=
  RrState (rr_time st + 1) [] (rr_completed st) (rr_order st) (rr_finish st)
    (rr_dict st) (S (rr_idles st)) (rr_slices st).

(** The state [rr_body] returns after dispatching row [p], which had [r] of
    its burst remaining, with [queue] the queue behind it. *)
Definition rr_after_dispatch (quantum : Z) (l : list row) (st : rr_state)
    (p : row) (r : Z) (queue : list Z) : rr_state :=
  let exec_time := Z.min quantum r in
  let time := rr_time st + exec_time in
  let arrivals :=
    pid_of <$> filter (admissible time (rr_completed st) (Some (pid_of p)) queue) l in
  RrState time
    (if 0 <? r - exec_time then (queue ++ arrivals) ++ [pid_of p]
     else queue ++ arrivals)
    (if 0 <? r - exec_time then rr_completed st
     else rr_completed st ∪ {[pid_of p]})
    (rr_order st ++ [pid_of p])
    (rr_finish st ++ [time])
    (<[pid_of p := entry_of p (r - exec_time)]> (rr_dict st))
    (rr_idles st)
    (rr_slices st ++ [Slice (pid_of p) exec_time (r - exec_time)]).

(** The books of one process at the loop head: its dictionary entry, whether
    it counts as completed, the time its slices add up to, how many slices
    it has had, and what its last slice left. *)
Definition ledger_ok (quantum : Z) (st : rr_state) (p : row) : Prop :=
  exists r,
    rr_dict st !! pid_of p = Some (entry_of p r)
    /\ 0 <= r
    /\ (pid_of p ∈ rr_completed st <-> r = 0)
    /\ executed (pid_of p) (rr_slices st) = burst_of p - r
    /\ quantum * (Z.of_nat (length (slices_of (pid_of p) (rr_slices st))) - 1)
       < burst_of p - r
    /\ burst_of p - r
       <= quantum * Z.of_nat (length (slices_of (pid_of p) (rr_slices st)))
    /\ (0 < r ->
        burst_of p - r
        = quantum * Z.of_nat (length (slices_of (pid_of p) (rr_slices st))))
    /\ (forall s, last (slices_of (pid_of p) (rr_slices st)) = Some s -> s_left s = r).

(** The state of the round-robin loop at the loop head, on the sorted batch
    [l]. *)
Definition rr_inv (quantum : Z) (l : list row) (st : rr_state) : Prop :=
  (forall p, p ∈ l -> ledger_ok quantum st p)
  /\ NoDup (rr_queue st)
  /\ (forall x, x ∈ rr_queue st -> x ∈ pid_of <$> l /\ x ∉ rr_completed st)
  /\ (forall x, x ∈ rr_completed st -> x ∈ pid_of <$> l)
  /\ (forall p, p ∈ l ->
        pid_of p ∈ rr_queue st \/ pid_of p ∈ rr_completed st ->
        arrival_of p <= rr_time st)
  /\ rr_order st = s_pid <$> rr_slices st
  /\ length (rr_finish st) = length (rr_order st)
  /\ Z.of_nat (rr_idles st) + Z.max 0 (max_arrival l - rr_time st) <= max_arrival l.

Definition rr_steps (st : rr_state) : nat := (length (rr_order st) + rr_idles st)%nat.

(** Dispatches so far plus the time units of burst still to be served. *)
Definition rr_work (l : list row) (st : rr_state) : nat :=
  (length (rr_order st) + Z.to_nat (total_left (rr_dict st) l))%nat.

Definition rr_measure (l : list row) (st : rr_state) : nat :=
  (Z.to_nat (total_left (rr_dict st) l) + Z.to_nat (max_arrival l - rr_time st))%nat.

(** ** Requests *)

(** The three endpoints that run a process to completion once it is picked. *)
Definition non_preemptive (op : operation) : Prop :=
  match op with
  | RunRoundRobin _ => False
  | _ => True
  end.

(** A request the specification calls well-formed: round robin comes with a
    positive quantum. *)
Definition usable_quantum (op : operation) : Prop :=
  match op with
  | RunRoundRobin None => False
  | RunRoundRobin (Some quantum) => 0 < quantum
  | _ => True
  end.

(** ** Vocabulary for idle steps and for the selection rule *)

(** The rows of the batch that are not completed, and the earliest arrival
    among them. *)
Definition unserved (l completed : list row) : list row :=
  filter (fun p => p ∉ completed) l.

Definition min_arrival (l : list row) : option Z :=
  match l with
  | [] => None
  | p :: l' => Some (foldr (fun q m => Z.min (arrival_of q) m) (arrival_of p) l')
  end.

Definition next_arrival (l completed : list row) : option Z :=
  min_arrival (unserved l completed).

(** [k] iterations of the loop body, one after the other. *)
Fixpoint np_iter (key : nat) (l : list row) (k : nat) (st : np_state)
  : outcome np_state :=
  match k with
  | O => Returns st
  | S k' => do st' <- np_body key l st; np_iter key l k' st'
  end.

(** [p] occurs before [q] in [l]. *)
Definition before (l : list row) (p q : row) : Prop :=
  exists l1 l2 l3, l = l1 ++ p :: l2 ++ q :: l3.

(** The order in which [min] over the arrival-sorted list prefers one row to
    another: smaller key, then earlier arrival, then earlier position in the
    batch as the caller sent it. *)
Definition selected_before (key : nat) (batch : list row) (p q : row) : Prop :=
  nth key p 0 < nth key q 0
  \/ (nth key p 0 = nth key q 0
      /\ (arrival_of p < arrival_of q
          \/ (arrival_of p = arrival_of q /\ before batch p q))).

(** The states the round-robin loop passes through at its head, from [st0]. *)
Inductive rr_reachable (quantum : Z) (l : list row) (n : nat) (st0 : rr_state)
  : rr_state -> Prop :=
  | rr_reach_start : rr_reachable quantum l n st0 st0
  | rr_reach_step st st' :
      rr_reachable quantum l n st0 st ->
      (size (rr_completed st) < n)%nat ->
      rr_body quantum l st = Returns st' ->
      rr_reachable quantum l n st0 st'.

(** ** Scenario D of the specification, as data *)

Definition scenario_D : list row := [[1; 0; 5; 0]; [2; 1; 3; 0]].

Definition scenario_D_dict : gmap Z pentry :=
  <[2 := PEntry 1 3 0 3]> (<[1 := PEntry 0 5 0 5]> ∅).

(** The loop head after the first iteration with quantum 2. *)
Definition scenario_D_first : rr_state :=
  RrState 2 [2; 1] ∅ [1] [2] (<[1 := PEntry 0 5 0 3]> scenario_D_dict) 0
    [Slice 1 2 3].


(** The state of the round-robin loop under a quantum that is not positive:
    nothing is ever completed and every process keeps remaining burst. *)
Definition rr_stuck (l : list row) (st : rr_state) : Prop :=
  dict_ok l (rr_dict st)
  /\ (forall p, p ∈ l -> 0 < left_of (rr_dict st) (pid_of p))
  /\ rr_completed st = ∅
  /\ (forall x, x ∈ rr_queue st -> x ∈ pid_of <$> l).


(** ** Further vocabulary: rows of any length, timelines *)

(** Row [p] has items [p[0]] .. [p[n-1]]. *)
Definition has_fields (n : nat) (p : row) : Prop := (n <= length p)%nat.

#[global] Instance has_fields_dec (n : nat) (p : row) : Decision (has_fields n p).
Proof. unfold has_fields. apply _. Defined.

(** A row [unpack4] accepts. *)
Definition four_fields (p : row) : Prop := length p = 4%nat.

#[global] Instance four_fields_dec (p : row) : Decision (four_fields p).
Proof. unfold four_fields. apply _. Defined.


(** A row the non-preemptive loop with selection key [key] can read: items
    0, 1, 2 and the key. *)
Definition np_readable (key : nat) (p : row) : Prop :=
  has_fields 3 p /\ has_fields (S key) p.

#[global] Instance np_readable_dec key p : Decision (np_readable key p).
Proof. unfold np_readable. apply _. Defined.

(** What the loop has completed is a duplicate-free part of the batch. *)
Definition np_part (l : list row) (st : np_state) : Prop :=
  NoDup (np_completed st) /\ np_completed st ⊆ l.

(** What the round-robin loop can rely on for any batch whose rows have four
    items: the dictionary knows every id of the batch, and the queue and the
    completed set hold ids of the batch only. *)
Definition rr_known (l : list row) (st : rr_state) : Prop :=
  (forall p, p ∈ l -> is_Some (rr_dict st !! pid_of p))
  /\ (forall x, x ∈ rr_queue st -> x ∈ pid_of <$> l)
  /\ (forall x, x ∈ rr_completed st -> x ∈ pid_of <$> l).

(** Every event of a schedule ends no earlier than the arrival of its process
    plus the burst of that process. *)
Definition respects_arrivals (batch : list row) (order finish : list Z) : Prop :=
  forall i pid f p,
    order !! i = Some pid -> finish !! i = Some f ->
    p ∈ batch -> pid_of p = pid ->
    arrival_of p + burst_of p <= f.

(** The clock of the non-preemptive loop at the loop head: finish times grow
    strictly and lie behind the clock, the clock is the burst served plus the
    idle steps, the last finish time is the clock as soon as everything is
    completed, and no process finished before its arrival plus its burst. *)
Definition np_clock (l : list row) (st : np_state) : Prop :=
  StronglySorted Z.lt (np_finish st)
  /\ Forall (fun f => f <= np_time st) (np_finish st)
  /\ np_time st = total_burst (np_completed st) + Z.of_nat (np_idles st)
  /\ (forall f, last (np_finish st) = Some f ->
                f = np_time st \/ (length (np_completed st) < length l)%nat)
  /\ Forall2 (fun p f => arrival_of p + burst_of p <= f)
       (np_completed st) (np_finish st).

(** The clock of the round-robin loop at the loop head: finish times grow
    strictly and lie behind the clock, the clock is the burst served so far
    plus the idle steps, the last finish time is the clock as soon as
    everything is completed, every slice lasts between one time unit and the
    quantum, and every event ends after the arrival of its process. *)
Definition rr_clock (quantum : Z) (l : list row) (st : rr_state) : Prop :=
  StronglySorted Z.lt (rr_finish st)
  /\ Forall (fun f => f <= rr_time st) (rr_finish st)
  /\ rr_time st
     = total_burst l - total_left (rr_dict st) l + Z.of_nat (rr_idles st)
  /\ (forall f, last (rr_finish st) = Some f ->
                f = rr_time st \/ (size (rr_completed st) < length l)%nat)
  /\ Forall (fun s => 0 < s_exec s <= quantum) (rr_slices st)
  /\ (forall i pid f p,
        rr_order st !! i = Some pid -> rr_finish st !! i = Some f ->
        p ∈ l -> pid_of p = pid -> arrival_of p < f).

(** At the latest event of a process so far, the clock had passed its
    arrival by at least the burst it had been served. *)
Definition rr_turnaround (l : list row) (st : rr_state) : Prop :=
  forall i pid f p,
    rr_order st !! i = Some pid -> rr_finish st !! i = Some f ->
    p ∈ l -> pid_of p = pid ->
    pid ∉ drop (S i) (rr_order st) ->
    arrival_of p + (burst_of p - left_of (rr_dict st) pid) <= f.

(** Rows compared by their selection key. *)
Definition key_order (key : nat) (p q : row) : Prop := nth key p 0 <= nth key q 0.

(** The non-preemptive loop when every process is there from the start: what
    is completed is in key order and precedes, in key order, whatever is
    not. *)
Definition np_by_key (key : nat) (l : list row) (st : np_state) : Prop :=
  0 <= np_time st
  /\ StronglySorted (key_order key) (np_completed st)
  /\ (forall c u, c ∈ np_completed st -> u ∈ l -> u ∉ np_completed st ->
                  key_order key c u).


(** ** Vocabulary for comparing the loops with [fcfs] *)

(** The loop of [sjf] and [priority_scheduling] has so far done what [fcfs]
    does on the first [k] rows of the sorted batch [l]; its clock is ahead of
    the clock of [fcfs] only while it waits for row [k]. *)
Definition np_as_fcfs (l : list row) (st : np_state) : Prop :=
  exists k fs,
    np_completed st = take k l
    /\ fcfs_loop (take k l) fcfs_init = Returns fs
    /\ np_finish st = f_finish fs
    /\ np_order st = f_order fs
    /\ f_time fs <= np_time st
    /\ (f_time fs < np_time st ->
        exists p, l !! k = Some p /\ np_time st <= arrival_of p).

(** The loop of [round_robin] has so far done what [fcfs] does on the first
    [k] rows of the sorted batch [l]: these rows are completed, the queue
    holds rows [k] to [j - 1] in this order, no later row has been served,
    and the clock is ahead of the clock of [fcfs] only while the queue is
    empty and row [k] is awaited. *)
Definition rr_as_fcfs (l : list row) (st : rr_state) : Prop :=
  exists k j fs,
    (k <= j)%nat
    /\ rr_completed st = list_to_set (pid_of <$> take k l)
    /\ rr_queue st = pid_of <$> drop k (take j l)
    /\ (forall p, p ∈ drop k l ->
                  rr_dict st !! pid_of p = Some (entry_of p (burst_of p)))
    /\ fcfs_loop (take k l) fcfs_init = Returns fs
    /\ rr_finish st = f_finish fs
    /\ rr_order st = f_order fs
    /\ f_time fs <= rr_time st
    /\ (f_time fs < rr_time st ->
        j = k /\ exists p, l !! k = Some p /\ rr_time st <= arrival_of p).

(** ** Vocabulary for what a returned schedule says about the batch *)

(** The loop of [sjf] and [priority_scheduling], on any batch [l]: the
    completed rows are distinct rows of the batch and [order] lists their
    ids. *)
Definition np_covers (l : list row) (st : np_state) : Prop :=
  np_part l st /\ np_order st = pid_of <$> np_completed st.

(** The loop of [round_robin], on any batch [l]: every completed id has been
    dispatched, and only ids of the batch are dispatched. *)
Definition rr_covers (l : list row) (st : rr_state) : Prop :=
  rr_known l st
  /\ (forall x, x ∈ rr_completed st -> x ∈ rr_order st)
  /\ (forall x, x ∈ rr_order st -> x ∈ pid_of <$> l).
(** ** The scenarios of the specification that the code reproduces *)

Example scenario_A :
  fcfs [[1; 0; 5; 0]; [2; 2; 3; 0]]
  = ([[1; 0; 5; 0]; [2; 2; 3; 0]], Returns (Schedule [5; 8] [1; 2])).
Proof. reflexivity. Qed.

Example scenario_B :
  sjf 10 [[1; 0; 8; 0]; [2; 1; 4; 0]; [3; 2; 9; 0]]
  = ([[1; 0; 8; 0]; [2; 1; 4; 0]; [3; 2; 9; 0]],
     Returns (Schedule [8; 12; 21] [1; 2; 3])).
Proof. reflexivity. Qed.

Example scenario_C :
  priority_scheduling 10 [[1; 0; 5; 3]; [2; 0; 3; 1]]
  = ([[1; 0; 5; 3]; [2; 0; 3; 1]], Returns (Schedule [3; 8] [2; 1])).
Proof. reflexivity. Qed.

Example scenario_D_run :
  round_robin 10 [[1; 0; 5; 0]; [2; 1; 3; 0]] (Some 2)
  = ([[1; 0; 5; 0]; [2; 1; 3; 0]],
     Returns (Schedule [2; 4; 6; 7; 8] [1; 2; 1; 2; 1])).
Proof. vm_compute. reflexivity. Qed.

(** ** Reasoning about outcomes *)

Lemma bind_Returns {A B : Type} (m : outcome A) (k : A -> outcome B) (b : B) :
  bind m k = Returns b -> exists a, m = Returns a /\ k a = Returns b.
Proof. destruct m as [a| |]; simpl; [eauto | discriminate | discriminate]. Qed.

Ltac inv_bind H :=
  let a := fresh "a" in
  let E := fresh "E" in
  apply bind_Returns in H as (a & E & H).

Lemma np_loop_S key processes fuel n st :
  np_loop key processes (S fuel) n st
  = if (length (np_completed st) <? n)%nat
    then bind (np_body key processes st) (np_loop key processes fuel n)
    else Returns st.
Proof. reflexivity. Qed.

Lemma rr_loop_S quantum sorted n fuel st :
  rr_loop quantum sorted n (S fuel) st
  = if (size (rr_completed st) <? n)%nat
    then bind (rr_body quantum sorted st) (rr_loop quantum sorted n fuel)
    else Returns st.
Proof. reflexivity. Qed.

(** ** C1: the quantum test of [round_robin] *)

Lemma rr_body_quantum_zero order finish idles slices :
  let d := <[1 := PEntry 0 5 0 5]> (∅ : gmap Z pentry) in
  rr_body 0 [[1; 0; 5; 0]] (RrState 0 [] ∅ order finish d idles slices)
  = Returns (RrState 0 [1] ∅ (order ++ [1]) (finish ++ [0]) d idles
               (slices ++ [Slice 1 0 5])).
Proof. vm_compute. reflexivity. Qed.

Lemma rr_body_quantum_zero' order finish idles slices :
  let d := <[1 := PEntry 0 5 0 5]> (∅ : gmap Z pentry) in
  rr_body 0 [[1; 0; 5; 0]] (RrState 0 [1] ∅ order finish d idles slices)
  = Returns (RrState 0 [1] ∅ (order ++ [1]) (finish ++ [0]) d idles
               (slices ++ [Slice 1 0 5])).
Proof. vm_compute. reflexivity. Qed.

Lemma rr_loop_quantum_zero fuel order finish idles slices :
  rr_loop 0 [[1; 0; 5; 0]] 1 fuel
    (RrState 0 [1] ∅ order finish (<[1 := PEntry 0 5 0 5]> ∅) idles slices)
  = OutOfFuel.
Proof.
  revert order finish slices.
  induction fuel as [|fuel IH]; intros order finish slices; [reflexivity|].
  rewrite rr_loop_S.
  change (size (rr_completed _) <? 1)%nat with (size (∅ : gset Z) <? 1)%nat.
  replace (size (∅ : gset Z) <? 1)%nat with true by (vm_compute; reflexivity).
  rewrite rr_body_quantum_zero'. simpl. apply IH.
Qed.

Lemma round_robin_never_reports_given_quantum fuel processes quantum msg :
  (round_robin fuel processes (Some quantum)).2 <> Returns (ErrorMsg msg).
Proof.
  simpl. destruct (rr_run fuel processes quantum); simpl; congruence.
Qed.

(** C1 (defect).  An absent quantum is answered with the error dictionary and
    the batch is not touched.  A quantum that is present is never answered
    with an error, whatever its sign: with quantum 0 and the one-process batch
    [(1, 0, 5, 0)] the loop dispatches process 1 for zero time units again and
    again and never returns, and with an empty batch it returns an empty
    schedule. *)
Theorem C1_nonpositive_quantum_is_not_rejected :
  (forall fuel processes,
      round_robin fuel processes None
      = (processes,
         Returns (ErrorMsg "Quantum must be provided for Round Robin scheduling")))
  /\ (forall fuel processes quantum msg,
         (round_robin fuel processes (Some quantum)).2 <> Returns (ErrorMsg msg))
  /\ (forall fuel, (round_robin fuel [[1; 0; 5; 0]] (Some 0)).2 = OutOfFuel)
  /\ (forall fuel quantum,
         (round_robin (S fuel) [] (Some quantum)).2 = Returns (Schedule [] [])).
Proof.
  split; [reflexivity|].
  split; [apply round_robin_never_reports_given_quantum|].
  split; [|reflexivity].
  intros fuel. unfold round_robin, rr_run. simpl.
  destruct fuel as [|fuel]; [reflexivity|].
  rewrite rr_loop_S.
  replace (size (rr_completed (rr_init _)) <? 1)%nat with true
    by (vm_compute; reflexivity).
  unfold rr_init. rewrite rr_body_quantum_zero. simpl.
  rewrite rr_loop_quantum_zero. reflexivity.
Qed.

(** ** C5: scenario D *)

(** C5 (as stated, refuted).  No run of [round_robin] with quantum 2 on the
    batch [(1,0,5,_)], [(2,1,3,_)] answers with the finish times
    [2,3,4,5,7]. *)
Lemma C5_stated_finish_times_fail :
  ~ exists fuel,
      (round_robin fuel [[1; 0; 5; 0]; [2; 1; 3; 0]] (Some 2)).2
      = Returns (Schedule [2; 3; 4; 5; 7] [1; 2; 1; 2; 1]).
Proof.
  intros [fuel H].
  do 6 (destruct fuel as [|fuel]; [vm_compute in H; discriminate H|]).
  vm_compute in H. discriminate H.
Qed.

(** C5 (amended).  With quantum 2 the batch [(1,0,5,_)], [(2,1,3,_)], whatever
    the two priorities, is dispatched in the order [1,2,1,2,1]; every slice
    but the last two is two units long, so the finish times are
    [2,4,6,7,8].  Six evaluations of the loop condition are enough, and the
    caller's batch is as it was. *)
Theorem C5_scenario_D (pri1 pri2 : Z) (extra : nat) :
  round_robin (6 + extra) [[1; 0; 5; pri1]; [2; 1; 3; pri2]] (Some 2)
  = ([[1; 0; 5; pri1]; [2; 1; 3; pri2]],
     Returns (Schedule [2; 4; 6; 7; 8] [1; 2; 1; 2; 1])).
Proof. vm_compute. reflexivity. Qed.

(** ** C10: one finish time per order entry *)

Lemma fcfs_loop_lengths processes st st' :
  fcfs_loop processes st = Returns st' ->
  length (f_finish st) = length (f_order st) ->
  length (f_finish st') = length (f_order st').
Proof.
  revert st. induction processes as [|p rest IH]; intros st H Hlen; simpl in H.
  - congruence.
  - inv_bind H. destruct a as [[[pid at_] bt] pri].
    apply IH in H; [exact H|]. simpl. rewrite !length_app. simpl. lia.
Qed.

Lemma np_body_lengths key processes st st' :
  np_body key processes st = Returns st' ->
  length (np_finish st) = length (np_order st) ->
  length (np_finish st') = length (np_order st').
Proof.
  unfold np_body. intros H Hlen. inv_bind H.
  destruct a as [|p0 av].
  - injection H as <-. exact Hlen.
  - inv_bind H. inv_bind H. inv_bind H. injection H as <-. simpl.
    rewrite !length_app. simpl. lia.
Qed.

Lemma np_loop_lengths key processes fuel n st st' :
  np_loop key processes fuel n st = Returns st' ->
  length (np_finish st) = length (np_order st) ->
  length (np_finish st') = length (np_order st').
Proof.
  revert st. induction fuel as [|fuel IH]; intros st H Hlen; [discriminate|].
  rewrite np_loop_S in H.
  destruct (length (np_completed st) <? n)%nat.
  - inv_bind H. eapply IH; [exact H|]. eapply np_body_lengths; eauto.
  - congruence.
Qed.

Lemma rr_body_lengths quantum sorted st st' :
  rr_body quantum sorted st = Returns st' ->
  length (rr_finish st) = length (rr_order st) ->
  length (rr_finish st') = length (rr_order st').
Proof.
  unfold rr_body. intros H Hlen. inv_bind H.
  destruct a as [|c q].
  - injection H as <-. exact Hlen.
  - inv_bind H. inv_bind H. apply bind_Returns in H as (e' & _ & H).
    destruct (0 <? remaining e'); injection H as <-; simpl;
      rewrite !length_app; simpl; lia.
Qed.

Lemma rr_loop_lengths quantum sorted n fuel st st' :
  rr_loop quantum sorted n fuel st = Returns st' ->
  length (rr_finish st) = length (rr_order st) ->
  length (rr_finish st') = length (rr_order st').
Proof.
  revert st. induction fuel as [|fuel IH]; intros st H Hlen; [discriminate|].
  rewrite rr_loop_S in H.
  destruct (size (rr_completed st) <? n)%nat.
  - inv_bind H. eapply IH; [exact H|]. eapply rr_body_lengths; eauto.
  - congruence.
Qed.

Lemma nonpreemptive_lengths key fuel processes finish order :
  (nonpreemptive key fuel processes).2 = Returns (Schedule finish order) ->
  length finish = length order.
Proof.
  unfold nonpreemptive. destruct (sorted_by 1 processes) as [sorted| |];
    simpl; [|discriminate|discriminate].
  intros H. inv_bind H. injection H as <- <-.
  eapply np_loop_lengths; [exact E|reflexivity].
Qed.

(** C10.  Whenever one of the four endpoints answers with a schedule, its
    ['finish'] and ['order'] lists have the same length.  This holds for
    every batch, well-formed or not, and every quantum. *)
Theorem C10_finish_and_order_have_equal_length
    (op : operation) (fuel : nat) (processes : list row) (finish order : list Z) :
  (run op fuel processes).2 = Returns (Schedule finish order) ->
  length finish = length order.
Proof.
  destruct op as [| | |quantum]; simpl.
  - unfold fcfs. destruct (sorted_by 1 processes) as [sorted| |];
      simpl; [|discriminate|discriminate].
    intros H. inv_bind H. injection H as <- <-.
    eapply fcfs_loop_lengths; [exact E|reflexivity].
  - apply nonpreemptive_lengths.
  - apply nonpreemptive_lengths.
  - destruct quantum as [quantum|]; simpl; [|discriminate].
    intros H. inv_bind H. injection H as <- <-.
    unfold rr_run in E. inv_bind E. inv_bind E.
    eapply rr_loop_lengths; [exact E|reflexivity].
Qed.

Lemma C10_witness :
  (run (RunRoundRobin (Some 2)) 6 [[1; 0; 5; 0]; [2; 1; 3; 0]]).2
  = Returns (Schedule [2; 4; 6; 7; 8] [1; 2; 1; 2; 1])
  /\ length [2; 4; 6; 7; 8] = length [1; 2; 1; 2; 1].
Proof.
  split; [vm_compute; reflexivity|].
  apply (C10_finish_and_order_have_equal_length (RunRoundRobin (Some 2)) 6
           [[1; 0; 5; 0]; [2; 1; 3; 0]]).
  vm_compute. reflexivity.
Defined.

(** ** The in-place sort *)

Lemma item_nth (p : row) (i : nat) :
  (i < length p)%nat -> item p i = Returns (nth i p 0).
Proof.
  intros Hi. unfold item.
  destruct (p !! i) as [v|] eqn:E.
  - f_equal. symmetry. apply nth_lookup_Some with (d := 0) in E. exact E.
  - apply lookup_ge_None in E. lia.
Qed.

Lemma item_short (p : row) (i : nat) :
  (length p <= i)%nat -> item p i = Raises IndexError.
Proof.
  intros Hi. unfold item.
  destruct (p !! i) as [v|] eqn:E; [|reflexivity].
  apply lookup_lt_Some in E. lia.
Qed.

Lemma map_o_keyed_arrival processes :
  Forall has_arrival processes ->
  map_o (keyed 1) processes = Returns ((fun p => (arrival_of p, p)) <$> processes).
Proof.
  induction 1 as [|p ps Hp _ IH]; [reflexivity|].
  simpl. unfold keyed at 1. rewrite item_nth by exact Hp. simpl.
  rewrite IH. reflexivity.
Qed.

Lemma map_o_keyed_short processes :
  ~ Forall has_arrival processes ->
  map_o (keyed 1) processes = Raises IndexError.
Proof.
  induction processes as [|p ps IH]; intros Hn.
  - destruct Hn. constructor.
  - simpl. unfold keyed at 1.
    destruct (decide (2 <= length p)%nat) as [Hp|Hp].
    + rewrite item_nth by exact Hp. simpl. rewrite IH; [reflexivity|].
      intros Hall. apply Hn. constructor; assumption.
    + rewrite item_short by lia. reflexivity.
Qed.

Lemma sorted_by_arrival_ok processes :
  Forall has_arrival processes ->
  sorted_by 1 processes = Returns (sort_arrival processes).
Proof.
  intros H. unfold sorted_by. rewrite map_o_keyed_arrival by exact H. reflexivity.
Qed.

Lemma sorted_by_arrival_short processes :
  ~ Forall has_arrival processes ->
  sorted_by 1 processes = Raises IndexError.
Proof.
  intros H. unfold sorted_by. rewrite map_o_keyed_short by exact H. reflexivity.
Qed.

Lemma insert_keyed_perm x l : insert_keyed x l ≡ₚ x :: l.
Proof.
  induction l as [|y l IH]; simpl; [reflexivity|].
  destruct (y.1 <? x.1); [|reflexivity].
  rewrite IH. apply Permutation_swap.
Qed.

Lemma sort_keyed_perm l : sort_keyed l ≡ₚ l.
Proof.
  induction l as [|x l IH]; simpl; [reflexivity|].
  rewrite insert_keyed_perm. rewrite IH. reflexivity.
Qed.

Lemma insert_keyed_sorted x l :
  StronglySorted key_le l -> StronglySorted key_le (insert_keyed x l).
Proof.
  induction 1 as [|y l Hs IH Hy]; simpl.
  - repeat constructor.
  - destruct (y.1 <? x.1) eqn:E.
    + constructor; [exact IH|].
      rewrite insert_keyed_perm. constructor; [|exact Hy].
      unfold key_le. lia.
    + constructor; [constructor; assumption|].
      constructor; [unfold key_le; lia|].
      eapply Forall_impl; [exact Hy|]. unfold key_le. intros z Hz. lia.
Qed.

Lemma sort_keyed_sorted l : StronglySorted key_le (sort_keyed l).
Proof.
  induction l as [|x l IH]; simpl; [constructor|].
  apply insert_keyed_sorted, IH.
Qed.

(** Stability: the items of any one key keep their relative order. *)
Lemma insert_keyed_stable (a : Z) x l :
  filter (fun y => y.1 = a) (insert_keyed x l) = filter (fun y => y.1 = a) (x :: l).
Proof.
  induction l as [|y l IH]; simpl; [reflexivity|].
  destruct (y.1 <? x.1) eqn:E; [|reflexivity].
  rewrite filter_cons, IH, !filter_cons.
  repeat case_decide; try reflexivity. lia.
Qed.

Lemma sort_keyed_stable (a : Z) l :
  filter (fun y => y.1 = a) (sort_keyed l) = filter (fun y => y.1 = a) l.
Proof.
  induction l as [|x l IH]; simpl; [reflexivity|].
  rewrite insert_keyed_stable, !filter_cons, IH. reflexivity.
Qed.

Lemma sort_keyed_id l : StronglySorted key_le l -> sort_keyed l = l.
Proof.
  induction 1 as [|x l Hs IH Hx]; simpl; [reflexivity|].
  rewrite IH. destruct l as [|y l]; [reflexivity|]. simpl.
  apply Forall_cons in Hx as [Hxy _]. unfold key_le in Hxy.
  destruct (y.1 <? x.1) eqn:E; [lia|reflexivity].
Qed.

Lemma sort_keyed_decorated l :
  Forall (fun x => x.1 = arrival_of x.2) l ->
  Forall (fun x => x.1 = arrival_of x.2) (sort_keyed l).
Proof. intros H. rewrite sort_keyed_perm. exact H. Qed.

Lemma decorate_arrival processes :
  Forall (fun x : Z * row => x.1 = arrival_of x.2)
         ((fun p => (arrival_of p, p)) <$> processes).
Proof. apply Forall_fmap, Forall_true. reflexivity. Qed.

Lemma decorated_snd l :
  Forall (fun x : Z * row => x.1 = arrival_of x.2) l ->
  (fun p => (arrival_of p, p)) <$> l.*2 = l.
Proof.
  induction 1 as [|[k p] l Hx _ IH]; [reflexivity|].
  simpl in Hx. subst k. rewrite !fmap_cons. simpl. f_equal. exact IH.
Qed.

Lemma sort_arrival_perm processes : sort_arrival processes ≡ₚ processes.
Proof.
  unfold sort_arrival. rewrite sort_keyed_perm, <- list_fmap_compose.
  simpl. rewrite list_fmap_id. reflexivity.
Qed.

Lemma sorted_keys_rows l :
  Forall (fun x : Z * row => x.1 = arrival_of x.2) l ->
  StronglySorted key_le l -> StronglySorted arrival_le l.*2.
Proof.
  intros Hdec Hs. induction Hs as [|x l Hs IH Hx]; simpl; [constructor|].
  apply Forall_cons in Hdec as [Hx1 Hdec].
  constructor; [apply IH, Hdec|].
  apply Forall_fmap. rewrite Forall_forall in Hx, Hdec |- *.
  intros y Hy. unfold arrival_le. simpl.
  specialize (Hx y Hy). specialize (Hdec y Hy). unfold key_le in Hx. lia.
Qed.

Lemma sort_arrival_sorted processes : StronglySorted arrival_le (sort_arrival processes).
Proof.
  unfold sort_arrival. apply sorted_keys_rows.
  - apply sort_keyed_decorated, decorate_arrival.
  - apply sort_keyed_sorted.
Qed.

Lemma filter_decorated (a : Z) l :
  Forall (fun x : Z * row => x.1 = arrival_of x.2) l ->
  filter (fun p => arrival_of p = a) l.*2 = (filter (fun x => x.1 = a) l).*2.
Proof.
  induction 1 as [|[k p] l Hx _ IH]; [reflexivity|].
  simpl in Hx. subst k. rewrite fmap_cons, !filter_cons. simpl.
  case_decide; rewrite IH; reflexivity.
Qed.

Lemma sort_arrival_stable (a : Z) processes :
  filter (fun p => arrival_of p = a) (sort_arrival processes)
  = filter (fun p => arrival_of p = a) processes.
Proof.
  unfold sort_arrival.
  rewrite filter_decorated by apply sort_keyed_decorated, decorate_arrival.
  rewrite sort_keyed_stable.
  rewrite <- filter_decorated by apply decorate_arrival.
  rewrite <- list_fmap_compose. simpl. rewrite list_fmap_id. reflexivity.
Qed.

Lemma sort_arrival_id processes :
  StronglySorted arrival_le processes -> sort_arrival processes = processes.
Proof.
  intros Hs. unfold sort_arrival. rewrite sort_keyed_id.
  - rewrite <- list_fmap_compose. simpl. apply list_fmap_id.
  - induction Hs as [|p l Hs IH Hp]; simpl; constructor; [exact IH|].
    apply Forall_fmap. eapply Forall_impl; [exact Hp|]. intros q Hq. exact Hq.
Qed.

(** ** C2: what a call leaves in the caller's batch *)

Lemma fcfs_batch processes :
  (fcfs processes).1
  = if decide (Forall has_arrival processes) then sort_arrival processes else processes.
Proof.
  unfold fcfs. case_decide as H.
  - rewrite sorted_by_arrival_ok by exact H. reflexivity.
  - rewrite sorted_by_arrival_short by exact H. reflexivity.
Qed.

Lemma nonpreemptive_batch key fuel processes :
  (nonpreemptive key fuel processes).1
  = if decide (Forall has_arrival processes) then sort_arrival processes else processes.
Proof.
  unfold nonpreemptive. case_decide as H.
  - rewrite sorted_by_arrival_ok by exact H. reflexivity.
  - rewrite sorted_by_arrival_short by exact H. reflexivity.
Qed.

Lemma run_batch op fuel processes :
  (run op fuel processes).1
  = match op with
    | RunRoundRobin _ => processes
    | _ => if decide (Forall has_arrival processes)
           then sort_arrival processes else processes
    end.
Proof.
  destruct op as [| | |[q|]]; simpl.
  - apply fcfs_batch.
  - apply nonpreemptive_batch.
  - apply nonpreemptive_batch.
  - reflexivity.
  - reflexivity.
Qed.

(** C2 (as stated, refuted).  A batch whose second record arrives before its
    first is handed back reordered by [fcfs], [sjf] and
    [priority_scheduling]. *)
Lemma C2_batch_is_reordered :
  (run RunFcfs 0 [[1; 5; 1; 0]; [2; 0; 1; 0]]).1 = [[2; 0; 1; 0]; [1; 5; 1; 0]]
  /\ (run RunSjf 0 [[1; 5; 1; 0]; [2; 0; 1; 0]]).1 = [[2; 0; 1; 0]; [1; 5; 1; 0]]
  /\ (run RunPriority 0 [[1; 5; 1; 0]; [2; 0; 1; 0]]).1 = [[2; 0; 1; 0]; [1; 5; 1; 0]]
  /\ [[2; 0; 1; 0]; [1; 5; 1; 0]] <> [[1; 5; 1; 0]; [2; 0; 1; 0]].
Proof. repeat split; discriminate. Qed.

(** C2 (amended).  [round_robin] leaves the caller's batch as it was.  The
    other three endpoints sort it in place: afterwards it holds the same
    records (a permutation of the input), in ascending order of arrival with
    records of equal arrival in their input order, whenever every row has an
    arrival field; a batch that was already in ascending order of arrival is
    left as it was. *)
Theorem C2_batch_after_a_run (op : operation) (fuel : nat) (processes : list row) :
  (run op fuel processes).1 ≡ₚ processes
  /\ (StronglySorted arrival_le processes -> (run op fuel processes).1 = processes)
  /\ match op with
     | RunRoundRobin _ => (run op fuel processes).1 = processes
     | _ =>
         Forall has_arrival processes ->
         StronglySorted arrival_le (run op fuel processes).1
         /\ forall a : Z,
              filter (fun p => arrival_of p = a) (run op fuel processes).1
              = filter (fun p => arrival_of p = a) processes
     end.
Proof.
  rewrite run_batch.
  assert (Hperm : (if decide (Forall has_arrival processes)
                   then sort_arrival processes else processes) ≡ₚ processes).
  { case_decide; [apply sort_arrival_perm|reflexivity]. }
  assert (Hid : StronglySorted arrival_le processes ->
                (if decide (Forall has_arrival processes)
                 then sort_arrival processes else processes) = processes).
  { intros Hs. case_decide; [apply sort_arrival_id, Hs|reflexivity]. }
  assert (Hsort : Forall has_arrival processes ->
            StronglySorted arrival_le
              (if decide (Forall has_arrival processes)
               then sort_arrival processes else processes)
            /\ forall a : Z,
                 filter (fun p => arrival_of p = a)
                   (if decide (Forall has_arrival processes)
                    then sort_arrival processes else processes)
                 = filter (fun p => arrival_of p = a) processes).
  { intros Hall. rewrite decide_True by exact Hall.
    split; [apply sort_arrival_sorted|intros a; apply sort_arrival_stable]. }
  destruct op; auto.
Qed.

Lemma C2_witness :
  StronglySorted arrival_le (run RunSjf 0 [[1; 5; 1; 0]; [2; 0; 1; 0]]).1.
Proof.
  apply (C2_batch_after_a_run RunSjf 0 [[1; 5; 1; 0]; [2; 0; 1; 0]]).
  repeat constructor; unfold has_arrival; simpl; lia.
Defined.

(** ** The body of the non-preemptive loop on well-formed rows *)

Lemma filter_o_pure {A : Type} (f : A -> outcome bool) (P : A -> Prop)
    `{!forall x, Decision (P x)} (l : list A) :
  (forall x, x ∈ l -> f x = Returns (bool_decide (P x))) ->
  filter_o f l = Returns (filter P l).
Proof.
  induction l as [|x l IH]; intros Hf; [reflexivity|].
  simpl. rewrite Hf by left. simpl.
  rewrite IH by (intros y Hy; apply Hf; right; exact Hy). simpl.
  rewrite filter_cons. destruct (decide (P x)) as [Hx|Hx].
  - rewrite bool_decide_eq_true_2 by exact Hx. reflexivity.
  - rewrite bool_decide_eq_false_2 by exact Hx. reflexivity.
Qed.

Lemma filter_o_ext {A : Type} (f g : A -> outcome bool) (l : list A) :
  (forall x, x ∈ l -> f x = g x) -> filter_o f l = filter_o g l.
Proof.
  induction l as [|x l IH]; intros Hf; [reflexivity|].
  simpl. rewrite Hf by left.
  rewrite IH by (intros y Hy; apply Hf; right; exact Hy). reflexivity.
Qed.

Lemma map_o_pure {A B : Type} (f : A -> outcome B) (g : A -> B) (l : list A) :
  (forall x, x ∈ l -> f x = Returns (g x)) -> map_o f l = Returns (g <$> l).
Proof.
  induction l as [|x l IH]; intros Hf; [reflexivity|].
  simpl. rewrite Hf by left. simpl.
  rewrite IH by (intros y Hy; apply Hf; right; exact Hy). reflexivity.
Qed.

Lemma np_available_pure processes time completed :
  Forall has_arrival processes ->
  np_available processes time completed
  = Returns (filter (eligible time completed) processes).
Proof.
  intros Hall. unfold np_available. apply filter_o_pure.
  intros p Hp. rewrite Forall_forall in Hall.
  rewrite item_nth by (apply Hall, Hp). simpl. f_equal.
  unfold eligible. fold (arrival_of p).
  destruct (bool_decide_reflect (p ∈ completed)) as [Hc|Hc];
    destruct (Z.leb_spec (arrival_of p) time) as [Ha|Ha]; simpl; symmetry.
  - apply bool_decide_eq_false_2. tauto.
  - apply bool_decide_eq_false_2. tauto.
  - apply bool_decide_eq_true_2. tauto.
  - apply bool_decide_eq_false_2. intros [? _]. lia.
Qed.

(** [min] returns the first item of least key: a strictly larger key on every
    item before it, no smaller key after it. *)
Lemma min_keyed_first best l :
  exists l1 x l2,
    best :: l = l1 ++ x :: l2
    /\ min_keyed best l = x.2
    /\ Forall (fun y => x.1 < y.1) l1
    /\ Forall (fun y => x.1 <= y.1) l2.
Proof.
  revert best. induction l as [|y l IH]; intros best.
  - exists [], best, []. repeat split; constructor.
  - simpl. destruct (y.1 <? best.1) eqn:E.
    + destruct (IH y) as (l1 & x & l2 & Heq & Hmin & H1 & H2).
      exists (best :: l1), x, l2. rewrite Heq. repeat split; try assumption.
      constructor; [|exact H1].
      destruct l1 as [|z l1]; simpl in Heq; injection Heq as -> _.
      * lia.
      * apply Forall_cons in H1 as [Hz _]. lia.
    + destruct (IH best) as (l1 & x & l2 & Heq & Hmin & H1 & H2).
      destruct l1 as [|z l1]; simpl in Heq; injection Heq as -> ->.
      * exists [], x, (y :: l2). repeat split; try assumption.
        constructor; [lia|exact H2].
      * exists (z :: y :: l1), x, l2. repeat split; try assumption.
        apply Forall_cons in H1 as [Hz H1].
        constructor; [exact Hz|]. constructor; [lia|exact H1].
Qed.

Lemma min_by_first (k : nat) (l : list row) :
  l <> [] ->
  Forall (fun p => (k < length p)%nat) l ->
  exists l1 p l2,
    l = l1 ++ p :: l2
    /\ min_by k l = Returns p
    /\ Forall (fun q => nth k p 0 < nth k q 0) l1
    /\ Forall (fun q => nth k p 0 <= nth k q 0) l2.
Proof.
  intros Hne Hall. unfold min_by.
  rewrite (map_o_pure (keyed k) (fun p => (nth k p 0, p))).
  2:{ intros p Hp. unfold keyed. rewrite Forall_forall in Hall.
      rewrite item_nth by (apply Hall, Hp). reflexivity. }
  destruct l as [|p0 l]; [congruence|]. simpl.
  destruct (min_keyed_first (nth k p0 0, p0) ((fun p => (nth k p 0, p)) <$> l))
    as (l1 & x & l2 & Heq & Hmin & H1 & H2).
  change ((nth k p0 0, p0) :: ((fun p => (nth k p 0, p)) <$> l))
    with ((fun p => (nth k p 0, p)) <$> (p0 :: l)) in Heq.
  apply fmap_app_inv in Heq as (r1 & r2' & -> & Heq2 & Hl).
  symmetry in Heq2. apply fmap_cons_inv in Heq2 as (p & r2 & -> & -> & ->).
  exists r1, p, r2. repeat split.
  - exact Hl.
  - f_equal. exact Hmin.
  - rewrite Forall_forall in H1. rewrite Forall_forall. intros q Hq.
    apply (H1 (nth k q 0, q)), list_elem_of_fmap. eauto.
  - rewrite Forall_forall in H2. rewrite Forall_forall. intros q Hq.
    apply (H2 (nth k q 0, q)), list_elem_of_fmap. eauto.
Qed.

Lemma np_body_cases key l st :
  (key < 4)%nat ->
  Forall (fun p => length p = 4%nat) l ->
  (filter (eligible (np_time st) (np_completed st)) l = []
   /\ np_body key l st
      = Returns (NpState (np_time st + 1) (np_completed st) (np_order st)
                   (np_finish st) (S (np_idles st))))
  \/ (exists l1 p l2,
         filter (eligible (np_time st) (np_completed st)) l = l1 ++ p :: l2
         /\ Forall (fun q => nth key p 0 < nth key q 0) l1
         /\ Forall (fun q => nth key p 0 <= nth key q 0) l2
         /\ np_body key l st
            = Returns (NpState (np_time st + burst_of p) (np_completed st ++ [p])
                         (np_order st ++ [pid_of p])
                         (np_finish st ++ [np_time st + burst_of p])
                         (np_idles st))).
Proof.
  intros Hkey Hall. unfold np_body.
  rewrite np_available_pure.
  2:{ eapply Forall_impl; [exact Hall|]. unfold has_arrival. intros p Hp. lia. }
  simpl.
  destruct (filter (eligible (np_time st) (np_completed st)) l) as [|p0 av] eqn:Eav.
  - left. split; reflexivity.
  - right.
    assert (Hsub : Forall (fun p => length p = 4%nat) (p0 :: av)).
    { rewrite Forall_forall in Hall. rewrite Forall_forall. intros p Hp.
      apply Hall. rewrite <- Eav in Hp.
      apply list_elem_of_filter in Hp as [_ Hp]. exact Hp. }
    destruct (min_by_first key (p0 :: av)) as (l1 & p & l2 & Heq & Hmin & H1 & H2).
    { discriminate. }
    { eapply Forall_impl; [exact Hsub|]. simpl. intros q Hq. lia. }
    exists l1, p, l2. repeat split; try assumption.
    rewrite Hmin. simpl.
    assert (Hp : length p = 4%nat).
    { rewrite Forall_forall in Hsub. apply Hsub. rewrite Heq.
      apply elem_of_app. right. left. }
    rewrite !item_nth by lia. reflexivity.
Qed.

Lemma max_arrival_nonneg l : 0 <= max_arrival l.
Proof. induction l as [|p l IH]; simpl; lia. Qed.

Lemma max_arrival_ge l p : p ∈ l -> arrival_of p <= max_arrival l.
Proof.
  induction 1 as [p l|p q l _ IH]; simpl; lia.
Qed.

Lemma missing_row (l c : list row) :
  NoDup l -> (length c < length l)%nat -> exists p, p ∈ l /\ p ∉ c.
Proof.
  intros Hnd Hlen.
  destruct (decide (Forall (fun p => p ∈ c) l)) as [Hall|Hex].
  - rewrite Forall_forall in Hall.
    pose proof (submseteq_length _ _ (NoDup_submseteq l c Hnd Hall)). lia.
  - apply not_Forall_Exists in Hex; [|intros p; apply _].
    apply Exists_exists in Hex as (p & Hp & Hc). eauto.
Qed.

Lemma valid_batch_NoDup l : valid_batch l -> NoDup l.
Proof. intros [_ H]. eapply NoDup_fmap_1, H. Qed.

Lemma valid_batch_four l : valid_batch l -> Forall (fun p => length p = 4%nat) l.
Proof. intros [H _]. eapply Forall_impl; [exact H|]. intros p Hp. apply Hp. Qed.

Lemma np_init_inv l : np_inv l np_init.
Proof.
  unfold np_inv, np_init. simpl. pose proof (max_arrival_nonneg l).
  repeat split; [constructor|apply list_subseteq_nil|lia].
Qed.

(** One iteration keeps the invariant, counts as one step, and uses up at
    least one unit of the measure. *)
Lemma np_body_step key l st :
  (key < 4)%nat ->
  valid_batch l ->
  np_inv l st ->
  (length (np_completed st) < length l)%nat ->
  exists st',
    np_body key l st = Returns st'
    /\ np_inv l st'
    /\ np_steps st' = S (np_steps st)
    /\ (np_measure l st' < np_measure l st)%nat.
Proof.
  intros Hkey Hvalid (Hnd & Hsub & Hord & Hlen & Hidle) Hlt.
  pose proof (valid_batch_four l Hvalid) as Hfour.
  destruct (np_body_cases key l st Hkey Hfour)
    as [[Hav Hbody]|(l1 & p & l2 & Hav & _ & _ & Hbody)];
    eexists; (split; [exact Hbody|]).
  - destruct (missing_row l (np_completed st)) as (p & Hp & Hc);
      [apply valid_batch_NoDup, Hvalid|exact Hlt|].
    assert (Hlate : np_time st < arrival_of p).
    { destruct (decide (arrival_of p <= np_time st)) as [Ha|Ha]; [|lia].
      assert (Hin : p ∈ filter (eligible (np_time st) (np_completed st)) l).
      { apply list_elem_of_filter. split; [split; assumption|exact Hp]. }
      rewrite Hav in Hin. inversion Hin. }
    pose proof (max_arrival_ge l p Hp).
    unfold np_inv, np_steps, np_measure. simpl.
    repeat split; try assumption; lia.
  - assert (Hp : p ∈ filter (eligible (np_time st) (np_completed st)) l).
    { rewrite Hav. apply elem_of_app. right. left. }
    apply list_elem_of_filter in Hp as [[Ha Hc] Hp].
    assert (Hb : 0 < burst_of p).
    { destruct Hvalid as [Hwf _]. rewrite Forall_forall in Hwf.
      apply (Hwf p Hp). }
    unfold np_inv, np_steps, np_measure. simpl.
    rewrite !length_app, fmap_app. simpl.
    repeat split.
    + apply NoDup_app. repeat split; [exact Hnd| |apply NoDup_singleton].
      intros q Hq Hq'. apply list_elem_of_singleton in Hq'. subst q. tauto.
    + intros q Hq. apply elem_of_app in Hq as [Hq|Hq]; [apply Hsub, Hq|].
      apply list_elem_of_singleton in Hq. subst q. exact Hp.
    + rewrite Hord. reflexivity.
    + lia.
    + lia.
    + lia.
    + lia.
Qed.

(** ** The non-preemptive loop on a valid batch: it runs to completion *)

Lemma np_loop_exit key l fuel st :
  (length l <= length (np_completed st))%nat ->
  np_loop key l (S fuel) (length l) st = Returns st.
Proof.
  intros H. rewrite np_loop_S.
  destruct (Nat.ltb_spec (length (np_completed st)) (length l)); [lia|reflexivity].
Qed.

Lemma np_loop_runs key l fuel st :
  (key < 4)%nat ->
  valid_batch l ->
  np_inv l st ->
  (np_measure l st < fuel)%nat ->
  exists st',
    np_loop key l fuel (length l) st = Returns st'
    /\ np_inv l st'
    /\ (length l <= length (np_completed st'))%nat
    /\ (np_steps st <= np_steps st')%nat
    /\ forall fuel', (np_steps st' - np_steps st < fuel')%nat ->
                     np_loop key l fuel' (length l) st = Returns st'.
Proof.
  intros Hkey Hvalid. revert st.
  induction fuel as [|fuel IH]; intros st Hinv Hfuel; [lia|].
  destruct (Nat.ltb_spec (length (np_completed st)) (length l)) as [Hlt|Hge].
  - destruct (np_body_step key l st Hkey Hvalid Hinv Hlt)
      as (st1 & Hbody & Hinv1 & Hsteps & Hmeas).
    assert (Hfuel1 : (np_measure l st1 < fuel)%nat) by lia.
    destruct (IH st1 Hinv1 Hfuel1) as (st' & Hloop & Hinv' & Hdone & Hmono & Hany).
    refine (ex_intro _ st' (conj _ (conj Hinv' (conj Hdone (conj _ _))))); [|lia|].
    + rewrite np_loop_S.
      destruct (Nat.ltb_spec (length (np_completed st)) (length l)); [|lia].
      rewrite Hbody. exact Hloop.
    + intros [|fuel'] Hf; [lia|]. rewrite np_loop_S.
      destruct (Nat.ltb_spec (length (np_completed st)) (length l)); [|lia].
      rewrite Hbody. simpl. apply Hany. lia.
  - refine (ex_intro _ st (conj _ (conj Hinv (conj Hge (conj _ _)))));
      [apply np_loop_exit, Hge|lia|].
    intros [|fuel'] Hf; [lia|]. apply np_loop_exit, Hge.
Qed.

Lemma np_completed_all l st :
  np_inv l st ->
  (length l <= length (np_completed st))%nat ->
  np_completed st ≡ₚ l.
Proof.
  intros (Hnd & Hsub & _) Hlen.
  apply submseteq_length_Permutation; [|exact Hlen].
  apply NoDup_submseteq; assumption.
Qed.

Lemma valid_batch_perm l l' : l ≡ₚ l' -> valid_batch l -> valid_batch l'.
Proof.
  intros Hp [Hwf Hnd]. split.
  - rewrite <- Hp. exact Hwf.
  - rewrite <- Hp. exact Hnd.
Qed.

Lemma max_arrival_perm l l' : l ≡ₚ l' -> max_arrival l = max_arrival l'.
Proof.
  induction 1 as [|p l l' _ IH|p q l|l l' l'' _ IH1 _ IH2]; simpl; lia.
Qed.

Lemma total_burst_perm l l' : l ≡ₚ l' -> total_burst l = total_burst l'.
Proof.
  induction 1 as [|p l l' _ IH|p q l|l l' l'' _ IH1 _ IH2]; simpl; lia.
Qed.

Lemma total_burst_length l : valid_batch l -> Z.of_nat (length l) <= total_burst l.
Proof.
  intros [Hwf _]. induction Hwf as [|p l (_ & _ & Hb) _ IH]; simpl; lia.
Qed.

Lemma valid_batch_has_arrival l : valid_batch l -> Forall has_arrival l.
Proof.
  intros [H _]. eapply Forall_impl; [exact H|].
  intros p (Hp & _). unfold has_arrival. lia.
Qed.

(** A valid batch under [sjf] (key 2) or [priority_scheduling] (key 3): the
    loop reaches a final state [st] within [np_steps st + 1] evaluations of its
    condition, having completed every record exactly once. *)
Lemma nonpreemptive_runs key processes :
  (key < 4)%nat ->
  valid_batch processes ->
  exists st,
    (forall fuel, (np_steps st < fuel)%nat ->
                  np_loop key (sort_arrival processes) fuel
                    (length (sort_arrival processes)) np_init = Returns st
                  /\ nonpreemptive key fuel processes
                     = (sort_arrival processes,
                        Returns (Schedule (np_finish st) (np_order st))))
    /\ np_inv (sort_arrival processes) st
    /\ np_completed st ≡ₚ processes.
Proof.
  intros Hkey Hvalid.
  assert (Hvalid' : valid_batch (sort_arrival processes)).
  { eapply valid_batch_perm; [|exact Hvalid]. symmetry. apply sort_arrival_perm. }
  destruct (np_loop_runs key (sort_arrival processes)
              (S (np_measure (sort_arrival processes) np_init)) np_init
              Hkey Hvalid' (np_init_inv _) (Nat.lt_succ_diag_r _))
    as (st & _ & Hinv & Hdone & _ & Hany).
  refine (ex_intro _ st (conj _ (conj Hinv _))).
  - intros fuel Hfuel.
    assert (Hrun : np_loop key (sort_arrival processes) fuel
                     (length (sort_arrival processes)) np_init = Returns st).
    { apply Hany. unfold np_steps at 2. simpl. lia. }
    split; [exact Hrun|]. unfold nonpreemptive.
    rewrite sorted_by_arrival_ok by apply valid_batch_has_arrival, Hvalid.
    rewrite Hrun. reflexivity.
  - rewrite np_completed_all by eassumption. apply sort_arrival_perm.
Qed.

(** ** Completion by row and completion by id agree on a valid batch *)

Lemma item_Returns (p : row) (i : nat) (v : Z) :
  item p i = Returns v -> v = nth i p 0.
Proof.
  unfold item. destruct (p !! i) as [w|] eqn:E; [|discriminate].
  intros [= <-]. symmetry. apply nth_lookup_Some with (d := 0) in E. exact E.
Qed.

Lemma pid_of_inj l p q :
  NoDup (pid_of <$> l) -> p ∈ l -> q ∈ l -> pid_of p = pid_of q -> p = q.
Proof.
  induction l as [|x l IH]; intros Hnd Hp Hq Heq; [inversion Hp|].
  rewrite fmap_cons in Hnd. apply NoDup_cons in Hnd as [Hx Hnd].
  apply elem_of_cons in Hp as [->|Hp]; apply elem_of_cons in Hq as [->|Hq].
  - reflexivity.
  - destruct Hx. rewrite Heq. apply list_elem_of_fmap. eauto.
  - destruct Hx. rewrite <- Heq. apply list_elem_of_fmap. eauto.
  - apply IH; assumption.
Qed.

(** The membership test on rows is the membership test on ids. *)
Lemma completed_row_iff_id l (completed : list row) p :
  NoDup (pid_of <$> l) -> completed ⊆ l -> p ∈ l ->
  p ∈ completed <-> pid_of p ∈ (list_to_set (pid_of <$> completed) : gset Z).
Proof.
  intros Hnd Hsub Hp. rewrite elem_of_list_to_set, list_elem_of_fmap. split.
  - intros Hc. eauto.
  - intros (q & Heq & Hq).
    rewrite (pid_of_inj l p q Hnd Hp (Hsub q Hq) Heq). exact Hq.
Qed.

Lemma completed_ids_size l (completed : list row) :
  NoDup (pid_of <$> l) -> completed ⊆ l -> NoDup completed ->
  size (list_to_set (pid_of <$> completed) : gset Z) = length completed.
Proof.
  intros Hnd Hsub Hc. rewrite size_list_to_set, length_fmap; [reflexivity|].
  apply NoDup_fmap_2_strong; [|exact Hc].
  intros p q Hp Hq Heq. eapply pid_of_inj; eauto.
Qed.

Lemma id_available_eq l st ist :
  valid_batch l -> np_inv l st -> id_sim st ist ->
  id_available l (id_time ist) (id_done ist)
  = np_available l (np_time st) (np_completed st).
Proof.
  intros Hvalid (Hnd & Hsub & _) (Ht & Hd & _).
  unfold id_available, np_available. apply filter_o_ext. intros p Hp.
  pose proof (valid_batch_four l Hvalid) as Hfour.
  rewrite Forall_forall in Hfour. specialize (Hfour p Hp).
  rewrite !item_nth by lia. simpl. rewrite Ht, Hd. do 3 f_equal.
  apply bool_decide_ext. symmetry.
  apply completed_row_iff_id with (l := l); [apply Hvalid|exact Hsub|exact Hp].
Qed.

Lemma id_body_sim key l st ist st' :
  valid_batch l -> np_inv l st -> id_sim st ist ->
  np_body key l st = Returns st' ->
  exists ist', id_body key l ist = Returns ist' /\ id_sim st' ist'.
Proof.
  intros Hvalid Hinv Hsim Hbody. unfold id_body.
  rewrite (id_available_eq l st ist Hvalid Hinv Hsim).
  unfold np_body in Hbody. destruct Hsim as (Ht & Hd & Ho & Hf).
  destruct (np_available l (np_time st) (np_completed st)) as [av| |];
    simpl in *; [|discriminate|discriminate].
  destruct av as [|p0 av].
  - injection Hbody as <-. eexists. split; [reflexivity|].
    unfold id_sim. simpl. rewrite Ht. auto.
  - destruct (min_by key (p0 :: av)) as [p| |]; simpl in *; [|discriminate|discriminate].
    destruct (item p 2) as [bt| |]; simpl in *; [|discriminate|discriminate].
    destruct (item p 0) as [pid| |] eqn:Epid; simpl in *; [|discriminate|discriminate].
    injection Hbody as <-. eexists. split; [reflexivity|].
    apply item_Returns in Epid. unfold id_sim. simpl.
    rewrite Ht, Hd, Ho, Hf, fmap_app, list_to_set_app_L. simpl.
    repeat split. unfold pid_of. rewrite <- Epid, union_empty_r_L. reflexivity.
Qed.

Lemma id_loop_sim key l fuel st ist :
  (key < 4)%nat -> valid_batch l -> np_inv l st -> id_sim st ist ->
  bind (id_loop key l fuel (length l) ist)
       (fun s => Returns (Schedule (id_finish s) (id_order s)))
  = bind (np_loop key l fuel (length l) st)
         (fun s => Returns (Schedule (np_finish s) (np_order s))).
Proof.
  intros Hkey Hvalid. revert st ist.
  induction fuel as [|fuel IH]; intros st ist Hinv Hsim; [reflexivity|].
  rewrite np_loop_S. simpl.
  assert (Hsize : size (id_done ist) = length (np_completed st)).
  { destruct Hsim as (_ & -> & _). destruct Hinv as (Hnd & Hsub & _).
    apply completed_ids_size with (l := l); [apply Hvalid|exact Hsub|exact Hnd]. }
  rewrite Hsize.
  destruct (Nat.ltb_spec (length (np_completed st)) (length l)) as [Hlt|Hge].
  - destruct (np_body_step key l st Hkey Hvalid Hinv Hlt)
      as (st1 & Hbody & Hinv1 & _).
    destruct (id_body_sim key l st ist st1 Hvalid Hinv Hsim Hbody)
      as (ist1 & Hibody & Hsim1).
    rewrite Hbody, Hibody. simpl. apply IH; assumption.
  - simpl. destruct Hsim as (_ & _ & -> & ->). reflexivity.
Qed.

Lemma id_init_sim : id_sim np_init id_init.
Proof. unfold id_sim. simpl. repeat split. Qed.

Lemma nonpreemptive_by_id_agrees key fuel processes :
  (key < 4)%nat -> valid_batch processes ->
  (nonpreemptive key fuel processes).2 = nonpreemptive_by_id key fuel processes.
Proof.
  intros Hkey Hvalid. unfold nonpreemptive, nonpreemptive_by_id.
  rewrite sorted_by_arrival_ok by apply valid_batch_has_arrival, Hvalid.
  simpl. symmetry. apply id_loop_sim; [exact Hkey| |apply np_init_inv|apply id_init_sim].
  eapply valid_batch_perm; [|exact Hvalid]. symmetry. apply sort_arrival_perm.
Qed.

(** ** [fcfs] on a valid batch *)

Lemma fcfs_loop_four l st :
  Forall (fun p => length p = 4%nat) l ->
  exists st',
    fcfs_loop l st = Returns st'
    /\ f_order st' = f_order st ++ (pid_of <$> l)
    /\ length (f_finish st') = (length (f_finish st) + length l)%nat.
Proof.
  intros Hall. revert st. induction Hall as [|p l Hp _ IH]; intros st.
  - exists st. simpl. rewrite app_nil_r. repeat split. lia.
  - destruct p as [|pid [|at_ [|bt [|pri [|]]]]]; try discriminate Hp.
    simpl. edestruct IH as (st' & -> & Ho & Hf).
    exists st'. simpl in *. rewrite Ho, Hf, <- app_assoc, length_app.
    repeat split. simpl. lia.
Qed.

Lemma fcfs_runs processes :
  valid_batch processes ->
  exists finish,
    fcfs processes
    = (sort_arrival processes,
       Returns (Schedule finish (pid_of <$> sort_arrival processes)))
    /\ length finish = length processes.
Proof.
  intros Hvalid. unfold fcfs.
  rewrite sorted_by_arrival_ok by apply valid_batch_has_arrival, Hvalid.
  destruct (fcfs_loop_four (sort_arrival processes) fcfs_init)
    as (st & Hloop & Ho & Hf).
  { apply valid_batch_four. eapply valid_batch_perm; [|exact Hvalid].
    symmetry. apply sort_arrival_perm. }
  exists (f_finish st). rewrite Hloop. simpl in *. rewrite Ho. split; [reflexivity|].
  rewrite Hf. apply Permutation_length, sort_arrival_perm.
Qed.

(** ** Counting dispatch events *)

Lemma events_of_app pid o o' :
  events_of pid (o ++ o') = (events_of pid o + events_of pid o')%nat.
Proof. unfold events_of. rewrite filter_app, length_app. reflexivity. Qed.

Lemma events_of_perm pid o o' : o ≡ₚ o' -> events_of pid o = events_of pid o'.
Proof. intros H. unfold events_of. rewrite H. reflexivity. Qed.

Lemma events_of_absent pid o : pid ∉ o -> events_of pid o = 0%nat.
Proof.
  intros H. unfold events_of.
  destruct (filter (λ x, x = pid) o) as [|x f] eqn:E; [reflexivity|].
  assert (Hx : x ∈ filter (λ x, x = pid) o) by (rewrite E; left).
  apply list_elem_of_filter in Hx as [-> Hx]. contradiction.
Qed.

Lemma events_of_NoDup pid o : NoDup o -> pid ∈ o -> events_of pid o = 1%nat.
Proof.
  induction 1 as [|x o Hx Hnd IH]; intros Hin; [inversion Hin|].
  change (x :: o) with ([x] ++ o). rewrite events_of_app.
  apply elem_of_cons in Hin as [->|Hin].
  - rewrite (events_of_absent x o Hx). unfold events_of.
    rewrite filter_cons, decide_True by reflexivity. reflexivity.
  - rewrite IH by exact Hin. unfold events_of.
    rewrite filter_cons, decide_False; [reflexivity|].
    intros ->. contradiction.
Qed.

(** ** The admission loops of [round_robin] *)

Lemma dict_get_ok l d p :
  dict_ok l d -> p ∈ l ->
  exists r, dict_get d (pid_of p) = Returns (entry_of p r)
            /\ d !! pid_of p = Some (entry_of p r).
Proof.
  intros Hd Hp. destruct (Hd p Hp) as (r & E). exists r.
  unfold dict_get. rewrite E. split; reflexivity.
Qed.

Lemma filter_admissible_snoc time completed skip queue x (ps : list row) :
  x ∉ pid_of <$> ps ->
  filter (admissible time completed skip (queue ++ [x])) ps
  = filter (admissible time completed skip queue) ps.
Proof.
  induction ps as [|p ps IH]; intros Hx; [reflexivity|].
  rewrite fmap_cons, not_elem_of_cons in Hx. destruct Hx as [Hne Hx].
  rewrite !filter_cons, IH by exact Hx.
  assert (Hiff : admissible time completed skip (queue ++ [x]) p
                 <-> admissible time completed skip queue p).
  { unfold admissible. rewrite elem_of_app, list_elem_of_singleton.
    split; intros (Ha & Hc & Hq & Hs); repeat split; try assumption.
    - tauto.
    - intros [?|?]; [tauto|congruence]. }
  destruct (decide (admissible time completed skip queue p)) as [Hp|Hp].
  - rewrite decide_True by (apply Hiff, Hp). reflexivity.
  - rewrite decide_False by (rewrite Hiff; exact Hp). reflexivity.
Qed.

(** On rows the dictionary knows, an admission loop appends to the queue the
    ids of the admissible rows, in the order of [sorted_processes]. *)
Lemma enqueue_arrivals_pure l d time completed skip ps queue :
  dict_ok l d ->
  ps ⊆ l ->
  Forall (fun p => length p = 4%nat) ps ->
  NoDup (pid_of <$> ps) ->
  enqueue_arrivals d time completed skip ps queue
  = Returns (queue ++ (pid_of <$> filter (admissible time completed skip queue) ps)).
Proof.
  intros Hd. revert queue.
  induction ps as [|p ps IH]; intros queue Hsub Hfour Hnd.
  - simpl. rewrite app_nil_r. reflexivity.
  - apply Forall_cons in Hfour as [Hp Hfour].
    rewrite fmap_cons in Hnd. apply NoDup_cons in Hnd as [Hfresh Hnd].
    assert (Hps : ps ⊆ l) by (intros x Hx; apply Hsub; right; exact Hx).
    destruct (dict_get_ok l d p Hd) as (r & Hget & _); [apply Hsub; left|].
    simpl. rewrite item_nth by lia. simpl. fold (pid_of p). rewrite Hget. simpl.
    rewrite filter_cons.
    destruct (decide (admissible time completed skip queue p))
      as [(Ha & Hc & Hq & Hs)|Hno].
    + apply Z.leb_le in Ha. rewrite Ha.
      rewrite (bool_decide_eq_false_2 (pid_of p ∈ completed)) by exact Hc.
      rewrite (bool_decide_eq_false_2 (pid_of p ∈ queue)) by exact Hq.
      rewrite (bool_decide_eq_false_2 (skip = Some (pid_of p))) by exact Hs.
      simpl. rewrite IH by assumption.
      rewrite filter_admissible_snoc by exact Hfresh.
      rewrite <- app_assoc. reflexivity.
    + assert (Hfalse : (arrival_of p <=? time)
                       && negb (bool_decide (pid_of p ∈ completed))
                       && negb (bool_decide (pid_of p ∈ queue))
                       && negb (bool_decide (skip = Some (pid_of p))) = false).
      { destruct (Z.leb_spec (arrival_of p) time); [|reflexivity].
        destruct (bool_decide_reflect (pid_of p ∈ completed)); [reflexivity|].
        destruct (bool_decide_reflect (pid_of p ∈ queue)); [reflexivity|].
        destruct (bool_decide_reflect (skip = Some (pid_of p))); [reflexivity|].
        destruct Hno. repeat split; assumption. }
      rewrite Hfalse. apply IH; assumption.
Qed.

(** ** The body of the round-robin loop on a valid batch *)

Lemma pid_in_batch (l : list row) (x : Z) :
  x ∈ pid_of <$> l -> exists p, p ∈ l /\ pid_of p = x.
Proof. intros H. apply list_elem_of_fmap in H as (p & -> & Hp). eauto. Qed.

Lemma dict_ok_insert l d p r :
  NoDup (pid_of <$> l) -> dict_ok l d -> p ∈ l ->
  dict_ok l (<[pid_of p := entry_of p r]> d).
Proof.
  intros Hnd Hd Hp p' Hp'.
  destruct (decide (pid_of p = pid_of p')) as [Heq|Hne].
  - rewrite (pid_of_inj l p p' Hnd Hp Hp' Heq). exists r. apply lookup_insert_eq.
  - rewrite lookup_insert_ne by exact Hne. apply Hd, Hp'.
Qed.

Lemma rr_body_cases quantum l st :
  valid_batch l ->
  dict_ok l (rr_dict st) ->
  (forall x, x ∈ rr_queue st -> x ∈ pid_of <$> l) ->
  (rr_queue st
     ++ (pid_of <$> filter (admissible (rr_time st) (rr_completed st) None
                              (rr_queue st)) l) = []
   /\ rr_body quantum l st = Returns (rr_after_idle st))
  \/ (exists p r queue,
         p ∈ l
         /\ rr_queue st
              ++ (pid_of <$> filter (admissible (rr_time st) (rr_completed st) None
                                       (rr_queue st)) l)
            = pid_of p :: queue
         /\ rr_dict st !! pid_of p = Some (entry_of p r)
         /\ rr_body quantum l st = Returns (rr_after_dispatch quantum l st p r queue)).
Proof.
  intros Hvalid Hd Hq. unfold rr_body.
  pose proof (valid_batch_four l Hvalid) as Hfour.
  destruct Hvalid as [Hwf Hnd].
  rewrite (enqueue_arrivals_pure l) by (try assumption; reflexivity). simpl.
  destruct (rr_queue st
              ++ (pid_of <$> filter (admissible (rr_time st) (rr_completed st) None
                                       (rr_queue st)) l))
    as [|cur queue] eqn:Eq.
  - left. split; reflexivity.
  - right.
    assert (Hcur : cur ∈ pid_of <$> l).
    { assert (Hin : cur ∈ cur :: queue) by left.
      rewrite <- Eq in Hin. apply elem_of_app in Hin as [Hin|Hin].
      - apply Hq, Hin.
      - apply list_elem_of_fmap in Hin as (p & -> & Hp).
        apply list_elem_of_filter in Hp as [_ Hp].
        apply list_elem_of_fmap. eauto. }
    apply pid_in_batch in Hcur as (p & Hp & <-).
    destruct (dict_get_ok l (rr_dict st) p Hd Hp) as (r & Hget & Hlook).
    exists p, r, queue. repeat split; try assumption.
    rewrite Hget. simpl.
    rewrite (enqueue_arrivals_pure l); try assumption; try reflexivity.
    2:{ apply (dict_ok_insert l (rr_dict st) p (r - Z.min quantum r) Hnd Hd Hp). }
    simpl. unfold dict_get. rewrite lookup_insert_eq. simpl.
    unfold rr_after_dispatch, entry_of. simpl.
    destruct (0 <? r - Z.min quantum r); reflexivity.
Qed.

(** ** Book-keeping lemmas for the round-robin invariant *)

Lemma slices_of_snoc_same pid slices e r :
  slices_of pid (slices ++ [Slice pid e r]) = slices_of pid slices ++ [Slice pid e r].
Proof.
  unfold slices_of. rewrite filter_app. f_equal.
  rewrite filter_cons, decide_True by reflexivity. reflexivity.
Qed.

Lemma slices_of_snoc_other pid pid' slices e r :
  pid' <> pid ->
  slices_of pid (slices ++ [Slice pid' e r]) = slices_of pid slices.
Proof.
  intros Hne. unfold slices_of. rewrite filter_app.
  rewrite (filter_cons _ (Slice pid' e r)), decide_False by exact Hne.
  apply app_nil_r.
Qed.

Lemma sum_exec_snoc (l : list slice) (s : slice) :
  foldr (fun s t => s_exec s + t) 0 (l ++ [s])
  = foldr (fun s t => s_exec s + t) 0 l + s_exec s.
Proof. induction l as [|x l IH]; simpl; lia. Qed.

Lemma events_are_slices pid slices :
  events_of pid (s_pid <$> slices) = length (slices_of pid slices).
Proof.
  unfold events_of, slices_of.
  induction slices as [|s slices IH]; [reflexivity|].
  rewrite fmap_cons, !filter_cons.
  destruct (decide (s_pid s = pid)); simpl; rewrite IH; reflexivity.
Qed.

Lemma left_of_insert_same d pid e : left_of (<[pid := e]> d) pid = remaining e.
Proof. unfold left_of. rewrite lookup_insert_eq. reflexivity. Qed.

Lemma left_of_insert_other d pid pid' e :
  pid <> pid' -> left_of (<[pid := e]> d) pid' = left_of d pid'.
Proof. intros H. unfold left_of. rewrite lookup_insert_ne by exact H. reflexivity. Qed.

Lemma total_left_insert_absent (l : list row) d pid e :
  pid ∉ pid_of <$> l -> total_left (<[pid := e]> d) l = total_left d l.
Proof.
  induction l as [|p l IH]; intros Hx; [reflexivity|].
  rewrite fmap_cons, not_elem_of_cons in Hx. destruct Hx as [Hne Hx].
  simpl. rewrite left_of_insert_other by exact Hne. rewrite IH by exact Hx.
  reflexivity.
Qed.

Lemma total_left_insert (l : list row) d p e :
  NoDup (pid_of <$> l) -> p ∈ l ->
  total_left (<[pid_of p := e]> d) l
  = total_left d l - left_of d (pid_of p) + remaining e.
Proof.
  induction l as [|x l IH]; intros Hnd Hp; [inversion Hp|].
  rewrite fmap_cons in Hnd. apply NoDup_cons in Hnd as [Hx Hnd].
  apply elem_of_cons in Hp as [->|Hp]; simpl.
  - rewrite left_of_insert_same, total_left_insert_absent by exact Hx. lia.
  - rewrite left_of_insert_other.
    + rewrite IH by assumption. lia.
    + intros Heq. apply Hx. rewrite <- Heq. apply list_elem_of_fmap. eauto.
Qed.

Lemma total_left_nonneg (l : list row) d :
  (forall p, p ∈ l -> 0 <= left_of d (pid_of p)) -> 0 <= total_left d l.
Proof.
  induction l as [|x l IH]; intros H; simpl; [lia|].
  pose proof (H x ltac:(left)).
  assert (0 <= total_left d l) by (apply IH; intros p Hp; apply H; right; exact Hp).
  lia.
Qed.

Lemma missing_pid (l : list row) (completed : gset Z) :
  NoDup (pid_of <$> l) -> (size completed < length l)%nat ->
  exists p, p ∈ l /\ pid_of p ∉ completed.
Proof.
  intros Hnd Hlen.
  destruct (decide (Forall (fun p => pid_of p ∈ completed) l)) as [Hall|Hex].
  - rewrite Forall_forall in Hall.
    assert (Hsub : (list_to_set (pid_of <$> l) : gset Z) ⊆ completed).
    { intros x Hx. apply elem_of_list_to_set in Hx.
      apply pid_in_batch in Hx as (p & Hp & <-). apply Hall, Hp. }
    apply subseteq_size in Hsub.
    rewrite size_list_to_set, length_fmap in Hsub by exact Hnd. lia.
  - apply not_Forall_Exists in Hex; [|intros p; apply _].
    apply Exists_exists in Hex as (p & Hp & Hc). eauto.
Qed.

Lemma enqueued_NoDup (l : list row) time completed skip queue :
  NoDup (pid_of <$> l) -> NoDup queue ->
  NoDup (queue ++ (pid_of <$> filter (admissible time completed skip queue) l)).
Proof.
  intros Hl Hq. apply NoDup_app. repeat split; [exact Hq| |].
  - intros x Hx Hin. apply list_elem_of_fmap in Hin as (p & -> & Hp).
    apply list_elem_of_filter in Hp as [(_ & _ & Hno & _) _]. contradiction.
  - apply (sublist_NoDup _ (pid_of <$> l) Hl).
    apply fmap_sublist, sublist_filter.
Qed.

Lemma enqueued_elem (l : list row) time completed skip queue x :
  x ∈ pid_of <$> filter (admissible time completed skip queue) l ->
  exists p, p ∈ l /\ pid_of p = x /\ admissible time completed skip queue p.
Proof.
  intros H. apply list_elem_of_fmap in H as (p & -> & Hp).
  apply list_elem_of_filter in Hp as [Ha Hp]. eauto.
Qed.

Lemma ceil_div_unique quantum burst k :
  0 < quantum -> quantum * (k - 1) < burst -> burst <= quantum * k ->
  ceil_div burst quantum = k.
Proof.
  intros Hq Hlo Hhi. unfold ceil_div. symmetry.
  apply Z.div_unique with (r := burst + quantum - 1 - quantum * k); lia.
Qed.

Lemma ledger_other quantum l st p r queue p' :
  pid_of p' <> pid_of p ->
  ledger_ok quantum st p' ->
  ledger_ok quantum (rr_after_dispatch quantum l st p r queue) p'.
Proof.
  intros Hne (r' & Hd & Hr & Hc & He & Hlo & Hhi & Hpos & Hlast).
  exists r'. unfold rr_after_dispatch, executed in *. simpl.
  rewrite slices_of_snoc_other by congruence.
  rewrite lookup_insert_ne by congruence.
  repeat split; try assumption.
  - intros Hin. apply Hc. destruct (0 <? r - Z.min quantum r); [exact Hin|].
    apply elem_of_union in Hin as [Hin|Hin]; [exact Hin|].
    apply elem_of_singleton in Hin. contradiction.
  - intros Hz. apply Hc in Hz. destruct (0 <? r - Z.min quantum r); [exact Hz|].
    apply elem_of_union. left. exact Hz.
Qed.

Lemma ledger_self quantum l st p r queue :
  0 < quantum -> 0 < r ->
  rr_dict st !! pid_of p = Some (entry_of p r) ->
  ledger_ok quantum st p ->
  ledger_ok quantum (rr_after_dispatch quantum l st p r queue) p.
Proof.
  intros Hq Hr Hlook (r0 & Hd & Hr0 & Hc & He & Hlo & Hhi & Hpos & Hlast).
  rewrite Hlook in Hd. injection Hd as <-.
  exists (r - Z.min quantum r). unfold rr_after_dispatch, executed in *. simpl.
  rewrite slices_of_snoc_same, length_app, sum_exec_snoc, last_snoc, lookup_insert_eq.
  simpl. specialize (Hpos Hr).
  split; [reflexivity|]. split; [lia|]. split; [|repeat split].
  - destruct (Z.ltb_spec 0 (r - Z.min quantum r)) as [Hrest|Hdone].
    + split; [intros Hin; apply Hc in Hin; lia|lia].
    + split; [lia|]. intros _. apply elem_of_union. right.
      apply elem_of_singleton. reflexivity.
  - lia.
  - lia.
  - lia.
  - lia.
  - intros s [= <-]. reflexivity.
Qed.

Lemma rr_idle_step quantum l st :
  valid_batch l ->
  rr_inv quantum l st ->
  (size (rr_completed st) < length l)%nat ->
  rr_queue st
    ++ (pid_of <$> filter (admissible (rr_time st) (rr_completed st) None
                             (rr_queue st)) l) = [] ->
  rr_inv quantum l (rr_after_idle st)
  /\ rr_steps (rr_after_idle st) = S (rr_steps st)
  /\ (rr_measure l (rr_after_idle st) < rr_measure l st)%nat
  /\ (rr_work l (rr_after_idle st) <= rr_work l st)%nat.
Proof.
  intros Hvalid (Hled & Hnd & Hq & Hc & Harr & Hord & Hlen & Hidle) Hlt Hempty.
  apply app_eq_nil in Hempty as [Hq0 Hnone].
  destruct (missing_pid l (rr_completed st)) as (p & Hp & Hpc);
    [apply Hvalid|exact Hlt|].
  assert (Hlate : rr_time st < arrival_of p).
  { destruct (decide (arrival_of p <= rr_time st)) as [Ha|Ha]; [|lia].
    assert (Hin : pid_of p ∈ pid_of <$> filter (admissible (rr_time st)
                    (rr_completed st) None (rr_queue st)) l).
    { apply list_elem_of_fmap. exists p. split; [reflexivity|].
      apply list_elem_of_filter. split; [|exact Hp].
      repeat split; try assumption; [|discriminate].
      rewrite Hq0. apply not_elem_of_nil. }
    rewrite Hnone in Hin. inversion Hin. }
  pose proof (max_arrival_ge l p Hp) as Hmax.
  unfold rr_inv, rr_steps, rr_measure, rr_work, rr_after_idle. simpl.
  split; [|repeat split; lia].
  split; [exact Hled|]. split; [constructor|].
  split; [intros x Hx; inversion Hx|]. split; [exact Hc|].
  split; [|split; [exact Hord|split; [exact Hlen|lia]]].
  intros p' Hp' [Hin|Hin]; [inversion Hin|].
  specialize (Harr p' Hp' (or_intror Hin)). lia.
Qed.

Lemma rr_dispatch_step quantum l st p r queue :
  0 < quantum ->
  valid_batch l ->
  rr_inv quantum l st ->
  p ∈ l ->
  rr_queue st
    ++ (pid_of <$> filter (admissible (rr_time st) (rr_completed st) None
                             (rr_queue st)) l) = pid_of p :: queue ->
  rr_dict st !! pid_of p = Some (entry_of p r) ->
  rr_inv quantum l (rr_after_dispatch quantum l st p r queue)
  /\ rr_steps (rr_after_dispatch quantum l st p r queue) = S (rr_steps st)
  /\ (rr_measure l (rr_after_dispatch quantum l st p r queue) < rr_measure l st)%nat
  /\ (rr_work l (rr_after_dispatch quantum l st p r queue) <= rr_work l st)%nat.
Proof.
  intros Hquantum Hvalid (Hled & Hnd & Hq & Hc & Harr & Hord & Hlen & Hidle)
    Hp Hq1 Hlook.
  assert (Hids : NoDup (pid_of <$> l)) by apply Hvalid.
  (* the queue after the first admission loop *)
  pose proof (enqueued_NoDup l (rr_time st) (rr_completed st) None (rr_queue st)
                Hids Hnd) as Hnd1.
  assert (Hmem1 : forall x, x ∈ pid_of p :: queue ->
            x ∈ pid_of <$> l /\ (x ∉ rr_completed st)
            /\ forall p', p' ∈ l -> pid_of p' = x -> arrival_of p' <= rr_time st).
  { intros x Hx. rewrite <- Hq1 in Hx. apply elem_of_app in Hx as [Hx|Hx].
    - destruct (Hq x Hx) as [Hin Hnc]. repeat split; try assumption.
      intros p' Hp' <-. apply Harr; [exact Hp'|left; exact Hx].
    - apply enqueued_elem in Hx as (p0 & Hp0 & <- & (Ha & Hnc & _)).
      repeat split; try assumption.
      + apply list_elem_of_fmap. eauto.
      + intros p' Hp' Heq. rewrite (pid_of_inj l p' p0 Hids Hp' Hp0 Heq). exact Ha. }
  rewrite Hq1 in Hnd1. apply NoDup_cons in Hnd1 as [Hpq Hndq].
  destruct (Hmem1 (pid_of p)) as (_ & Hpc & Hparr); [left|].
  specialize (Hparr p Hp eq_refl).
  (* the dispatched process has work left *)
  assert (Hr : 0 < r).
  { destruct (Hled p Hp) as (r0 & Hd & Hr0 & Hc0 & _).
    rewrite Hlook in Hd. injection Hd as <-.
    destruct (decide (r = 0)) as [Hz|Hz]; [|lia].
    apply Hc0 in Hz. contradiction. }
  assert (Hexec : 0 < Z.min quantum r <= r) by lia.
  (* the queue after the second admission loop *)
  pose proof (enqueued_NoDup l (rr_time st + Z.min quantum r) (rr_completed st)
                (Some (pid_of p)) queue Hids Hndq) as Hnd2.
  assert (Hmem2 : forall x,
            x ∈ queue ++ (pid_of <$> filter (admissible (rr_time st + Z.min quantum r)
                                     (rr_completed st) (Some (pid_of p)) queue) l) ->
            x <> pid_of p /\ x ∈ pid_of <$> l /\ (x ∉ rr_completed st)
            /\ forall p', p' ∈ l -> pid_of p' = x ->
                          arrival_of p' <= rr_time st + Z.min quantum r).
  { intros x Hx. apply elem_of_app in Hx as [Hx|Hx].
    - destruct (Hmem1 x) as (Hin & Hnc & Ha); [right; exact Hx|].
      repeat split; try assumption; [intros ->; contradiction|].
      intros p' Hp' Heq. specialize (Ha p' Hp' Heq). lia.
    - apply enqueued_elem in Hx as (p0 & Hp0 & <- & (Ha & Hnc & _ & Hskip)).
      repeat split; try assumption.
      + congruence.
      + apply list_elem_of_fmap. eauto.
      + intros p' Hp' Heq. rewrite (pid_of_inj l p' p0 Hids Hp' Hp0 Heq). exact Ha. }
  (* the books *)
  assert (Hled' : forall p', p' ∈ l ->
            ledger_ok quantum (rr_after_dispatch quantum l st p r queue) p').
  { intros p' Hp'. destruct (decide (pid_of p' = pid_of p)) as [Heq|Hne].
    - rewrite (pid_of_inj l p' p Hids Hp' Hp Heq).
      apply ledger_self; auto.
    - apply ledger_other; auto. }
  assert (Hleft : left_of (rr_dict st) (pid_of p) = r).
  { unfold left_of. rewrite Hlook. reflexivity. }
  assert (Hnonneg : 0 <= total_left (rr_dict (rr_after_dispatch quantum l st p r queue)) l).
  { apply total_left_nonneg. intros p' Hp'.
    destruct (Hled' p' Hp') as (r' & Hd' & Hr' & _).
    unfold left_of. rewrite Hd'. exact Hr'. }
  split; [|split; [|split]].
  - unfold rr_inv. split; [exact Hled'|].
    unfold rr_after_dispatch in *. simpl in *.
    destruct (Z.ltb_spec 0 (r - Z.min quantum r)) as [Hrest|Hdone].
    + split.
      { apply NoDup_app. repeat split; [exact Hnd2| |apply NoDup_singleton].
        intros x Hx Hx'. apply list_elem_of_singleton in Hx'.
        destruct (Hmem2 x Hx) as (Hne & _). contradiction. }
      split.
      { intros x Hx. apply elem_of_app in Hx as [Hx|Hx].
        - destruct (Hmem2 x Hx) as (_ & Hin & Hnc & _). split; assumption.
        - apply list_elem_of_singleton in Hx. subst x.
          split; [apply list_elem_of_fmap; eauto|exact Hpc]. }
      split; [exact Hc|].
      split.
      { intros p' Hp' [Hin|Hin].
        - apply elem_of_app in Hin as [Hin|Hin].
          + destruct (Hmem2 _ Hin) as (_ & _ & _ & Ha). apply Ha; auto.
          + apply list_elem_of_singleton in Hin.
            rewrite (pid_of_inj l p' p Hids Hp' Hp Hin). lia.
        - specialize (Harr p' Hp' (or_intror Hin)). lia. }
      split; [rewrite fmap_app, Hord; reflexivity|].
      split; [rewrite !length_app, Hlen; reflexivity|]. lia.
    + split; [exact Hnd2|].
      split.
      { intros x Hx. destruct (Hmem2 x Hx) as (Hne & Hin & Hnc & _).
        split; [exact Hin|].
        intros Hx'. apply elem_of_union in Hx' as [Hx'|Hx']; [contradiction|].
        apply elem_of_singleton in Hx'. contradiction. }
      split.
      { intros x Hx. apply elem_of_union in Hx as [Hx|Hx]; [apply Hc, Hx|].
        apply elem_of_singleton in Hx. subst x. apply list_elem_of_fmap. eauto. }
      split.
      { intros p' Hp' [Hin|Hin].
        - destruct (Hmem2 _ Hin) as (_ & _ & _ & Ha). apply Ha; auto.
        - apply elem_of_union in Hin as [Hin|Hin].
          + specialize (Harr p' Hp' (or_intror Hin)). lia.
          + apply elem_of_singleton in Hin.
            rewrite (pid_of_inj l p' p Hids Hp' Hp Hin). lia. }
      split; [rewrite fmap_app, Hord; reflexivity|].
      split; [rewrite !length_app, Hlen; reflexivity|]. lia.
  - unfold rr_steps, rr_after_dispatch. simpl. rewrite length_app. simpl. lia.
  - unfold rr_measure, rr_after_dispatch in *. simpl in *.
    rewrite total_left_insert in * by assumption.
    rewrite Hleft in *. simpl in *. lia.
  - unfold rr_work, rr_after_dispatch in *. simpl in *.
    rewrite total_left_insert in * by assumption.
    rewrite Hleft, length_app in *. simpl in *. lia.
Qed.

Lemma rr_body_step quantum l st :
  0 < quantum ->
  valid_batch l ->
  rr_inv quantum l st ->
  (size (rr_completed st) < length l)%nat ->
  exists st',
    rr_body quantum l st = Returns st'
    /\ rr_inv quantum l st'
    /\ rr_steps st' = S (rr_steps st)
    /\ (rr_measure l st' < rr_measure l st)%nat
    /\ (rr_work l st' <= rr_work l st)%nat.
Proof.
  intros Hquantum Hvalid Hinv Hlt.
  destruct (rr_body_cases quantum l st Hvalid)
    as [[Hempty Hbody]|(p & r & queue & Hp & Hq1 & Hlook & Hbody)].
  - intros p Hp. destruct Hinv as (Hled & _).
    destruct (Hled p Hp) as (r & Hd & _). eauto.
  - intros x Hx. destruct Hinv as (_ & _ & Hq & _). apply Hq, Hx.
  - exists (rr_after_idle st). split; [exact Hbody|].
    apply rr_idle_step; assumption.
  - exists (rr_after_dispatch quantum l st p r queue). split; [exact Hbody|].
    apply rr_dispatch_step; assumption.
Qed.

(** ** The round-robin loop on a valid batch: it runs to completion *)

Lemma rr_loop_exit quantum l n fuel st :
  (n <= size (rr_completed st))%nat ->
  rr_loop quantum l n (S fuel) st = Returns st.
Proof.
  intros H. rewrite rr_loop_S.
  destruct (Nat.ltb_spec (size (rr_completed st)) n); [lia|reflexivity].
Qed.

Lemma rr_loop_runs quantum l fuel st :
  0 < quantum ->
  valid_batch l ->
  rr_inv quantum l st ->
  (rr_measure l st < fuel)%nat ->
  exists st',
    rr_loop quantum l (length l) fuel st = Returns st'
    /\ rr_inv quantum l st'
    /\ (length l <= size (rr_completed st'))%nat
    /\ (rr_steps st <= rr_steps st')%nat
    /\ (rr_work l st' <= rr_work l st)%nat
    /\ forall fuel', (rr_steps st' - rr_steps st < fuel')%nat ->
                     rr_loop quantum l (length l) fuel' st = Returns st'.
Proof.
  intros Hquantum Hvalid. revert st.
  induction fuel as [|fuel IH]; intros st Hinv Hfuel; [lia|].
  destruct (Nat.ltb_spec (size (rr_completed st)) (length l)) as [Hlt|Hge].
  - destruct (rr_body_step quantum l st Hquantum Hvalid Hinv Hlt)
      as (st1 & Hbody & Hinv1 & Hsteps & Hmeas & Hwork1).
    assert (Hfuel1 : (rr_measure l st1 < fuel)%nat) by lia.
    destruct (IH st1 Hinv1 Hfuel1)
      as (st' & Hloop & Hinv' & Hdone & Hmono & Hwork & Hany).
    refine (ex_intro _ st' (conj _ (conj Hinv' (conj Hdone (conj _ (conj _ _))))));
      [|lia|lia|].
    + rewrite rr_loop_S.
      destruct (Nat.ltb_spec (size (rr_completed st)) (length l)); [|lia].
      rewrite Hbody. exact Hloop.
    + intros [|fuel'] Hf; [lia|]. rewrite rr_loop_S.
      destruct (Nat.ltb_spec (size (rr_completed st)) (length l)); [|lia].
      rewrite Hbody. simpl. apply Hany. lia.
  - refine (ex_intro _ st (conj _ (conj Hinv (conj Hge (conj _ (conj _ _))))));
      [apply rr_loop_exit, Hge|lia|lia|].
    intros [|fuel'] Hf; [lia|]. apply rr_loop_exit, Hge.
Qed.

Lemma build_dict_pure (ps : list row) d :
  Forall (fun p => length p = 4%nat) ps ->
  build_dict ps d
  = Returns (foldl (fun d p => <[pid_of p := entry_of p (burst_of p)]> d) d ps).
Proof.
  intros Hall. revert d. induction Hall as [|p ps Hp _ IH]; intros d; [reflexivity|].
  simpl. rewrite !item_nth by lia. simpl. apply IH.
Qed.

Lemma foldl_insert_absent (ps : list row) (d : gmap Z pentry) pid :
  pid ∉ pid_of <$> ps ->
  foldl (fun d p => <[pid_of p := entry_of p (burst_of p)]> d) d ps !! pid = d !! pid.
Proof.
  revert d. induction ps as [|p ps IH]; intros d Hx; [reflexivity|].
  rewrite fmap_cons, not_elem_of_cons in Hx. destruct Hx as [Hne Hx].
  simpl. rewrite IH by exact Hx. apply lookup_insert_ne. congruence.
Qed.

Lemma foldl_insert_lookup (ps : list row) (d : gmap Z pentry) p :
  NoDup (pid_of <$> ps) -> p ∈ ps ->
  foldl (fun d p => <[pid_of p := entry_of p (burst_of p)]> d) d ps !! pid_of p
  = Some (entry_of p (burst_of p)).
Proof.
  revert d. induction ps as [|x ps IH]; intros d Hnd Hp; [inversion Hp|].
  rewrite fmap_cons in Hnd. apply NoDup_cons in Hnd as [Hx Hnd].
  apply elem_of_cons in Hp as [->|Hp]; simpl.
  - rewrite foldl_insert_absent by exact Hx. apply lookup_insert_eq.
  - apply IH; assumption.
Qed.

Lemma total_left_initial (l : list row) d :
  (forall p, p ∈ l -> left_of d (pid_of p) = burst_of p) ->
  total_left d l = total_burst l.
Proof.
  induction l as [|p l IH]; intros H; [reflexivity|].
  simpl. rewrite H by left. rewrite IH; [reflexivity|].
  intros q Hq. apply H. right. exact Hq.
Qed.

Lemma rr_init_inv quantum l d :
  0 < quantum ->
  valid_batch l ->
  (forall p, p ∈ l -> d !! pid_of p = Some (entry_of p (burst_of p))) ->
  rr_inv quantum l (rr_init d).
Proof.
  intros Hquantum [Hwf Hnd] Hd. unfold rr_inv, rr_init. simpl.
  pose proof (max_arrival_nonneg l).
  split.
  { intros p Hp. exists (burst_of p). rewrite Forall_forall in Hwf.
    destruct (Hwf p Hp) as (_ & _ & Hb). unfold executed. simpl.
    split; [apply Hd, Hp|]. split; [lia|].
    split; [split; [intros Hin; apply not_elem_of_empty in Hin; contradiction|lia]|].
    repeat split; try lia. discriminate. }
  split; [constructor|].
  split; [intros x Hx; inversion Hx|].
  split; [intros x Hx; apply not_elem_of_empty in Hx; contradiction|].
  split; [|repeat split; lia].
  intros p _ [Hin|Hin]; [inversion Hin|].
  apply not_elem_of_empty in Hin. contradiction.
Qed.

Lemma all_completed (l : list row) (completed : gset Z) :
  NoDup (pid_of <$> l) ->
  (forall x, x ∈ completed -> x ∈ pid_of <$> l) ->
  (length l <= size completed)%nat ->
  forall p, p ∈ l -> pid_of p ∈ completed.
Proof.
  intros Hnd Hsub Hsize p Hp.
  assert (Heq : completed = list_to_set (pid_of <$> l)).
  { apply set_subseteq_size_eq.
    - intros x Hx. apply elem_of_list_to_set, Hsub, Hx.
    - rewrite size_list_to_set, length_fmap by exact Hnd. exact Hsize. }
  rewrite Heq. apply elem_of_list_to_set, list_elem_of_fmap. eauto.
Qed.

(** A valid batch under [round_robin] with a positive quantum: the loop
    reaches a final state [st] within [rr_steps st + 1] evaluations of its
    condition, with every process completed. *)
Lemma rr_run_runs quantum processes :
  0 < quantum ->
  valid_batch processes ->
  exists st,
    (forall fuel, (rr_steps st < fuel)%nat -> rr_run fuel processes quantum = Returns st)
    /\ rr_inv quantum (sort_arrival processes) st
    /\ Z.of_nat (length (rr_order st)) <= total_burst processes
    /\ forall p, p ∈ processes -> pid_of p ∈ rr_completed st.
Proof.
  intros Hquantum Hvalid.
  pose proof (sort_arrival_perm processes) as Hperm.
  assert (Hvalid' : valid_batch (sort_arrival processes)).
  { eapply valid_batch_perm; [|exact Hvalid]. symmetry. exact Hperm. }
  set (d := foldl (fun d p => <[pid_of p := entry_of p (burst_of p)]> d)
              (∅ : gmap Z pentry) processes).
  assert (Hinit : rr_inv quantum (sort_arrival processes) (rr_init d)).
  { apply rr_init_inv; [exact Hquantum|exact Hvalid'|].
    intros p Hp. rewrite Hperm in Hp.
    apply foldl_insert_lookup; [apply Hvalid|exact Hp]. }
  destruct (rr_loop_runs quantum (sort_arrival processes)
              (S (rr_measure (sort_arrival processes) (rr_init d))) (rr_init d)
              Hquantum Hvalid' Hinit (Nat.lt_succ_diag_r _))
    as (st & _ & Hinv & Hdone & _ & Hwork & Hany).
  refine (ex_intro _ st (conj _ (conj Hinv (conj _ _)))).
  - intros fuel Hfuel. unfold rr_run.
    rewrite build_dict_pure by apply valid_batch_four, Hvalid.
    rewrite sorted_by_arrival_ok by apply valid_batch_has_arrival, Hvalid.
    simpl. rewrite <- (Permutation_length Hperm).
    apply Hany. unfold rr_steps at 2. simpl. lia.
  - unfold rr_work in Hwork. simpl in Hwork.
    rewrite (total_left_initial (sort_arrival processes) d) in Hwork.
    + rewrite (total_burst_perm _ _ Hperm) in Hwork.
      assert (0 <= total_burst processes)
        by (pose proof (total_burst_length processes Hvalid); lia).
      lia.
    + intros p Hp. rewrite Hperm in Hp. unfold left_of, d.
      rewrite foldl_insert_lookup; [reflexivity|apply Hvalid|exact Hp].
  - intros p Hp. rewrite <- Hperm in Hp.
    destruct Hinv as (_ & _ & _ & Hc & _).
    apply (all_completed (sort_arrival processes)); try assumption.
    apply Hvalid'.
Qed.

(** ** What a run on a valid batch returns *)

Lemma np_final_order processes st :
  np_inv (sort_arrival processes) st ->
  np_completed st ≡ₚ processes ->
  np_order st ≡ₚ pid_of <$> processes.
Proof.
  intros (_ & _ & Hord & _) Hperm. rewrite Hord, Hperm. reflexivity.
Qed.

(** Every non-preemptive endpoint, on a valid batch, answers with a schedule
    whose order is a rearrangement of the batch's ids. *)
Lemma non_preemptive_order op processes :
  non_preemptive op ->
  valid_batch processes ->
  exists finish order fuel0,
    order ≡ₚ pid_of <$> processes
    /\ forall fuel, (fuel0 <= fuel)%nat ->
         run op fuel processes
         = (sort_arrival processes, Returns (Schedule finish order)).
Proof.
  intros Hop Hvalid. destruct op as [| | |q]; simpl in *; [| | |contradiction].
  - destruct (fcfs_runs processes Hvalid) as (finish & Hrun & _).
    exists finish, (pid_of <$> sort_arrival processes), 0%nat.
    split; [rewrite sort_arrival_perm; reflexivity|]. intros fuel _. exact Hrun.
  - destruct (nonpreemptive_runs 2 processes) as (st & Hrun & Hinv & Hperm);
      [lia|exact Hvalid|].
    exists (np_finish st), (np_order st), (S (np_steps st)).
    split; [eapply np_final_order; eauto|].
    intros fuel Hfuel. apply Hrun. lia.
  - destruct (nonpreemptive_runs 3 processes) as (st & Hrun & Hinv & Hperm);
      [lia|exact Hvalid|].
    exists (np_finish st), (np_order st), (S (np_steps st)).
    split; [eapply np_final_order; eauto|].
    intros fuel Hfuel. apply Hrun. lia.
Qed.

Lemma rr_final_ledger quantum st p :
  0 < quantum ->
  0 < burst_of p ->
  ledger_ok quantum st p ->
  pid_of p ∈ rr_completed st ->
  rr_order st = s_pid <$> rr_slices st ->
  Z.of_nat (events_of (pid_of p) (rr_order st)) = ceil_div (burst_of p) quantum
  /\ executed (pid_of p) (rr_slices st) = burst_of p
  /\ (exists s, last (slices_of (pid_of p) (rr_slices st)) = Some s /\ s_left s = 0)
  /\ left_of (rr_dict st) (pid_of p) = 0.
Proof.
  intros Hq Hb (r & Hd & Hr & Hc & He & Hlo & Hhi & Hpos & Hlast) Hin Hord.
  apply Hc in Hin. subst r. rewrite Z.sub_0_r in *.
  rewrite Hord, events_are_slices.
  split; [symmetry; apply ceil_div_unique; assumption|].
  split; [exact He|]. split; [|unfold left_of; rewrite Hd; reflexivity].
  destruct (last (slices_of (pid_of p) (rr_slices st))) as [s|] eqn:El.
  - exists s. split; [reflexivity|]. apply Hlast. reflexivity.
  - apply last_None in El. rewrite El in Hhi. simpl in Hhi. lia.
Qed.

(** ** C3: completion is tracked by id, and every id is dispatched *)

Lemma rr_dispatched_all quantum processes :
  0 < quantum ->
  valid_batch processes ->
  exists st,
    (forall fuel, (rr_steps st < fuel)%nat ->
       rr_run fuel processes quantum = Returns st
       /\ round_robin fuel processes (Some quantum)
          = (processes, Returns (Schedule (rr_finish st) (rr_order st))))
    /\ rr_order st = s_pid <$> rr_slices st
    /\ Z.of_nat (length (rr_order st)) <= total_burst processes
    /\ Z.of_nat (rr_idles st) <= max_arrival processes
    /\ forall p, p ∈ processes ->
         Z.of_nat (events_of (pid_of p) (rr_order st)) = ceil_div (burst_of p) quantum
         /\ executed (pid_of p) (rr_slices st) = burst_of p
         /\ (exists s, last (slices_of (pid_of p) (rr_slices st)) = Some s
                       /\ s_left s = 0)
         /\ left_of (rr_dict st) (pid_of p) = 0.
Proof.
  intros Hquantum Hvalid.
  destruct (rr_run_runs quantum processes Hquantum Hvalid)
    as (st & Hrun & Hinv & Hwork & Hall).
  pose proof Hinv as (Hled & _ & _ & _ & _ & Hord & _ & Hidle).
  exists st. split; [|split; [exact Hord|split; [exact Hwork|split]]].
  - intros fuel Hfuel. split; [apply Hrun, Hfuel|].
    unfold round_robin. rewrite (Hrun fuel Hfuel). reflexivity.
  - rewrite (max_arrival_perm _ _ (sort_arrival_perm processes)) in Hidle. lia.
  - intros p Hp. apply rr_final_ledger; try assumption.
    + destruct Hvalid as [Hwf _]. rewrite Forall_forall in Hwf. apply (Hwf p Hp).
    + apply Hled. rewrite sort_arrival_perm. exact Hp.
    + apply Hall, Hp.
Qed.

(** C3.  On a valid batch, also one in which distinct processes share their
    arrival, burst and priority, the membership test on completed rows that
    [sjf] and [priority_scheduling] use decides exactly what a test on the
    set of completed ids decides: both endpoints answer as their variants
    that track completion by id do, for every fuel.  [round_robin] keeps a
    set of ids, and [fcfs] walks the list once.  Every endpoint, given enough
    fuel (and for round robin a positive quantum), answers with a schedule
    whose order contains the id of every process of the batch. *)
Theorem C3_completion_by_id_and_every_id_dispatched (processes : list row) :
  valid_batch processes ->
  (forall fuel, (sjf fuel processes).2 = nonpreemptive_by_id 2 fuel processes)
  /\ (forall fuel,
        (priority_scheduling fuel processes).2 = nonpreemptive_by_id 3 fuel processes)
  /\ forall op, usable_quantum op ->
       exists finish order fuel0,
         (forall fuel, (fuel0 <= fuel)%nat ->
            (run op fuel processes).2 = Returns (Schedule finish order))
         /\ forall p, p ∈ processes -> pid_of p ∈ order.
Proof.
  intros Hvalid.
  split; [intros fuel; apply nonpreemptive_by_id_agrees; [lia|exact Hvalid]|].
  split; [intros fuel; apply nonpreemptive_by_id_agrees; [lia|exact Hvalid]|].
  intros op Hop.
  assert (Hnp : non_preemptive op ->
            exists finish order fuel0,
              (forall fuel, (fuel0 <= fuel)%nat ->
                 (run op fuel processes).2 = Returns (Schedule finish order))
              /\ forall p, p ∈ processes -> pid_of p ∈ order).
  { intros Hnp.
    destruct (non_preemptive_order op processes Hnp Hvalid)
      as (finish & order & fuel0 & Hperm & Hrun).
    exists finish, order, fuel0. split.
    + intros fuel Hfuel. rewrite (Hrun fuel Hfuel). reflexivity.
    + intros p Hp. rewrite Hperm. apply list_elem_of_fmap. eauto. }
  destruct op as [| | |[quantum|]]; try (apply Hnp; exact I).
  - simpl in Hop.
    destruct (rr_dispatched_all quantum processes Hop Hvalid)
      as (st & Hrun & Hord & _ & _ & Hall).
    exists (rr_finish st), (rr_order st), (S (rr_steps st)). split.
    + intros fuel Hfuel. destruct (Hrun fuel) as [_ Hrr]; [lia|].
      change (run (RunRoundRobin (Some quantum)) fuel processes)
        with (round_robin fuel processes (Some quantum)).
      rewrite Hrr. reflexivity.
    + intros p Hp. destruct (Hall p Hp) as (_ & _ & (s & Hlast & _) & _).
      apply last_Some_elem_of in Hlast.
      apply list_elem_of_filter in Hlast as [Hpid Hs].
      rewrite Hord, <- Hpid. apply list_elem_of_fmap. eauto.
  - contradiction.
Qed.

Ltac solve_valid_batch :=
  split;
  [ repeat (apply Forall_cons; split;
            [unfold wf_row, arrival_of, burst_of; simpl; lia|]);
    exact (List.Forall_nil _)
  | apply (bool_decide_unpack _); vm_compute; exact I ].

Lemma C3_witness :
  valid_batch [[1; 0; 3; 1]; [2; 0; 3; 1]]
  /\ forall fuel,
       (sjf fuel [[1; 0; 3; 1]; [2; 0; 3; 1]]).2
       = nonpreemptive_by_id 2 fuel [[1; 0; 3; 1]; [2; 0; 3; 1]].
Proof.
  assert (Hvalid : valid_batch [[1; 0; 3; 1]; [2; 0; 3; 1]]) by solve_valid_batch.
  split; [exact Hvalid|].
  apply (C3_completion_by_id_and_every_id_dispatched
           [[1; 0; 3; 1]; [2; 0; 3; 1]] Hvalid).
Defined.

(** ** C8: how many dispatch events a process gets *)

(** C8.  On a valid batch, [fcfs], [sjf] and [priority_scheduling] answer
    (given enough fuel) with an order that has one entry per record of the
    batch, exactly one of them for each process.  [round_robin] with a
    positive quantum [q] reaches a final state in which each process has had
    [ceil(burst / q)] dispatch events, its slices add up to its burst, and
    its last slice left it with no remaining burst. *)
Theorem C8_events_per_process (processes : list row) :
  valid_batch processes ->
  (forall op, non_preemptive op ->
     exists finish order fuel0,
       (forall fuel, (fuel0 <= fuel)%nat ->
          (run op fuel processes).2 = Returns (Schedule finish order))
       /\ length order = length processes
       /\ forall p, p ∈ processes -> events_of (pid_of p) order = 1%nat)
  /\ (forall quantum, 0 < quantum ->
        exists st,
          (forall fuel, (rr_steps st < fuel)%nat ->
             rr_run fuel processes quantum = Returns st
             /\ round_robin fuel processes (Some quantum)
                = (processes, Returns (Schedule (rr_finish st) (rr_order st))))
          /\ rr_order st = s_pid <$> rr_slices st
          /\ forall p, p ∈ processes ->
               Z.of_nat (events_of (pid_of p) (rr_order st))
               = ceil_div (burst_of p) quantum
               /\ executed (pid_of p) (rr_slices st) = burst_of p
               /\ exists s, last (slices_of (pid_of p) (rr_slices st)) = Some s
                            /\ s_left s = 0).
Proof.
  intros Hvalid. split.
  - intros op Hop.
    destruct (non_preemptive_order op processes Hop Hvalid)
      as (finish & order & fuel0 & Hperm & Hrun).
    exists finish, order, fuel0. split; [|split].
    + intros fuel Hfuel. rewrite (Hrun fuel Hfuel). reflexivity.
    + rewrite Hperm. apply length_fmap.
    + intros p Hp. rewrite (events_of_perm _ _ _ Hperm).
      apply events_of_NoDup; [apply Hvalid|]. apply list_elem_of_fmap. eauto.
  - intros quantum Hquantum.
    destruct (rr_dispatched_all quantum processes Hquantum Hvalid)
      as (st & Hrun & Hord & _ & _ & Hall).
    exists st. split; [exact Hrun|]. split; [exact Hord|].
    intros p Hp. destruct (Hall p Hp) as (Hev & Hex & Hlast & _). auto.
Qed.

Lemma C8_witness :
  valid_batch [[1; 0; 5; 0]; [2; 1; 3; 0]]
  /\ exists st,
       (forall fuel, (rr_steps st < fuel)%nat ->
          rr_run fuel [[1; 0; 5; 0]; [2; 1; 3; 0]] 2 = Returns st
          /\ round_robin fuel [[1; 0; 5; 0]; [2; 1; 3; 0]] (Some 2)
             = ([[1; 0; 5; 0]; [2; 1; 3; 0]],
                Returns (Schedule (rr_finish st) (rr_order st))))
       /\ Z.of_nat (events_of 1 (rr_order st)) = ceil_div 5 2.
Proof.
  assert (Hvalid : valid_batch [[1; 0; 5; 0]; [2; 1; 3; 0]]) by solve_valid_batch.
  split; [exact Hvalid|].
  destruct (C8_events_per_process [[1; 0; 5; 0]; [2; 1; 3; 0]] Hvalid)
    as [_ Hrr].
  destruct (Hrr 2 ltac:(lia)) as (st & Hrun & _ & Hall).
  exists st. split; [exact Hrun|].
  apply (Hall [1; 0; 5; 0]). left.
Defined.

(** ** C4: what the clock does while nothing is eligible *)

Lemma fold_min_head (l : list row) (a : Z) :
  foldr (fun q m => Z.min (arrival_of q) m) a l <= a.
Proof. induction l as [|x l IH]; simpl; lia. Qed.

Lemma fold_min_elem (l : list row) (a : Z) p :
  p ∈ l -> foldr (fun q m => Z.min (arrival_of q) m) a l <= arrival_of p.
Proof.
  induction l as [|x l IH]; intros Hp; [inversion Hp|].
  simpl. apply elem_of_cons in Hp as [->|Hp]; [lia|].
  specialize (IH Hp). lia.
Qed.

Lemma min_arrival_lower (l : list row) m :
  min_arrival l = Some m -> forall p, p ∈ l -> m <= arrival_of p.
Proof.
  destruct l as [|p0 l]; [discriminate|]. simpl. intros [= <-] p Hp.
  apply elem_of_cons in Hp as [->|Hp]; [apply fold_min_head|apply fold_min_elem, Hp].
Qed.

Lemma min_arrival_attained (l : list row) m :
  min_arrival l = Some m -> exists p, p ∈ l /\ arrival_of p = m.
Proof.
  destruct l as [|p0 l]; [discriminate|]. simpl. intros [= <-].
  induction l as [|x l IH]; simpl.
  - exists p0. split; [left|reflexivity].
  - destruct IH as (p & Hp & Heq).
    destruct (Z.min_spec (arrival_of x)
                (foldr (fun q m => Z.min (arrival_of q) m) (arrival_of p0) l))
      as [[_ ->]|[_ ->]].
    + exists x. split; [right; left|reflexivity].
    + exists p. split; [|exact Heq].
      apply elem_of_cons in Hp as [->|Hp]; [left|right; right; exact Hp].
Qed.

Lemma nothing_eligible_before (l completed : list row) m t :
  next_arrival l completed = Some m -> t < m ->
  filter (eligible t completed) l = [].
Proof.
  intros Hm Ht.
  destruct (filter (eligible t completed) l) as [|p av] eqn:E; [reflexivity|].
  assert (Hp : p ∈ filter (eligible t completed) l) by (rewrite E; left).
  apply list_elem_of_filter in Hp as [[Ha Hc] Hp].
  assert (Hu : p ∈ unserved l completed).
  { apply list_elem_of_filter. split; assumption. }
  pose proof (min_arrival_lower _ _ Hm p Hu). lia.
Qed.

Lemma nothing_eligible_gap (l completed : list row) m t :
  next_arrival l completed = Some m ->
  filter (eligible t completed) l = [] -> t < m.
Proof.
  intros Hm Hnone.
  destruct (min_arrival_attained _ _ Hm) as (p & Hp & <-).
  apply list_elem_of_filter in Hp as [Hc Hp].
  destruct (decide (arrival_of p <= t)) as [Ha|Ha]; [|lia].
  assert (Hin : p ∈ filter (eligible t completed) l).
  { apply list_elem_of_filter. split; [split; assumption|exact Hp]. }
  rewrite Hnone in Hin. inversion Hin.
Qed.

Lemma np_idle_run key l (k : nat) t completed order finish idles m :
  (key < 4)%nat ->
  Forall (fun p => length p = 4%nat) l ->
  next_arrival l completed = Some m ->
  t + Z.of_nat k <= m ->
  np_iter key l k (NpState t completed order finish idles)
  = Returns (NpState (t + Z.of_nat k) completed order finish (idles + k)).
Proof.
  intros Hkey Hfour Hm. revert t idles.
  induction k as [|k IH]; intros t idles Hk.
  - simpl. rewrite Z.add_0_r, Nat.add_0_r. reflexivity.
  - simpl np_iter.
    destruct (np_body_cases key l (NpState t completed order finish idles) Hkey Hfour)
      as [[_ Hbody]|(l1 & p & l2 & Hav & _)].
    + rewrite Hbody. simpl. rewrite IH by lia.
      do 2 f_equal; [lia|]. lia.
    + simpl in Hav.
      rewrite (nothing_eligible_before l completed m t Hm) in Hav by lia.
      destruct l1; discriminate Hav.
Qed.

(** C4 (as stated, refuted).  With the single record [(1, 5, 1, 0)] nothing is
    eligible at time 0 and the earliest unserved arrival is 5; one iteration
    of the loop of [sjf] (key 2) or [priority_scheduling] (key 3) leaves the
    clock at 1. *)
Lemma C4_clock_is_not_set_to_next_arrival :
  next_arrival [[1; 5; 1; 0]] [] = Some 5
  /\ np_body 2 [[1; 5; 1; 0]] np_init = Returns (NpState 1 [] [] [] 1)
  /\ np_body 3 [[1; 5; 1; 0]] np_init = Returns (NpState 1 [] [] [] 1)
  /\ (1 : Z) <> 5.
Proof. repeat split. discriminate. Qed.

(** C4 (amended).  In [sjf] and [priority_scheduling], at a state in which
    no process is eligible while the earliest arrival among the unserved
    processes is [m], one iteration adds one time unit to the clock and one
    to the idle count and changes nothing else; the clock is below [m], and
    after [m - time] such iterations it stands at [m]. *)
Theorem C4_idle_clock_advances_one_unit_at_a_time
    (key : nat) (l : list row) (st : np_state) (m : Z) :
  key = 2%nat \/ key = 3%nat ->
  Forall (fun p => length p = 4%nat) l ->
  filter (eligible (np_time st) (np_completed st)) l = [] ->
  next_arrival l (np_completed st) = Some m ->
  np_body key l st
  = Returns (NpState (np_time st + 1) (np_completed st) (np_order st)
               (np_finish st) (S (np_idles st)))
  /\ np_time st < m
  /\ np_iter key l (Z.to_nat (m - np_time st)) st
     = Returns (NpState m (np_completed st) (np_order st) (np_finish st)
                  (np_idles st + Z.to_nat (m - np_time st))).
Proof.
  intros Hkey Hfour Hnone Hm.
  assert (Hk : (key < 4)%nat) by lia.
  pose proof (nothing_eligible_gap _ _ _ _ Hm Hnone) as Hgap.
  split; [|split; [exact Hgap|]].
  - destruct (np_body_cases key l st Hk Hfour)
      as [[_ Hbody]|(l1 & p & l2 & Hav & _)]; [exact Hbody|].
    rewrite Hnone in Hav. destruct l1; discriminate Hav.
  - destruct st as [t completed order finish idles]. simpl in *.
    rewrite (np_idle_run key l _ t completed order finish idles m Hk Hfour Hm) by lia.
    do 2 f_equal. lia.
Qed.

Lemma C4_witness :
  np_iter 2 [[1; 5; 1; 0]] (Z.to_nat (5 - np_time np_init)) np_init
  = Returns (NpState 5 [] [] [] (0 + Z.to_nat (5 - np_time np_init))).
Proof.
  apply (C4_idle_clock_advances_one_unit_at_a_time 2 [[1; 5; 1; 0]] np_init 5).
  - left. reflexivity.
  - repeat constructor.
  - reflexivity.
  - reflexivity.
Defined.

(** ** C6: which process the non-preemptive loops pick *)

Lemma before_sorted (R : relation row) (l : list row) p q :
  StronglySorted R l -> before l p q -> R p q.
Proof.
  intros Hs (l1 & l2 & l3 & ->).
  apply StronglySorted_app in Hs as (_ & _ & Hs).
  apply StronglySorted_cons in Hs as [Hall _].
  rewrite Forall_forall in Hall. apply Hall.
  apply elem_of_app. right. left.
Qed.

Lemma before_filter_intro (P : row -> Prop) `{!forall x, Decision (P x)}
    (l : list row) p q :
  before l p q -> P p -> P q -> before (filter P l) p q.
Proof.
  intros (l1 & l2 & l3 & ->) Hp Hq.
  exists (filter P l1), (filter P l2), (filter P l3).
  rewrite filter_app, filter_cons, decide_True by exact Hp.
  rewrite filter_app, filter_cons, decide_True by exact Hq.
  reflexivity.
Qed.

Lemma before_sublist (l : list row) p q : before l p q <-> [p; q] `sublist_of` l.
Proof.
  split.
  - intros (l1 & l2 & l3 & ->).
    apply sublist_inserts_l, sublist_skip, sublist_inserts_l, sublist_skip,
      sublist_nil_l.
  - induction l as [|x l IH]; intros Hs.
    + apply sublist_nil_r in Hs. discriminate.
    + apply sublist_cons_r in Hs as [Hs|(k & Heq & Hs)].
      * destruct (IH Hs) as (l1 & l2 & l3 & ->). exists (x :: l1), l2, l3. reflexivity.
      * injection Heq as <- <-.
        assert (Hq : q ∈ l).
        { eapply elem_of_sublist; [|exact Hs]. left. }
        apply list_elem_of_split in Hq as (l2 & l3 & ->).
        exists [], l2, l3. reflexivity.
Qed.

Lemma before_filter_inv (P : row -> Prop) `{!forall x, Decision (P x)}
    (l : list row) p q :
  before (filter P l) p q -> before l p q.
Proof.
  rewrite !before_sublist. intros Hs.
  etransitivity; [exact Hs|]. apply sublist_filter.
Qed.

Lemma before_total (l : list row) p q :
  p ∈ l -> q ∈ l -> p <> q -> before l p q \/ before l q p.
Proof.
  intros Hp Hq Hne. apply list_elem_of_split in Hp as (l1 & l2 & ->).
  apply elem_of_app in Hq as [Hq|Hq].
  - right. apply list_elem_of_split in Hq as (l3 & l4 & ->).
    exists l3, l4, l2. rewrite <- app_assoc. reflexivity.
  - apply elem_of_cons in Hq as [->|Hq]; [contradiction|].
    left. apply list_elem_of_split in Hq as (l3 & l4 & ->).
    exists l1, l3, l4. reflexivity.
Qed.

(** Rows of equal arrival stand in the sorted batch as they stood in the
    batch the caller sent. *)
Lemma sort_arrival_keeps_order processes p q :
  before (sort_arrival processes) p q ->
  arrival_of p = arrival_of q ->
  before processes p q.
Proof.
  intros Hb Heq.
  apply (before_filter_inv (fun x => arrival_of x = arrival_of p)).
  rewrite <- sort_arrival_stable.
  apply before_filter_intro; [exact Hb|reflexivity|symmetry; exact Heq].
Qed.

Lemma selected_before_total key batch p q :
  p ∈ batch -> q ∈ batch -> p <> q ->
  selected_before key batch p q \/ selected_before key batch q p.
Proof.
  intros Hp Hq Hne. unfold selected_before.
  destruct (Z.lt_trichotomy (nth key p 0) (nth key q 0)) as [?|[Hk|?]]; [tauto| |tauto].
  destruct (Z.lt_trichotomy (arrival_of p) (arrival_of q)) as [?|[Ha|?]];
    [tauto| |right; right; split; [congruence|tauto]].
  destruct (before_total batch p q Hp Hq Hne) as [Hb|Hb].
  - left. right. tauto.
  - right. right. split; [congruence|]. right. split; [congruence|exact Hb].
Qed.

Lemma before_asym (l : list row) p q :
  NoDup l -> before l p q -> ~ before l q p.
Proof.
  intros Hnd (l1 & l2 & l3 & Hl) (m1 & m2 & m3 & Hm).
  assert (Hp1 : l !! length l1 = Some p).
  { rewrite Hl. apply list_lookup_middle. reflexivity. }
  assert (Hq1 : l !! (length l1 + S (length l2))%nat = Some q).
  { rewrite Hl, lookup_app_r by lia.
    replace (length l1 + S (length l2) - length l1)%nat with (S (length l2)) by lia.
    simpl. apply list_lookup_middle. reflexivity. }
  assert (Hq2 : l !! length m1 = Some q).
  { rewrite Hm. apply list_lookup_middle. reflexivity. }
  assert (Hp2 : l !! (length m1 + S (length m2))%nat = Some p).
  { rewrite Hm, lookup_app_r by lia.
    replace (length m1 + S (length m2) - length m1)%nat with (S (length m2)) by lia.
    simpl. apply list_lookup_middle. reflexivity. }
  pose proof (NoDup_lookup l _ _ p Hnd Hp1 Hp2).
  pose proof (NoDup_lookup l _ _ q Hnd Hq1 Hq2).
  lia.
Qed.

Lemma selected_before_asym key batch p q :
  NoDup batch -> selected_before key batch p q -> ~ selected_before key batch q p.
Proof.
  intros Hnd [H|(Hk & [H|(Ha & Hb)])] [H'|(Hk' & [H'|(Ha' & Hb')])]; try lia.
  exact (before_asym batch p q Hnd Hb Hb').
Qed.

(** C6 (as stated, refuted).  The records [(2, 0, 3, 0)] and [(1, 0, 3, 0)]
    are both eligible at time 0 with the same burst, priority and arrival.
    [sjf] and [priority_scheduling] dispatch id 2, the first in the batch,
    before id 1, the smaller id. *)
Lemma C6_tie_is_not_broken_by_id :
  np_body 2 [[2; 0; 3; 0]; [1; 0; 3; 0]] np_init
  = Returns (NpState 3 [[2; 0; 3; 0]] [2] [3] 0)
  /\ np_body 3 [[2; 0; 3; 0]; [1; 0; 3; 0]] np_init
     = Returns (NpState 3 [[2; 0; 3; 0]] [2] [3] 0)
  /\ eligible 0 [] [1; 0; 3; 0]
  /\ (sjf 3 [[2; 0; 3; 0]; [1; 0; 3; 0]]).2 = Returns (Schedule [3; 6] [2; 1])
  /\ (priority_scheduling 3 [[2; 0; 3; 0]; [1; 0; 3; 0]]).2
     = Returns (Schedule [3; 6] [2; 1])
  /\ pid_of [1; 0; 3; 0] < pid_of [2; 0; 3; 0].
Proof.
  split; [reflexivity|]. split; [reflexivity|].
  split; [split; [unfold arrival_of; simpl; lia|apply not_elem_of_nil]|].
  split; [reflexivity|]. split; [reflexivity|].
  unfold pid_of. simpl. lia.
Qed.

(** C6 (amended).  On a valid batch, whenever some process is eligible, the
    loop of [sjf] (key: burst) and of [priority_scheduling] (key: priority)
    dispatches an eligible process [p] that every other eligible process
    comes after in this order: smaller key first, then earlier arrival, then
    earlier position in the batch as the caller sent it.  That order is
    total on the batch: of two distinct records exactly one comes before the
    other. *)
Theorem C6_selection_rule (key : nat) (processes : list row) :
  key = 2%nat \/ key = 3%nat ->
  valid_batch processes ->
  (forall st,
     (exists q, q ∈ processes /\ eligible (np_time st) (np_completed st) q) ->
     exists p,
       p ∈ processes
       /\ eligible (np_time st) (np_completed st) p
       /\ np_body key (sort_arrival processes) st
          = Returns (NpState (np_time st + burst_of p) (np_completed st ++ [p])
                       (np_order st ++ [pid_of p])
                       (np_finish st ++ [np_time st + burst_of p]) (np_idles st))
       /\ forall q, q ∈ processes ->
                    eligible (np_time st) (np_completed st) q -> q <> p ->
                    selected_before key processes p q)
  /\ (forall p q, p ∈ processes -> q ∈ processes -> p <> q ->
        selected_before key processes p q \/ selected_before key processes q p)
  /\ (forall p q, selected_before key processes p q ->
                  ~ selected_before key processes q p).
Proof.
  intros Hkey Hvalid.
  assert (Hk : (key < 4)%nat) by lia.
  pose proof (sort_arrival_perm processes) as Hperm.
  split; [|split].
  - intros st (q0 & Hq0 & Hel0).
    assert (Hfour : Forall (fun p => length p = 4%nat) (sort_arrival processes)).
    { rewrite Hperm. apply valid_batch_four, Hvalid. }
    destruct (np_body_cases key (sort_arrival processes) st Hk Hfour)
      as [[Hnone _]|(l1 & p & l2 & Hav & H1 & H2 & Hbody)].
    { assert (Hin : q0 ∈ filter (eligible (np_time st) (np_completed st))
                          (sort_arrival processes)).
      { apply list_elem_of_filter. rewrite Hperm. split; assumption. }
      rewrite Hnone in Hin. inversion Hin. }
    assert (Hp : p ∈ filter (eligible (np_time st) (np_completed st))
                     (sort_arrival processes)).
    { rewrite Hav. apply elem_of_app. right. left. }
    apply list_elem_of_filter in Hp as [Hel Hp]. rewrite Hperm in Hp.
    exists p. split; [exact Hp|]. split; [exact Hel|]. split; [exact Hbody|].
    intros q Hq Helq Hne.
    assert (Hin : q ∈ l1 ++ p :: l2).
    { rewrite <- Hav. apply list_elem_of_filter. rewrite Hperm. split; assumption. }
    rewrite Forall_forall in H1, H2.
    apply elem_of_app in Hin as [Hin|Hin]; [left; apply H1, Hin|].
    apply elem_of_cons in Hin as [->|Hin]; [contradiction|].
    specialize (H2 q Hin).
    destruct (decide (nth key p 0 = nth key q 0)) as [Heq|Hneq];
      [|left; lia].
    right. split; [exact Heq|].
    assert (Hb : before (sort_arrival processes) p q).
    { apply (before_filter_inv (eligible (np_time st) (np_completed st))).
      rewrite Hav. apply list_elem_of_split in Hin as (l3 & l4 & ->).
      exists l1, l3, l4. reflexivity. }
    pose proof (before_sorted arrival_le _ p q (sort_arrival_sorted processes) Hb)
      as Hle.
    unfold arrival_le in Hle.
    destruct (decide (arrival_of p = arrival_of q)) as [Ha|Ha]; [|left; lia].
    right. split; [exact Ha|]. apply sort_arrival_keeps_order; assumption.
  - intros p q. apply selected_before_total.
  - intros p q. apply selected_before_asym, valid_batch_NoDup, Hvalid.
Qed.

Lemma C6_witness :
  exists p,
    p ∈ [[2; 0; 3; 0]; [1; 0; 3; 0]]
    /\ eligible (np_time np_init) (np_completed np_init) p
    /\ np_body 2 (sort_arrival [[2; 0; 3; 0]; [1; 0; 3; 0]]) np_init
       = Returns (NpState (np_time np_init + burst_of p) (np_completed np_init ++ [p])
                    (np_order np_init ++ [pid_of p])
                    (np_finish np_init ++ [np_time np_init + burst_of p])
                    (np_idles np_init))
    /\ forall q, q ∈ [[2; 0; 3; 0]; [1; 0; 3; 0]] ->
                 eligible (np_time np_init) (np_completed np_init) q -> q <> p ->
                 selected_before 2 [[2; 0; 3; 0]; [1; 0; 3; 0]] p q.
Proof.
  assert (Hvalid : valid_batch [[2; 0; 3; 0]; [1; 0; 3; 0]]) by solve_valid_batch.
  apply (C6_selection_rule 2 [[2; 0; 3; 0]; [1; 0; 3; 0]] (or_introl eq_refl) Hvalid).
  exists [1; 0; 3; 0]. split; [right; left|].
  split; [unfold arrival_of; simpl; lia|apply not_elem_of_nil].
Defined.

(** ** C7: where a preempted process re-enters the queue *)

Lemma rr_reachable_inv quantum l st0 st :
  0 < quantum ->
  valid_batch l ->
  rr_inv quantum l st0 ->
  rr_reachable quantum l (length l) st0 st ->
  rr_inv quantum l st.
Proof.
  intros Hquantum Hvalid Hinit. induction 1 as [|st st' _ IH Hlt Hbody]; [exact Hinit|].
  destruct (rr_body_step quantum l st Hquantum Hvalid IH Hlt) as (st1 & Hbody1 & Hinv1 & _).
  rewrite Hbody in Hbody1. injection Hbody1 as ->. exact Hinv1.
Qed.

(** C7.  In a run of [round_robin] on a valid batch with a positive quantum,
    take any iteration that dispatches a process [c] and leaves it with
    remaining burst.  The queue it leaves behind ends with [c], [c] occurs
    nowhere else in it, and every process whose arrival lies in the slice
    just executed (after the clock value before the slice, up to the clock
    value after it) stands in the queue ahead of [c]. *)
Theorem C7_requeue_behind_new_arrivals
    (quantum : Z) (processes : list row) (d : gmap Z pentry)
    (st st' : rr_state) (c : Z) :
  0 < quantum ->
  valid_batch processes ->
  build_dict processes ∅ = Returns d ->
  rr_reachable quantum (sort_arrival processes) (length processes) (rr_init d) st ->
  rr_body quantum (sort_arrival processes) st = Returns st' ->
  rr_order st' = rr_order st ++ [c] ->
  0 < left_of (rr_dict st') c ->
  exists front,
    rr_queue st' = front ++ [c]
    /\ (c ∉ front)
    /\ forall p, p ∈ processes ->
                 rr_time st < arrival_of p <= rr_time st' ->
                 pid_of p ∈ front.
Proof.
  intros Hquantum Hvalid Hdict Hreach Hbody Horder Hleft.
  pose proof (sort_arrival_perm processes) as Hperm.
  set (l := sort_arrival processes) in *.
  assert (Hvalid' : valid_batch l).
  { eapply valid_batch_perm; [|exact Hvalid]. symmetry. exact Hperm. }
  assert (Hids : NoDup (pid_of <$> l)) by apply Hvalid'.
  assert (Hinv : rr_inv quantum l st).
  { apply (rr_reachable_inv quantum l (rr_init d)); try assumption.
    - apply rr_init_inv; [exact Hquantum|exact Hvalid'|].
      rewrite build_dict_pure in Hdict by apply valid_batch_four, Hvalid.
      injection Hdict as <-. intros p Hp. rewrite Hperm in Hp.
      apply foldl_insert_lookup; [apply Hvalid|exact Hp].
    - rewrite (Permutation_length Hperm). exact Hreach. }
  destruct (rr_body_cases quantum l st Hvalid')
    as [[_ Hidle]|(p & r & queue & Hp & Hq1 & Hlook & Hdisp)].
  { intros p Hp. destruct Hinv as (Hled & _).
    destruct (Hled p Hp) as (r & Hd & _). eauto. }
  { intros x Hx. destruct Hinv as (_ & _ & Hq & _). apply Hq, Hx. }
  { rewrite Hidle in Hbody. injection Hbody as <-. simpl in Horder.
    apply (f_equal length) in Horder. rewrite length_app in Horder.
    simpl in Horder. lia. }
  destruct (rr_dispatch_step quantum l st p r queue Hquantum Hvalid' Hinv Hp Hq1 Hlook)
    as ((_ & Hnd' & _) & _).
  rewrite Hdisp in Hbody. injection Hbody as <-.
  unfold rr_after_dispatch in *. simpl in *.
  apply app_inj_tail in Horder as [_ <-].
  rewrite left_of_insert_same in Hleft. simpl in Hleft.
  apply Z.ltb_lt in Hleft. rewrite Hleft in *.
  eexists. split; [reflexivity|].
  apply NoDup_app in Hnd' as (_ & Hfresh & _).
  split.
  { intros Hin. apply (Hfresh _ Hin). left. }
  intros p' Hp' [Hlo Hhi]. rewrite <- Hperm in Hp'.
  destruct Hinv as (_ & _ & _ & _ & Harr & _).
  (* the dispatched process had arrived before the slice began *)
  assert (Hparr : arrival_of p <= rr_time st).
  { assert (Hin : pid_of p ∈ pid_of p :: queue) by left.
    rewrite <- Hq1 in Hin. apply elem_of_app in Hin as [Hin|Hin].
    - apply Harr; [exact Hp|left; exact Hin].
    - apply enqueued_elem in Hin as (p0 & Hp0 & Heq & (Ha & _)).
      rewrite <- (pid_of_inj l p0 p Hids Hp0 Hp Heq). exact Ha. }
  destruct (decide (pid_of p' ∈ queue)) as [Hq|Hq];
    [apply elem_of_app; left; exact Hq|].
  apply elem_of_app. right. apply list_elem_of_fmap. exists p'. split; [reflexivity|].
  apply list_elem_of_filter. split; [|exact Hp'].
  repeat split.
  - exact Hhi.
  - intros Hc. specialize (Harr p' Hp' (or_intror Hc)). lia.
  - exact Hq.
  - intros [= Heq]. rewrite (pid_of_inj l p p' Hids Hp Hp' Heq) in Hparr. lia.
Qed.

Lemma C7_witness :
  exists front,
    rr_queue scenario_D_first = front ++ [1]
    /\ (1 ∉ front)
    /\ forall p, p ∈ scenario_D ->
                 rr_time (rr_init scenario_D_dict) < arrival_of p
                 <= rr_time scenario_D_first ->
                 pid_of p ∈ front.
Proof.
  apply (C7_requeue_behind_new_arrivals 2 scenario_D scenario_D_dict
           (rr_init scenario_D_dict) scenario_D_first 1).
  - lia.
  - unfold scenario_D. solve_valid_batch.
  - vm_compute. reflexivity.
  - apply rr_reach_start.
  - vm_compute. reflexivity.
  - reflexivity.
  - vm_compute. reflexivity.
Defined.

(** ** Termination on a valid batch, the quantum being positive *)

Lemma np_body_steps key l st st' :
  np_body key l st = Returns st' -> np_steps st' = S (np_steps st).
Proof.
  unfold np_body, np_steps. intros H. inv_bind H.
  destruct a as [|p0 av].
  - injection H as <-. simpl. lia.
  - inv_bind H. inv_bind H. inv_bind H. injection H as <-. simpl.
    rewrite length_app. simpl. lia.
Qed.

Lemma rr_body_steps quantum l st st' :
  rr_body quantum l st = Returns st' -> rr_steps st' = S (rr_steps st).
Proof.
  unfold rr_body, rr_steps. intros H. inv_bind H.
  destruct a as [|c q].
  - injection H as <-. simpl. lia.
  - inv_bind H. inv_bind H. apply bind_Returns in H as (e' & _ & H).
    destruct (0 <? remaining e'); injection H as <-; simpl;
      rewrite length_app; simpl; lia.
Qed.

(** A loop that returns has used one unit of fuel per iteration and one for
    the last evaluation of its condition. *)
Lemma np_loop_needs_fuel key l n fuel st st' :
  np_loop key l fuel n st = Returns st' ->
  (np_steps st <= np_steps st' /\ np_steps st' - np_steps st < fuel)%nat.
Proof.
  revert st. induction fuel as [|fuel IH]; intros st H; [discriminate|].
  rewrite np_loop_S in H. destruct (length (np_completed st) <? n)%nat.
  - inv_bind H. apply np_body_steps in E. apply IH in H. lia.
  - injection H as <-. lia.
Qed.

Lemma rr_loop_needs_fuel quantum l n fuel st st' :
  rr_loop quantum l n fuel st = Returns st' ->
  (rr_steps st <= rr_steps st' /\ rr_steps st' - rr_steps st < fuel)%nat.
Proof.
  revert st. induction fuel as [|fuel IH]; intros st H; [discriminate|].
  rewrite rr_loop_S in H. destruct (size (rr_completed st) <? n)%nat.
  - inv_bind H. apply rr_body_steps in E. apply IH in H. lia.
  - injection H as <-. lia.
Qed.

(** More fuel does not change what a loop returns. *)
Lemma np_loop_more_fuel key l n fuel extra st st' :
  np_loop key l fuel n st = Returns st' ->
  np_loop key l (fuel + extra) n st = Returns st'.
Proof.
  revert st. induction fuel as [|fuel IH]; intros st H; [discriminate|].
  change (S fuel + extra)%nat with (S (fuel + extra)).
  rewrite np_loop_S in *. destruct (length (np_completed st) <? n)%nat.
  - inv_bind H. rewrite E. simpl. apply IH, H.
  - exact H.
Qed.

Lemma rr_loop_more_fuel quantum l n fuel extra st st' :
  rr_loop quantum l n fuel st = Returns st' ->
  rr_loop quantum l n (fuel + extra) st = Returns st'.
Proof.
  revert st. induction fuel as [|fuel IH]; intros st H; [discriminate|].
  change (S fuel + extra)%nat with (S (fuel + extra)).
  rewrite rr_loop_S in *. destruct (size (rr_completed st) <? n)%nat.
  - inv_bind H. rewrite E. simpl. apply IH, H.
  - exact H.
Qed.

Lemma rr_run_more_fuel fuel extra processes quantum st :
  rr_run fuel processes quantum = Returns st ->
  rr_run (fuel + extra) processes quantum = Returns st.
Proof.
  unfold rr_run. intros H. inv_bind H. inv_bind H. rewrite E, E0. simpl.
  apply rr_loop_more_fuel, H.
Qed.

Lemma rr_run_needs_fuel fuel processes quantum st :
  rr_run fuel processes quantum = Returns st -> (rr_steps st < fuel)%nat.
Proof.
  unfold rr_run. intros H. inv_bind H. inv_bind H.
  apply rr_loop_needs_fuel in H.
  change (rr_steps (rr_init a)) with 0%nat in H. lia.
Qed.

Lemma nonpreemptive_terminates key processes :
  (key < 4)%nat ->
  valid_batch processes ->
  exists st,
    (forall fuel, (np_steps st < fuel)%nat ->
       np_loop key (sort_arrival processes) fuel
         (length (sort_arrival processes)) np_init = Returns st
       /\ nonpreemptive key fuel processes
          = (sort_arrival processes,
             Returns (Schedule (np_finish st) (np_order st))))
    /\ (forall fuel st',
          np_loop key (sort_arrival processes) fuel
            (length (sort_arrival processes)) np_init = Returns st' ->
          st' = st /\ (np_steps st < fuel)%nat)
    /\ Z.of_nat (np_steps st) <= total_burst processes + Z.of_nat (np_idles st)
    /\ Z.of_nat (np_idles st) <= max_arrival processes.
Proof.
  intros Hkey Hvalid.
  destruct (nonpreemptive_runs key processes Hkey Hvalid)
    as (st & Hrun & Hinv & Hperm).
  exists st. split; [exact Hrun|]. split.
  - intros fuel st' Hret.
    assert (Heq : st' = st).
    { apply (np_loop_more_fuel _ _ _ _ (S (np_steps st))) in Hret.
      destruct (Hrun (fuel + S (np_steps st))%nat) as [Hst _]; [lia|].
      congruence. }
    split; [exact Heq|]. subst st'.
    apply np_loop_needs_fuel in Hret.
    change (np_steps np_init) with 0%nat in Hret. lia.
  - destruct Hinv as (_ & _ & Hord & _ & Hidle).
    pose proof (total_burst_length processes Hvalid) as Hburst.
    rewrite (max_arrival_perm _ _ (sort_arrival_perm processes)) in Hidle.
    unfold np_steps. rewrite Hord, length_fmap, (Permutation_length Hperm).
    split; lia.
Qed.

(** Termination where the quantum is positive.  On a valid batch every
    endpoint terminates and answers with a schedule, never with an exception.  [fcfs] iterates once per record.  The
    loops of [sjf], [priority_scheduling] and [round_robin] (quantum
    positive) reach one final state [st]: they return it for every fuel above
    the number of iterations [st] has behind it, dispatches plus idle steps,
    and for no smaller fuel.  That number is at most the sum of the bursts
    plus the idle steps taken, and the idle steps are at most the latest
    arrival. *)
Lemma runs_terminate_with_positive_quantum (processes : list row) :
  valid_batch processes ->
  (exists finish order,
      fcfs processes = (sort_arrival processes, Returns (Schedule finish order))
      /\ Z.of_nat (length order) <= total_burst processes)
  /\ (exists st,
        (forall fuel, (np_steps st < fuel)%nat ->
           np_loop 2 (sort_arrival processes) fuel
             (length (sort_arrival processes)) np_init = Returns st
           /\ sjf fuel processes
              = (sort_arrival processes,
                 Returns (Schedule (np_finish st) (np_order st))))
        /\ (forall fuel st',
              np_loop 2 (sort_arrival processes) fuel
                (length (sort_arrival processes)) np_init = Returns st' ->
              st' = st /\ (np_steps st < fuel)%nat)
        /\ Z.of_nat (np_steps st) <= total_burst processes + Z.of_nat (np_idles st)
        /\ Z.of_nat (np_idles st) <= max_arrival processes)
  /\ (exists st,
        (forall fuel, (np_steps st < fuel)%nat ->
           np_loop 3 (sort_arrival processes) fuel
             (length (sort_arrival processes)) np_init = Returns st
           /\ priority_scheduling fuel processes
              = (sort_arrival processes,
                 Returns (Schedule (np_finish st) (np_order st))))
        /\ (forall fuel st',
              np_loop 3 (sort_arrival processes) fuel
                (length (sort_arrival processes)) np_init = Returns st' ->
              st' = st /\ (np_steps st < fuel)%nat)
        /\ Z.of_nat (np_steps st) <= total_burst processes + Z.of_nat (np_idles st)
        /\ Z.of_nat (np_idles st) <= max_arrival processes)
  /\ (forall quantum, 0 < quantum ->
        exists st,
          (forall fuel, (rr_steps st < fuel)%nat ->
             rr_run fuel processes quantum = Returns st
             /\ round_robin fuel processes (Some quantum)
                = (processes, Returns (Schedule (rr_finish st) (rr_order st))))
          /\ (forall fuel st',
                rr_run fuel processes quantum = Returns st' ->
                st' = st /\ (rr_steps st < fuel)%nat)
          /\ Z.of_nat (rr_steps st) <= total_burst processes + Z.of_nat (rr_idles st)
          /\ Z.of_nat (rr_idles st) <= max_arrival processes).
Proof.
  intros Hvalid. split; [|split; [|split]].
  - destruct (fcfs_runs processes Hvalid) as (finish & Hrun & _).
    exists finish, (pid_of <$> sort_arrival processes). split; [exact Hrun|].
    rewrite length_fmap, (Permutation_length (sort_arrival_perm processes)).
    apply total_burst_length, Hvalid.
  - apply nonpreemptive_terminates; [lia|exact Hvalid].
  - apply nonpreemptive_terminates; [lia|exact Hvalid].
  - intros quantum Hquantum.
    destruct (rr_dispatched_all quantum processes Hquantum Hvalid)
      as (st & Hrun & _ & Hwork & Hidle & _).
    exists st. split; [exact Hrun|]. split; [|unfold rr_steps; split; lia].
    intros fuel st' Hret.
    assert (Heq : st' = st).
    { apply (rr_run_more_fuel _ (S (rr_steps st))) in Hret.
      destruct (Hrun (fuel + S (rr_steps st))%nat) as [Hst _]; [lia|].
      congruence. }
    split; [exact Heq|]. subst st'. exact (rr_run_needs_fuel _ _ _ _ Hret).
Qed.

Lemma runs_terminate_with_positive_quantum_witness :
  valid_batch [[1; 0; 8; 0]; [2; 1; 4; 0]; [3; 2; 9; 0]]
  /\ exists finish order,
       fcfs [[1; 0; 8; 0]; [2; 1; 4; 0]; [3; 2; 9; 0]]
       = (sort_arrival [[1; 0; 8; 0]; [2; 1; 4; 0]; [3; 2; 9; 0]],
          Returns (Schedule finish order))
       /\ Z.of_nat (length order)
          <= total_burst [[1; 0; 8; 0]; [2; 1; 4; 0]; [3; 2; 9; 0]].
Proof.
  assert (Hvalid : valid_batch [[1; 0; 8; 0]; [2; 1; 4; 0]; [3; 2; 9; 0]])
    by solve_valid_batch.
  split; [exact Hvalid|].
  apply (runs_terminate_with_positive_quantum [[1; 0; 8; 0]; [2; 1; 4; 0]; [3; 2; 9; 0]] Hvalid).
Defined.

(** ** A quantum that is not positive: the loop never ends *)

Lemma rr_stuck_step quantum l st :
  quantum <= 0 ->
  valid_batch l ->
  rr_stuck l st ->
  exists st', rr_body quantum l st = Returns st' /\ rr_stuck l st'.
Proof.
  intros Hquantum Hvalid (Hd & Hleft & Hc & Hq).
  assert (Hids : NoDup (pid_of <$> l)) by apply Hvalid.
  destruct (rr_body_cases quantum l st Hvalid Hd Hq)
    as [[_ Hbody]|(p & r & queue & Hp & Hq1 & Hlook & Hbody)].
  - exists (rr_after_idle st). split; [exact Hbody|].
    unfold rr_stuck, rr_after_idle. simpl.
    repeat split; try assumption. intros x Hx. inversion Hx.
  - exists (rr_after_dispatch quantum l st p r queue). split; [exact Hbody|].
    assert (Hr : 0 < r).
    { specialize (Hleft p Hp). unfold left_of in Hleft.
      rewrite Hlook in Hleft. exact Hleft. }
    assert (Hrest : 0 < r - Z.min quantum r) by lia.
    assert (Hq1' : forall x, x ∈ pid_of p :: queue -> x ∈ pid_of <$> l).
    { intros x Hx. rewrite <- Hq1 in Hx. apply elem_of_app in Hx as [Hx|Hx].
      - apply Hq, Hx.
      - apply enqueued_elem in Hx as (p0 & Hp0 & <- & _).
        apply list_elem_of_fmap. eauto. }
    unfold rr_stuck, rr_after_dispatch. simpl.
    apply Z.ltb_lt in Hrest. rewrite Hrest. apply Z.ltb_lt in Hrest.
    split; [apply dict_ok_insert; assumption|].
    split; [|split; [exact Hc|]].
    + intros p' Hp'. destruct (decide (pid_of p = pid_of p')) as [Heq|Hne].
      * rewrite <- Heq, left_of_insert_same. exact Hrest.
      * rewrite left_of_insert_other by exact Hne. apply Hleft, Hp'.
    + intros x Hx. apply elem_of_app in Hx as [Hx|Hx].
      * apply elem_of_app in Hx as [Hx|Hx].
        -- apply Hq1'. right. exact Hx.
        -- apply enqueued_elem in Hx as (p0 & Hp0 & <- & _).
           apply list_elem_of_fmap. eauto.
      * apply list_elem_of_singleton in Hx. subst x. apply Hq1'. left.
Qed.

Lemma rr_stuck_loop quantum l fuel st :
  quantum <= 0 ->
  valid_batch l ->
  l <> [] ->
  rr_stuck l st ->
  rr_loop quantum l (length l) fuel st = OutOfFuel.
Proof.
  intros Hquantum Hvalid Hne. revert st.
  induction fuel as [|fuel IH]; intros st Hst; [reflexivity|].
  rewrite rr_loop_S.
  assert (Hguard : (size (rr_completed st) <? length l)%nat = true).
  { destruct Hst as (_ & _ & -> & _). rewrite size_empty.
    apply Nat.ltb_lt. destruct l; [contradiction|simpl; lia]. }
  rewrite Hguard.
  destruct (rr_stuck_step quantum l st Hquantum Hvalid Hst) as (st' & -> & Hst').
  simpl. apply IH, Hst'.
Qed.

(** With a quantum that is present but not positive, [round_robin] on a
    valid batch that is not empty neither reports an error nor returns: the
    loop is still running whatever the fuel. *)
Lemma round_robin_nonpositive_quantum_diverges fuel processes quantum :
  quantum <= 0 ->
  valid_batch processes ->
  processes <> [] ->
  (round_robin fuel processes (Some quantum)).2 = OutOfFuel.
Proof.
  intros Hquantum Hvalid Hne.
  pose proof (sort_arrival_perm processes) as Hperm.
  assert (Hvalid' : valid_batch (sort_arrival processes)).
  { eapply valid_batch_perm; [|exact Hvalid]. symmetry. exact Hperm. }
  unfold round_robin, rr_run. simpl.
  rewrite build_dict_pure by apply valid_batch_four, Hvalid.
  rewrite sorted_by_arrival_ok by apply valid_batch_has_arrival, Hvalid.
  simpl. rewrite <- (Permutation_length Hperm).
  rewrite rr_stuck_loop; try assumption; [reflexivity| |].
  - intros Hnil. apply Hne. apply Permutation_nil_r. rewrite <- Hnil.
    symmetry. exact Hperm.
  - assert (Hlook : forall p, p ∈ sort_arrival processes ->
              foldl (fun d p => <[pid_of p := entry_of p (burst_of p)]> d)
                (∅ : gmap Z pentry) processes !! pid_of p
              = Some (entry_of p (burst_of p))).
    { intros p Hp. rewrite Hperm in Hp.
      apply foldl_insert_lookup; [apply Hvalid|exact Hp]. }
    unfold rr_stuck, rr_init. simpl.
    split; [intros p Hp; eauto|]. split; [|split; [reflexivity|]].
    + intros p Hp. unfold left_of. rewrite (Hlook p Hp). simpl.
      destruct Hvalid' as [Hwf _]. rewrite Forall_forall in Hwf. apply (Hwf p Hp).
    + intros x Hx. inversion Hx.
Qed.

(** C9 (defect).  [round_robin] accepts every quantum that is present, and
    for an accepted quantum that is zero or negative it does not terminate.
    The batch [(1, 0, 5, 0)] is well-formed; with quantum 0 the run is still
    in its loop whatever the fuel: no schedule, no error, no exception.  The
    same holds for every well-formed batch that is not empty and every
    quantum that is not positive. *)
Theorem C9_accepted_quantum_without_termination :
  valid_batch [[1; 0; 5; 0]]
  /\ (forall fuel, round_robin fuel [[1; 0; 5; 0]] (Some 0) = ([[1; 0; 5; 0]], OutOfFuel))
  /\ (forall fuel processes quantum,
         quantum <= 0 ->
         valid_batch processes ->
         processes <> [] ->
         round_robin fuel processes (Some quantum) = (processes, OutOfFuel)).
Proof.
  assert (Hgen : forall fuel processes quantum,
            quantum <= 0 ->
            valid_batch processes ->
            processes <> [] ->
            round_robin fuel processes (Some quantum) = (processes, OutOfFuel)).
  { intros fuel processes quantum Hquantum Hvalid Hne.
    pose proof (round_robin_nonpositive_quantum_diverges fuel processes quantum
                  Hquantum Hvalid Hne) as Hout.
    unfold round_robin in Hout |- *. simpl in Hout |- *.
    rewrite Hout. reflexivity. }
  assert (Hvalid : valid_batch [[1; 0; 5; 0]]) by solve_valid_batch.
  split; [exact Hvalid|]. split; [|exact Hgen].
  intros fuel. apply Hgen; [lia|exact Hvalid|discriminate].
Qed.

Lemma C9_witness :
  round_robin 12 [[1; 0; 5; 0]; [2; 1; 3; 0]] (Some (-3))
  = ([[1; 0; 5; 0]; [2; 1; 3; 0]], OutOfFuel).
Proof.
  apply (proj2 (proj2 C9_accepted_quantum_without_termination)
           12%nat [[1; 0; 5; 0]; [2; 1; 3; 0]] (-3)).
  - lia.
  - solve_valid_batch.
  - discriminate.
Defined.

(** ** What [fcfs] answers on an arbitrary batch *)

Lemma unpack4_wrong_length (p : row) :
  ~ four_fields p -> unpack4 p = Raises ValueError.
Proof.
  unfold four_fields. intros H.
  destruct p as [|a [|b [|c [|d [|e p]]]]]; try reflexivity.
  destruct H. reflexivity.
Qed.

Lemma fcfs_loop_wrong_length l st :
  ~ Forall four_fields l -> fcfs_loop l st = Raises ValueError.
Proof.
  revert st. induction l as [|p l IH]; intros st Hn.
  - destruct Hn. constructor.
  - simpl. destruct (decide (four_fields p)) as [Hp|Hp].
    + unfold four_fields in Hp.
      destruct p as [|a [|b [|c [|d [|e p]]]]]; try discriminate Hp.
      simpl. apply IH. intros Hall. apply Hn. constructor; assumption.
    + rewrite unpack4_wrong_length by exact Hp. reflexivity.
Qed.

(** The three ways a call of [fcfs] can end.  A row without an arrival makes
    the sort raise [IndexError] before the batch is touched.  Otherwise the
    batch is sorted in place, and a row that has not exactly four items then
    makes the unpacking raise [ValueError], with the caller's batch left
    sorted.  On rows of four items, whatever their values, [fcfs] answers
    with one finish time and one order entry per record, in the order of the
    sorted batch. *)
Theorem fcfs_outcomes (processes : list row) :
  (~ Forall has_arrival processes ->
   fcfs processes = (processes, Raises IndexError))
  /\ (Forall has_arrival processes -> ~ Forall four_fields processes ->
      fcfs processes = (sort_arrival processes, Raises ValueError))
  /\ (Forall four_fields processes ->
      exists finish,
        fcfs processes
        = (sort_arrival processes,
           Returns (Schedule finish (pid_of <$> sort_arrival processes)))
        /\ length finish = length processes).
Proof.
  split; [|split].
  - intros Hshort. unfold fcfs.
    rewrite sorted_by_arrival_short by exact Hshort. reflexivity.
  - intros Harr Hwrong. unfold fcfs.
    rewrite sorted_by_arrival_ok by exact Harr.
    rewrite fcfs_loop_wrong_length; [reflexivity|].
    rewrite sort_arrival_perm. exact Hwrong.
  - intros Hfour. unfold fcfs.
    rewrite sorted_by_arrival_ok.
    2:{ eapply Forall_impl; [exact Hfour|].
        unfold four_fields, has_arrival. intros p Hp. lia. }
    destruct (fcfs_loop_four (sort_arrival processes) fcfs_init)
      as (st & Hloop & Ho & Hf).
    { rewrite sort_arrival_perm. exact Hfour. }
    exists (f_finish st). rewrite Hloop. simpl in *. rewrite Ho.
    split; [reflexivity|].
    rewrite Hf. apply Permutation_length, sort_arrival_perm.
Qed.

Lemma fcfs_outcomes_witness :
  fcfs [[1; 5; 1; 0; 9]; [2; 0; 1]]
  = (sort_arrival [[1; 5; 1; 0; 9]; [2; 0; 1]], Raises ValueError).
Proof.
  apply (fcfs_outcomes [[1; 5; 1; 0; 9]; [2; 0; 1]]).
  - repeat constructor; unfold has_arrival; simpl; lia.
  - intros H. apply Forall_cons in H as [H _]. discriminate H.
Defined.

(** ** [sjf] and [priority_scheduling] on an arbitrary batch *)

Lemma map_o_keyed_missing (k : nat) (l : list row) :
  ~ Forall (has_fields (S k)) l -> map_o (keyed k) l = Raises IndexError.
Proof.
  induction l as [|p l IH]; intros Hn.
  - destruct Hn. constructor.
  - simpl. unfold keyed at 1.
    destruct (decide (has_fields (S k) p)) as [Hp|Hp]; unfold has_fields in Hp.
    + rewrite item_nth by lia. simpl. rewrite IH; [reflexivity|].
      intros Hall. apply Hn. constructor; assumption.
    + rewrite item_short by lia. reflexivity.
Qed.

Lemma np_readable_arrival key l :
  Forall (np_readable key) l -> Forall has_arrival l.
Proof.
  intros H. eapply Forall_impl; [exact H|].
  unfold np_readable, has_fields, has_arrival. intros p Hp. lia.
Qed.

(** The two branches of the loop body, on rows it can read. *)
Lemma np_body_readable key l st :
  Forall (np_readable key) l ->
  (filter (eligible (np_time st) (np_completed st)) l = []
   /\ np_body key l st
      = Returns (NpState (np_time st + 1) (np_completed st) (np_order st)
                   (np_finish st) (S (np_idles st))))
  \/ (exists l1 p l2,
         filter (eligible (np_time st) (np_completed st)) l = l1 ++ p :: l2
         /\ Forall (fun q => nth key p 0 < nth key q 0) l1
         /\ Forall (fun q => nth key p 0 <= nth key q 0) l2
         /\ np_body key l st
            = Returns (NpState (np_time st + burst_of p) (np_completed st ++ [p])
                         (np_order st ++ [pid_of p])
                         (np_finish st ++ [np_time st + burst_of p])
                         (np_idles st))).
Proof.
  intros Hall. unfold np_body.
  rewrite np_available_pure by (eapply np_readable_arrival; exact Hall).
  simpl.
  destruct (filter (eligible (np_time st) (np_completed st)) l) as [|p0 av] eqn:Eav.
  - left. split; reflexivity.
  - right.
    assert (Hsub : Forall (np_readable key) (p0 :: av)).
    { rewrite Forall_forall in Hall. rewrite Forall_forall. intros p Hp.
      apply Hall. rewrite <- Eav in Hp.
      apply list_elem_of_filter in Hp as [_ Hp]. exact Hp. }
    destruct (min_by_first key (p0 :: av)) as (l1 & p & l2 & Heq & Hmin & H1 & H2).
    { discriminate. }
    { eapply Forall_impl; [exact Hsub|]. unfold np_readable, has_fields.
      intros q Hq. lia. }
    exists l1, p, l2. repeat split; try assumption.
    rewrite Hmin. simpl.
    assert (Hp : np_readable key p).
    { rewrite Forall_forall in Hsub. apply Hsub. rewrite Heq.
      apply elem_of_app. right. left. }
    unfold np_readable, has_fields in Hp.
    rewrite !item_nth by lia. reflexivity.
Qed.

Lemma np_body_part key l st :
  Forall (np_readable key) l ->
  np_part l st ->
  exists st', np_body key l st = Returns st' /\ np_part l st'.
Proof.
  intros Hall [Hnd Hsub].
  destruct (np_body_readable key l st Hall)
    as [[_ Hbody]|(l1 & p & l2 & Hav & _ & _ & Hbody)];
    eexists; (split; [exact Hbody|]); unfold np_part; simpl.
  - split; assumption.
  - assert (Hp : p ∈ filter (eligible (np_time st) (np_completed st)) l).
    { rewrite Hav. apply elem_of_app. right. left. }
    apply list_elem_of_filter in Hp as [[_ Hc] Hp]. split.
    + apply NoDup_app. repeat split; [exact Hnd| |apply NoDup_singleton].
      intros q Hq Hq'. apply list_elem_of_singleton in Hq'. subst q. contradiction.
    + intros q Hq. apply elem_of_app in Hq as [Hq|Hq]; [apply Hsub, Hq|].
      apply list_elem_of_singleton in Hq. subst q. exact Hp.
Qed.

Lemma np_loop_never_raises key l n fuel st e :
  Forall (np_readable key) l ->
  np_part l st ->
  np_loop key l fuel n st <> Raises e.
Proof.
  intros Hall. revert st. induction fuel as [|fuel IH]; intros st Hst; [discriminate|].
  rewrite np_loop_S. destruct (length (np_completed st) <? n)%nat; [|discriminate].
  destruct (np_body_part key l st Hall Hst) as (st' & -> & Hst').
  simpl. apply IH, Hst'.
Qed.

Lemma np_part_init l : np_part l np_init.
Proof. split; [constructor|apply list_subseteq_nil]. Qed.

Lemma part_of_duplicates (l c : list row) :
  ~ NoDup l -> NoDup c -> c ⊆ l -> (length c < length l)%nat.
Proof.
  intros Hdup Hnd Hsub.
  pose proof (NoDup_submseteq c l Hnd Hsub) as Hms.
  pose proof (submseteq_length _ _ Hms) as Hle.
  destruct (decide (length c = length l)) as [Heq|Hne]; [|lia].
  destruct Hdup. rewrite <- (submseteq_length_Permutation c l Hms); [exact Hnd|lia].
Qed.

Lemma np_loop_duplicates key l fuel st :
  Forall (np_readable key) l ->
  ~ NoDup l ->
  np_part l st ->
  np_loop key l fuel (length l) st = OutOfFuel.
Proof.
  intros Hall Hdup. revert st.
  induction fuel as [|fuel IH]; intros st Hst; [reflexivity|].
  rewrite np_loop_S.
  pose proof (part_of_duplicates l (np_completed st) Hdup (proj1 Hst) (proj2 Hst)) as Hlt.
  apply Nat.ltb_lt in Hlt. rewrite Hlt.
  destruct (np_body_part key l st Hall Hst) as (st' & -> & Hst').
  simpl. apply IH, Hst'.
Qed.

(** How [sjf] (key 2) and [priority_scheduling] (key 3) can fail.  A row
    without an arrival makes the sort raise [IndexError] before the batch is
    touched.  A row that has arrived by time 0 but lacks the selection key
    makes the first iteration raise [IndexError], with the batch already
    sorted.  On rows that have the items 0, 1, 2 and the key, no exception is
    ever raised: [sjf] accepts rows of three items, it never reads a
    priority. *)
Theorem nonpreemptive_exceptions (key : nat) (fuel : nat) (processes : list row) :
  key = 2%nat \/ key = 3%nat ->
  (~ Forall has_arrival processes ->
   nonpreemptive key fuel processes = (processes, Raises IndexError))
  /\ (Forall has_arrival processes ->
      (exists p, p ∈ processes /\ arrival_of p <= 0 /\ ~ has_fields (S key) p) ->
      nonpreemptive key (S fuel) processes
      = (sort_arrival processes, Raises IndexError))
  /\ (Forall (np_readable key) processes ->
      forall e, (nonpreemptive key fuel processes).2 <> Raises e).
Proof.
  intros Hkey. split; [|split].
  - intros Hshort. unfold nonpreemptive.
    rewrite sorted_by_arrival_short by exact Hshort. reflexivity.
  - intros Harr (p & Hp & Ha & Hmiss). unfold nonpreemptive.
    rewrite sorted_by_arrival_ok by exact Harr. f_equal.
    pose proof (sort_arrival_perm processes) as Hperm.
    rewrite np_loop_S.
    assert (Hne : (0 < length (sort_arrival processes))%nat).
    { rewrite (Permutation_length Hperm). destruct processes; [inversion Hp|simpl; lia]. }
    apply Nat.ltb_lt in Hne. simpl np_completed. simpl length at 1. rewrite Hne.
    unfold np_body. rewrite np_available_pure by (rewrite Hperm; exact Harr).
    simpl.
    assert (Hin : p ∈ filter (eligible 0 []) (sort_arrival processes)).
    { apply list_elem_of_filter. rewrite Hperm.
      split; [split; [exact Ha|apply not_elem_of_nil]|exact Hp]. }
    destruct (filter (eligible 0 []) (sort_arrival processes)) as [|p0 av] eqn:E;
      [inversion Hin|].
    unfold min_by. rewrite map_o_keyed_missing; [reflexivity|].
    intros Hall. rewrite Forall_forall in Hall. apply Hmiss, Hall, Hin.
  - intros Hall e. unfold nonpreemptive.
    rewrite sorted_by_arrival_ok by (eapply np_readable_arrival; exact Hall).
    simpl. intros H.
    destruct (np_loop key (sort_arrival processes) fuel
                (length (sort_arrival processes)) np_init) as [st| |] eqn:E;
      simpl in H; try discriminate H.
    injection H as <-.
    refine (np_loop_never_raises key (sort_arrival processes)
              (length (sort_arrival processes)) fuel np_init e0 _ _ E);
      [rewrite sort_arrival_perm; exact Hall|apply np_part_init].
Qed.

Lemma nonpreemptive_exceptions_witness :
  priority_scheduling 1 [[1; 0; 4]; [2; 0; 3; 1]]
  = (sort_arrival [[1; 0; 4]; [2; 0; 3; 1]], Raises IndexError)
  /\ forall e, (sjf 5 [[1; 0; 4]; [2; 0; 3; 1]]).2 <> Raises e.
Proof.
  split.
  - apply (nonpreemptive_exceptions 3 0 [[1; 0; 4]; [2; 0; 3; 1]]);
      [right; reflexivity| |].
    + repeat constructor; unfold has_arrival; simpl; lia.
    + exists [1; 0; 4]. split; [left|].
      split; [unfold arrival_of; simpl; lia|unfold has_fields; simpl; lia].
  - apply (nonpreemptive_exceptions 2 5 [[1; 0; 4]; [2; 0; 3; 1]]);
      [left; reflexivity|].
    repeat constructor; unfold has_fields; simpl; lia.
Defined.

(** A batch that holds the same row twice never gets an answer from [sjf] or
    [priority_scheduling]: the membership test on completed rows takes both
    copies for completed once one is, so the list of completed rows stays
    shorter than the batch and the loop runs for ever. *)
Theorem nonpreemptive_duplicate_rows_never_return
    (key : nat) (fuel : nat) (processes : list row) :
  key = 2%nat \/ key = 3%nat ->
  Forall (np_readable key) processes ->
  ~ NoDup processes ->
  (nonpreemptive key fuel processes).2 = OutOfFuel.
Proof.
  intros _ Hall Hdup. unfold nonpreemptive.
  rewrite sorted_by_arrival_ok by (eapply np_readable_arrival; exact Hall).
  simpl. rewrite np_loop_duplicates; [reflexivity| | |apply np_part_init].
  - rewrite sort_arrival_perm. exact Hall.
  - rewrite sort_arrival_perm. exact Hdup.
Qed.

Lemma nonpreemptive_duplicate_rows_witness :
  (sjf 1000 [[1; 0; 2; 0]; [1; 0; 2; 0]]).2 = OutOfFuel.
Proof.
  apply (nonpreemptive_duplicate_rows_never_return 2 1000 [[1; 0; 2; 0]; [1; 0; 2; 0]]).
  - left. reflexivity.
  - repeat constructor; unfold has_fields; simpl; lia.
  - intros H. apply NoDup_cons in H as [H _]. apply H. left.
Defined.

(** ** [round_robin] on an arbitrary batch *)

Lemma build_dict_missing (ps : list row) d :
  ~ Forall (has_fields 4) ps -> build_dict ps d = Raises IndexError.
Proof.
  revert d. induction ps as [|p ps IH]; intros d Hn.
  - destruct Hn. constructor.
  - simpl. destruct (decide (has_fields 4 p)) as [Hp|Hp]; unfold has_fields in Hp.
    + rewrite !item_nth by lia. simpl. apply IH.
      intros Hall. apply Hn. constructor; assumption.
    + destruct p as [|a [|b [|c [|e p]]]]; try reflexivity.
      simpl in Hp. lia.
Qed.

Lemma build_dict_known (ps : list row) d :
  Forall (has_fields 4) ps ->
  exists d',
    build_dict ps d = Returns d'
    /\ (forall p, p ∈ ps -> is_Some (d' !! pid_of p))
    /\ (forall k, is_Some (d !! k) -> is_Some (d' !! k)).
Proof.
  intros Hall. revert d. induction Hall as [|p ps Hp _ IH]; intros d.
  - exists d. split; [reflexivity|]. split; [|auto]. intros p Hp. inversion Hp.
  - unfold has_fields in Hp. simpl. rewrite !item_nth by lia. simpl.
    destruct (IH (<[nth 0 p 0 := PEntry (nth 1 p 0) (nth 2 p 0) (nth 3 p 0) (nth 2 p 0)]> d))
      as (d' & Hd' & Hin & Hkeep).
    exists d'. split; [exact Hd'|]. split.
    + intros q Hq. apply elem_of_cons in Hq as [->|Hq]; [|apply Hin, Hq].
      apply Hkeep. unfold pid_of. rewrite lookup_insert_eq. eauto.
    + intros k Hk. apply Hkeep. apply lookup_insert_is_Some'. right. exact Hk.
Qed.

Lemma enqueue_arrivals_total d time completed skip (ps : list row) queue :
  Forall (has_fields 1) ps ->
  (forall p, p ∈ ps -> is_Some (d !! pid_of p)) ->
  exists queue',
    enqueue_arrivals d time completed skip ps queue = Returns queue'
    /\ forall x, x ∈ queue' -> x ∈ queue \/ x ∈ pid_of <$> ps.
Proof.
  intros Hall. revert queue. induction Hall as [|p ps Hp _ IH]; intros queue Hd.
  - exists queue. split; [reflexivity|]. auto.
  - unfold has_fields in Hp. simpl. rewrite item_nth by lia. simpl.
    fold (pid_of p). destruct (Hd p) as [e He]; [left|].
    unfold dict_get. rewrite He. simpl.
    assert (Hd' : forall q, q ∈ ps -> is_Some (d !! pid_of q))
      by (intros q Hq; apply Hd; right; exact Hq).
    destruct ((arrival e <=? time) && negb (bool_decide (pid_of p ∈ completed))
              && negb (bool_decide (pid_of p ∈ queue))
              && negb (bool_decide (skip = Some (pid_of p)))).
    + destruct (IH (queue ++ [pid_of p]) Hd') as (queue' & -> & Hin).
      exists queue'. split; [reflexivity|]. intros x Hx.
      destruct (Hin x Hx) as [Hq|Hq].
      * apply elem_of_app in Hq as [Hq|Hq]; [left; exact Hq|].
        apply list_elem_of_singleton in Hq. subst x. right. left.
      * right. right. exact Hq.
    + destruct (IH queue Hd') as (queue' & -> & Hin).
      exists queue'. split; [reflexivity|]. intros x Hx.
      destruct (Hin x Hx) as [Hq|Hq]; [left; exact Hq|right; right; exact Hq].
Qed.

Lemma rr_body_known quantum l st :
  Forall (has_fields 1) l ->
  rr_known l st ->
  exists st', rr_body quantum l st = Returns st' /\ rr_known l st'.
Proof.
  intros Hall (Hd & Hq & Hc). unfold rr_body.
  destruct (enqueue_arrivals_total (rr_dict st) (rr_time st) (rr_completed st)
              None l (rr_queue st) Hall Hd) as (queue1 & -> & Hin1).
  simpl.
  assert (Hq1 : forall x, x ∈ queue1 -> x ∈ pid_of <$> l).
  { intros x Hx. destruct (Hin1 x Hx) as [H|H]; [apply Hq, H|exact H]. }
  destruct queue1 as [|c queue2].
  - eexists. split; [reflexivity|]. unfold rr_known. simpl.
    split; [exact Hd|]. split; [intros x Hx; inversion Hx|exact Hc].
  - assert (Hcin : c ∈ pid_of <$> l) by (apply Hq1; left).
    pose proof Hcin as Hcin'.
    apply pid_in_batch in Hcin' as (p & Hp & Hpc).
    destruct (Hd p Hp) as [e He]. rewrite Hpc in He.
    unfold dict_get at 1. rewrite He. simpl.
    set (d' := <[c := PEntry (arrival e) (burst e) (priority e)
                         (remaining e - Z.min quantum (remaining e))]> (rr_dict st)).
    assert (Hd' : forall p, p ∈ l -> is_Some (d' !! pid_of p)).
    { intros p' Hp'. apply lookup_insert_is_Some'. right. apply Hd, Hp'. }
    destruct (enqueue_arrivals_total d' (rr_time st + Z.min quantum (remaining e))
                (rr_completed st) (Some c) l queue2 Hall Hd')
      as (queue3 & -> & Hin3).
    simpl. unfold dict_get. unfold d' at 1. rewrite lookup_insert_eq. simpl.
    assert (Hq3 : forall x, x ∈ queue3 -> x ∈ pid_of <$> l).
    { intros x Hx. destruct (Hin3 x Hx) as [H|H]; [apply Hq1; right; exact H|exact H]. }
    destruct (0 <? remaining e - Z.min quantum (remaining e));
      (eexists; split; [reflexivity|]); unfold rr_known; simpl;
      (split; [exact Hd'|]).
    + split; [|exact Hc]. intros x Hx. apply elem_of_app in Hx as [Hx|Hx].
      * apply Hq3, Hx.
      * apply list_elem_of_singleton in Hx. subst x. exact Hcin.
    + split; [exact Hq3|]. intros x Hx. apply elem_of_union in Hx as [Hx|Hx].
      * apply Hc, Hx.
      * apply elem_of_singleton in Hx. subst x. exact Hcin.
Qed.

Lemma rr_loop_never_raises quantum l n fuel st e :
  Forall (has_fields 1) l ->
  rr_known l st ->
  rr_loop quantum l n fuel st <> Raises e.
Proof.
  intros Hall. revert st. induction fuel as [|fuel IH]; intros st Hst; [discriminate|].
  rewrite rr_loop_S. destruct (size (rr_completed st) <? n)%nat; [|discriminate].
  destruct (rr_body_known quantum l st Hall Hst) as (st' & -> & Hst').
  simpl. apply IH, Hst'.
Qed.

Lemma size_list_to_set_le (l : list Z) : (size (list_to_set l : gset Z) <= length l)%nat.
Proof.
  induction l as [|x l IH].
  - rewrite list_to_set_nil, size_empty. simpl. lia.
  - rewrite list_to_set_cons, size_union_alt, size_singleton. simpl.
    assert (Hsub : (list_to_set l ∖ {[x]} : gset Z) ⊆ list_to_set l).
    { intros y Hy. apply elem_of_difference in Hy as [Hy _]. exact Hy. }
    apply subseteq_size in Hsub. lia.
Qed.

Lemma size_list_to_set_dup (l : list Z) :
  ~ NoDup l -> (size (list_to_set l : gset Z) < length l)%nat.
Proof.
  induction l as [|x l IH]; intros Hdup.
  - destruct Hdup. constructor.
  - rewrite list_to_set_cons. simpl length.
    destruct (decide (x ∈ l)) as [Hx|Hx].
    + replace ({[x]} ∪ list_to_set l : gset Z) with (list_to_set l : gset Z).
      * pose proof (size_list_to_set_le l). lia.
      * apply set_eq. intros y. rewrite elem_of_union, elem_of_singleton,
          elem_of_list_to_set. split; [auto|]. intros [->|H]; assumption.
    + rewrite size_union, size_singleton.
      * assert (~ NoDup l) by (intros H; apply Hdup; constructor; assumption).
        specialize (IH H). lia.
      * apply disjoint_singleton_l. rewrite elem_of_list_to_set. exact Hx.
Qed.

Lemma rr_loop_duplicates quantum l fuel st :
  Forall (has_fields 1) l ->
  ~ NoDup (pid_of <$> l) ->
  rr_known l st ->
  rr_loop quantum l (length l) fuel st = OutOfFuel.
Proof.
  intros Hall Hdup. revert st.
  induction fuel as [|fuel IH]; intros st Hst; [reflexivity|].
  rewrite rr_loop_S.
  assert (Hlt : (size (rr_completed st) < length l)%nat).
  { destruct Hst as (_ & _ & Hc).
    assert (Hsub : rr_completed st ⊆ (list_to_set (pid_of <$> l) : gset Z)).
    { intros x Hx. apply elem_of_list_to_set, Hc, Hx. }
    apply subseteq_size in Hsub.
    pose proof (size_list_to_set_dup (pid_of <$> l) Hdup) as Hd.
    rewrite length_fmap in Hd. lia. }
  apply Nat.ltb_lt in Hlt. rewrite Hlt.
  destruct (rr_body_known quantum l st Hall Hst) as (st' & -> & Hst').
  simpl. apply IH, Hst'.
Qed.

Lemma rr_known_init (l : list row) d :
  (forall p, p ∈ l -> is_Some (d !! pid_of p)) -> rr_known l (rr_init d).
Proof.
  intros Hd. unfold rr_known, rr_init. simpl. split; [exact Hd|].
  split; [intros x Hx; inversion Hx|].
  intros x Hx. apply not_elem_of_empty in Hx. contradiction.
Qed.

Lemma rr_run_on_known fuel processes quantum :
  Forall (has_fields 4) processes ->
  exists d,
    rr_run fuel processes quantum
    = rr_loop quantum (sort_arrival processes) (length (sort_arrival processes))
        fuel (rr_init d)
    /\ rr_known (sort_arrival processes) (rr_init d)
    /\ Forall (has_fields 1) (sort_arrival processes).
Proof.
  intros Hall.
  destruct (build_dict_known processes ∅ Hall) as (d & Hd & Hin & _).
  exists d. unfold rr_run. rewrite Hd. simpl.
  rewrite sorted_by_arrival_ok.
  2:{ eapply Forall_impl; [exact Hall|]. unfold has_fields, has_arrival.
      intros p Hp. lia. }
  simpl. rewrite (Permutation_length (sort_arrival_perm processes)).
  split; [reflexivity|]. split.
  - apply rr_known_init. intros p Hp. apply Hin.
    rewrite <- (sort_arrival_perm processes). exact Hp.
  - rewrite sort_arrival_perm. eapply Forall_impl; [exact Hall|].
    unfold has_fields. intros p Hp. lia.
Qed.

(** How [round_robin] with a quantum can fail.  A row with fewer than four
    items makes the construction of [process_dict] raise [IndexError],
    whatever the quantum; the caller's batch is not touched.  On rows of at
    least four items no exception is ever raised, whatever the values, the
    ids and the quantum. *)
Theorem round_robin_exceptions (fuel : nat) (processes : list row) (quantum : Z) :
  (~ Forall (has_fields 4) processes ->
   round_robin fuel processes (Some quantum) = (processes, Raises IndexError))
  /\ (Forall (has_fields 4) processes ->
      forall e, (round_robin fuel processes (Some quantum)).2 <> Raises e).
Proof.
  split.
  - intros Hshort. unfold round_robin, rr_run.
    rewrite build_dict_missing by exact Hshort. reflexivity.
  - intros Hall e. unfold round_robin. simpl.
    destruct (rr_run_on_known fuel processes quantum Hall) as (d & -> & Hk & H1).
    intros H.
    destruct (rr_loop quantum (sort_arrival processes)
                (length (sort_arrival processes)) fuel (rr_init d))
      as [st| |] eqn:E; simpl in H; try discriminate H.
    injection H as <-.
    exact (rr_loop_never_raises _ _ _ _ _ _ H1 Hk E).
Qed.

Lemma round_robin_exceptions_witness :
  round_robin 9 [[1; 0; 5; 0]; [2; 1; 3]] (Some 2)
  = ([[1; 0; 5; 0]; [2; 1; 3]], Raises IndexError).
Proof.
  apply (round_robin_exceptions 9 [[1; 0; 5; 0]; [2; 1; 3]] 2).
  intros H. apply Forall_cons in H as [_ H]. apply Forall_cons in H as [H _].
  unfold has_fields in H. simpl in H. lia.
Defined.

(** A batch in which two rows carry the same id never gets an answer from
    [round_robin], whatever the quantum: the loop waits for as many
    completed ids as the batch has rows, and the set of completed ids cannot
    grow that large. *)
Theorem round_robin_duplicate_ids_never_return
    (fuel : nat) (processes : list row) (quantum : Z) :
  Forall (has_fields 4) processes ->
  ~ NoDup (pid_of <$> processes) ->
  (round_robin fuel processes (Some quantum)).2 = OutOfFuel.
Proof.
  intros Hall Hdup. unfold round_robin. simpl.
  destruct (rr_run_on_known fuel processes quantum Hall) as (d & -> & Hk & H1).
  rewrite rr_loop_duplicates; [reflexivity|exact H1| |exact Hk].
  rewrite sort_arrival_perm. exact Hdup.
Qed.

Lemma round_robin_duplicate_ids_witness :
  (round_robin 1000 [[1; 0; 2; 0]; [1; 3; 4; 0]] (Some 2)).2 = OutOfFuel.
Proof.
  apply (round_robin_duplicate_ids_never_return 1000 [[1; 0; 2; 0]; [1; 3; 4; 0]] 2).
  - repeat constructor; unfold has_fields; simpl; lia.
  - intros H. apply NoDup_cons in H as [H _]. apply H. left.
Defined.

(** ** Timelines of the non-preemptive endpoints *)

Lemma total_burst_app l1 l2 : total_burst (l1 ++ l2) = total_burst l1 + total_burst l2.
Proof. induction l1 as [|p l1 IH]; simpl; lia. Qed.

Lemma sorted_snoc (finish : list Z) (t f : Z) :
  StronglySorted Z.lt finish -> Forall (fun x => x <= t) finish -> t < f ->
  StronglySorted Z.lt (finish ++ [f]).
Proof.
  intros Hs Hle Hlt. apply StronglySorted_app. split; [|split].
  - intros x1 x2 H1 H2. apply list_elem_of_singleton in H2. subst x2.
    rewrite Forall_forall in Hle. specialize (Hle x1 H1). lia.
  - exact Hs.
  - repeat constructor.
Qed.

Lemma behind_snoc (finish : list Z) (t f : Z) :
  Forall (fun x => x <= t) finish -> t <= f -> Forall (fun x => x <= f) (finish ++ [f]).
Proof.
  intros Hle Hlt. apply Forall_app. split.
  - eapply Forall_impl; [exact Hle|]. simpl. intros x Hx. lia.
  - repeat constructor. lia.
Qed.

Lemma respects_arrivals_rows (l rows : list row) (finish : list Z) :
  NoDup (pid_of <$> l) -> rows ⊆ l ->
  Forall2 (fun p f => arrival_of p + burst_of p <= f) rows finish ->
  respects_arrivals l (pid_of <$> rows) finish.
Proof.
  intros Hnd Hsub Hall i pid f p Ho Hf Hp Hpid.
  apply list_lookup_fmap_Some in Ho as (q & Hq & Hqi).
  destruct (Forall2_lookup_l _ _ _ _ _ Hall Hqi) as (f' & Hf' & Hle).
  rewrite Hf in Hf'. injection Hf' as <-.
  assert (Heq : p = q).
  { apply (pid_of_inj l); try assumption; [|congruence].
    apply Hsub. eapply list_elem_of_lookup_2. exact Hqi. }
  subst q. exact Hle.
Qed.

Lemma respects_arrivals_perm l l' order finish :
  l ≡ₚ l' -> respects_arrivals l order finish -> respects_arrivals l' order finish.
Proof.
  intros Hperm H i pid f p Ho Hf Hp Hpid. apply (H i pid f p); try assumption.
  rewrite Hperm. exact Hp.
Qed.

Lemma np_clock_init l : np_clock l np_init.
Proof.
  unfold np_clock, np_init. simpl.
  split; [constructor|]. split; [constructor|]. split; [reflexivity|].
  split; [|constructor]. intros x Hx. discriminate Hx.
Qed.

Lemma np_clock_step key l st st' :
  (key < 4)%nat ->
  valid_batch l ->
  (length (np_completed st) < length l)%nat ->
  np_clock l st ->
  np_body key l st = Returns st' ->
  np_clock l st'.
Proof.
  intros Hkey Hvalid Hlt (Hs & Hle & Ht & Hlast & Harr) Hbody.
  destruct (np_body_cases key l st Hkey (valid_batch_four l Hvalid))
    as [[_ Hidle]|(l1 & p & l2 & Hav & _ & _ & Hdisp)].
  - rewrite Hidle in Hbody. injection Hbody as <-. unfold np_clock. simpl.
    split; [exact Hs|]. split.
    { eapply Forall_impl; [exact Hle|]. simpl. intros x Hx. lia. }
    split; [lia|]. split; [|exact Harr].
    intros f Hf. right. exact Hlt.
  - rewrite Hdisp in Hbody. injection Hbody as <-.
    assert (Hp : p ∈ filter (eligible (np_time st) (np_completed st)) l).
    { rewrite Hav. apply elem_of_app. right. left. }
    apply list_elem_of_filter in Hp as [[Ha _] Hp].
    assert (Hb : 0 < burst_of p).
    { destruct Hvalid as [Hwf _]. rewrite Forall_forall in Hwf. apply (Hwf p Hp). }
    unfold np_clock. simpl.
    split; [apply (sorted_snoc _ (np_time st)); [assumption|assumption|lia]|].
    split; [apply (behind_snoc _ (np_time st)); [assumption|lia]|].
    split; [rewrite total_burst_app; simpl; lia|].
    split.
    + intros f Hf. rewrite last_snoc in Hf. injection Hf as <-. left. reflexivity.
    + apply Forall2_app; [exact Harr|]. repeat constructor. lia.
Qed.

Lemma np_loop_keeps (P : np_state -> Prop) key l n fuel st st' :
  (forall s s', P s -> (length (np_completed s) < n)%nat ->
                np_body key l s = Returns s' -> P s') ->
  P st ->
  np_loop key l fuel n st = Returns st' ->
  P st'.
Proof.
  intros Hstep. revert st. induction fuel as [|fuel IH]; intros st Hst H; [discriminate|].
  rewrite np_loop_S in H.
  destruct (Nat.ltb_spec (length (np_completed st)) n) as [Hlt|Hge].
  - inv_bind H. apply (IH a); [|exact H]. eapply Hstep; eauto.
  - injection H as <-. exact Hst.
Qed.

(** The final state of a non-preemptive run on a valid batch, with its
    clock. *)
Lemma nonpreemptive_final key processes :
  (key < 4)%nat ->
  valid_batch processes ->
  exists st,
    (forall fuel, (np_steps st < fuel)%nat ->
       nonpreemptive key fuel processes
       = (sort_arrival processes, Returns (Schedule (np_finish st) (np_order st))))
    /\ np_inv (sort_arrival processes) st
    /\ np_clock (sort_arrival processes) st
    /\ np_completed st ≡ₚ processes.
Proof.
  intros Hkey Hvalid.
  destruct (nonpreemptive_runs key processes Hkey Hvalid) as (st & Hrun & Hinv & Hperm).
  exists st. split; [intros fuel Hfuel; apply Hrun, Hfuel|].
  split; [exact Hinv|]. split; [|exact Hperm].
  destruct (Hrun (S (np_steps st))) as [Hloop _]; [lia|].
  apply (np_loop_keeps (np_clock (sort_arrival processes)) key _ _ _ _ _) in Hloop;
    [exact Hloop| |apply np_clock_init].
  intros s s' Hs Hlt Hbody. eapply np_clock_step; eauto.
  eapply valid_batch_perm; [|exact Hvalid]. symmetry. apply sort_arrival_perm.
Qed.

Lemma fcfs_loop_clock l st st' :
  Forall (fun p => four_fields p /\ 0 < burst_of p) l ->
  StronglySorted Z.lt (f_finish st) ->
  Forall (fun f => f <= f_time st) (f_finish st) ->
  fcfs_loop l st = Returns st' ->
  exists F,
    f_finish st' = f_finish st ++ F
    /\ Forall2 (fun p f => arrival_of p + burst_of p <= f) l F
    /\ StronglySorted Z.lt (f_finish st')
    /\ Forall (fun f => f <= f_time st') (f_finish st')
    /\ f_time st + total_burst l <= f_time st'
    /\ f_time st' <= Z.max (f_time st) (max_arrival l) + total_burst l
    /\ (l <> [] -> last (f_finish st') = Some (f_time st')).
Proof.
  intros Hall. revert st.
  induction Hall as [|p l [Hp Hb] _ IH]; intros st Hs Hle Hloop.
  - simpl in Hloop. injection Hloop as <-. exists []. rewrite app_nil_r. simpl.
    repeat split; try assumption; try constructor; try lia. congruence.
  - unfold four_fields in Hp.
    destruct p as [|pid [|at_ [|bt [|pri [|]]]]]; try discriminate Hp.
    unfold burst_of in Hb. simpl in Hb, Hloop.
    set (time1 := (if f_time st <? at_ then at_ else f_time st) + bt) in *.
    assert (Ht1 : f_time st < time1 /\ at_ + bt <= time1
                  /\ time1 <= Z.max (f_time st) at_ + bt
                  /\ f_time st + bt <= time1).
    { unfold time1. destruct (Z.ltb_spec (f_time st) at_); lia. }
    destruct (IH (FcfsState time1
                    (f_start st ++ [if f_time st <? at_ then at_ else f_time st])
                    (f_finish st ++ [time1]) (f_order st ++ [pid]))
                (sorted_snoc _ _ _ Hs Hle (proj1 Ht1))
                (behind_snoc _ (f_time st) time1 Hle ltac:(lia)) Hloop)
      as (F & HF & Harr & Hs' & Hle' & Hlo & Hhi & Hlast).
    simpl in *. exists (time1 :: F).
    rewrite HF, <- app_assoc. simpl.
    split; [reflexivity|]. split.
    { constructor; [unfold arrival_of, burst_of; simpl; lia|exact Harr]. }
    rewrite HF, <- app_assoc in Hs', Hle'. simpl in Hs', Hle'.
    split; [exact Hs'|]. split; [exact Hle'|].
    unfold burst_of, arrival_of. simpl.
    split; [lia|]. split; [lia|].
    intros _. destruct l as [|q l].
    + simpl in Hloop. injection Hloop as <-. simpl in *.
      destruct F; [|apply Forall2_nil_inv_l in Harr; discriminate Harr].
      apply last_snoc.
    + rewrite <- Hlast by discriminate. rewrite HF, <- app_assoc. reflexivity.
Qed.

Lemma valid_batch_bursts l :
  valid_batch l -> Forall (fun p => four_fields p /\ 0 < burst_of p) l.
Proof.
  intros [H _]. eapply Forall_impl; [exact H|]. intros p (Hp & _ & Hb).
  split; assumption.
Qed.

Lemma valid_batch_total_burst l : valid_batch l -> 0 <= total_burst l.
Proof. intros H. pose proof (total_burst_length l H). lia. Qed.

(** Timeline of the three non-preemptive endpoints on a valid batch: the
    finish times grow strictly along the schedule, and every process
    finishes no earlier than its arrival plus its burst. *)
Theorem non_preemptive_timeline (op : operation) (processes : list row) :
  non_preemptive op ->
  valid_batch processes ->
  exists finish order fuel0,
    (forall fuel, (fuel0 <= fuel)%nat ->
       (run op fuel processes).2 = Returns (Schedule finish order))
    /\ StronglySorted Z.lt finish
    /\ respects_arrivals processes order finish.
Proof.
  intros Hop Hvalid.
  pose proof (sort_arrival_perm processes) as Hperm.
  assert (Hvalid' : valid_batch (sort_arrival processes)).
  { eapply valid_batch_perm; [|exact Hvalid]. symmetry. exact Hperm. }
  assert (Hnp : forall key, (key < 4)%nat ->
            exists finish order fuel0,
              (forall fuel, (fuel0 <= fuel)%nat ->
                 (nonpreemptive key fuel processes).2 = Returns (Schedule finish order))
              /\ StronglySorted Z.lt finish
              /\ respects_arrivals processes order finish).
  { intros key Hkey.
    destruct (nonpreemptive_final key processes Hkey Hvalid)
      as (st & Hrun & Hinv & Hclock & _).
    exists (np_finish st), (np_order st), (S (np_steps st)).
    split; [intros fuel Hfuel; rewrite Hrun by lia; reflexivity|].
    destruct Hclock as (Hs & _ & _ & _ & Harr).
    destruct Hinv as (_ & Hsub & Hord & _).
    split; [exact Hs|]. rewrite Hord.
    apply (respects_arrivals_perm (sort_arrival processes)); [exact Hperm|].
    apply respects_arrivals_rows; [apply Hvalid'|exact Hsub|exact Harr]. }
  destruct op as [| | |q]; simpl in *; [|apply Hnp; lia|apply Hnp; lia|contradiction].
  unfold fcfs. rewrite sorted_by_arrival_ok by apply valid_batch_has_arrival, Hvalid.
  destruct (fcfs_loop_four (sort_arrival processes) fcfs_init
              (valid_batch_four _ Hvalid')) as (st & Hloop & Ho & _).
  destruct (fcfs_loop_clock (sort_arrival processes) fcfs_init st
              (valid_batch_bursts _ Hvalid')) as (F & HF & Harr & Hs & _);
    [constructor|constructor|exact Hloop|].
  simpl in *. exists (f_finish st), (f_order st), 0%nat. rewrite Hloop. simpl.
  split; [reflexivity|]. split; [exact Hs|].
  rewrite Ho, HF.
  apply (respects_arrivals_perm (sort_arrival processes)); [exact Hperm|].
  apply respects_arrivals_rows; [apply Hvalid'|reflexivity|exact Harr].
Qed.

Lemma non_preemptive_timeline_witness :
  valid_batch [[1; 0; 8; 0]; [2; 1; 4; 0]; [3; 2; 9; 0]]
  /\ exists finish order fuel0,
       (forall fuel, (fuel0 <= fuel)%nat ->
          (run RunSjf fuel [[1; 0; 8; 0]; [2; 1; 4; 0]; [3; 2; 9; 0]]).2
          = Returns (Schedule finish order))
       /\ StronglySorted Z.lt finish
       /\ respects_arrivals [[1; 0; 8; 0]; [2; 1; 4; 0]; [3; 2; 9; 0]] order finish.
Proof.
  assert (Hvalid : valid_batch [[1; 0; 8; 0]; [2; 1; 4; 0]; [3; 2; 9; 0]])
    by solve_valid_batch.
  split; [exact Hvalid|].
  apply (non_preemptive_timeline RunSjf _ I Hvalid).
Defined.

(** The makespan of the non-preemptive endpoints on a valid batch that is
    not empty: the last finish time is at least the sum of all bursts and at
    most that sum plus the latest arrival.  When every process arrives at
    time 0 it is the sum of the bursts. *)
Theorem non_preemptive_makespan (op : operation) (processes : list row) :
  non_preemptive op ->
  valid_batch processes ->
  processes <> [] ->
  exists finish order fuel0 done,
    (forall fuel, (fuel0 <= fuel)%nat ->
       (run op fuel processes).2 = Returns (Schedule finish order))
    /\ last finish = Some done
    /\ total_burst processes <= done
    /\ done <= total_burst processes + max_arrival processes.
Proof.
  intros Hop Hvalid Hne.
  pose proof (sort_arrival_perm processes) as Hperm.
  assert (Hvalid' : valid_batch (sort_arrival processes)).
  { eapply valid_batch_perm; [|exact Hvalid]. symmetry. exact Hperm. }
  assert (Hnp : forall key, (key < 4)%nat ->
            exists finish order fuel0 done,
              (forall fuel, (fuel0 <= fuel)%nat ->
                 (nonpreemptive key fuel processes).2 = Returns (Schedule finish order))
              /\ last finish = Some done
              /\ total_burst processes <= done
              /\ done <= total_burst processes + max_arrival processes).
  { intros key Hkey.
    destruct (nonpreemptive_final key processes Hkey Hvalid)
      as (st & Hrun & Hinv & Hclock & Hall).
    destruct Hclock as (_ & _ & Ht & Hlast & Harr).
    destruct Hinv as (_ & _ & _ & _ & Hidle).
    rewrite (max_arrival_perm _ _ Hperm) in Hidle.
    rewrite (total_burst_perm _ _ Hall) in Ht.
    assert (Hlen : length (np_finish st) = length processes).
    { rewrite <- (Forall2_length _ _ _ Harr). apply Permutation_length, Hall. }
    destruct (last (np_finish st)) as [done|] eqn:El.
    2:{ apply last_None in El. rewrite El in Hlen. destruct processes; [congruence|discriminate]. }
    exists (np_finish st), (np_order st), (S (np_steps st)), done.
    split; [intros fuel Hfuel; rewrite Hrun by lia; reflexivity|].
    split; [exact El|].
    destruct (Hlast done eq_refl) as [->|Hlt].
    - split; lia.
    - rewrite (Permutation_length Hall), (Permutation_length Hperm) in Hlt. lia. }
  destruct op as [| | |q]; simpl in *; [|apply Hnp; lia|apply Hnp; lia|contradiction].
  unfold fcfs. rewrite sorted_by_arrival_ok by apply valid_batch_has_arrival, Hvalid.
  destruct (fcfs_loop_four (sort_arrival processes) fcfs_init
              (valid_batch_four _ Hvalid')) as (st & Hloop & Ho & _).
  destruct (fcfs_loop_clock (sort_arrival processes) fcfs_init st
              (valid_batch_bursts _ Hvalid'))
    as (F & HF & _ & _ & _ & Hlo & Hhi & Hlast);
    [constructor|constructor|exact Hloop|].
  simpl in *. exists (f_finish st), (f_order st), 0%nat, (f_time st).
  rewrite Hloop. simpl.
  rewrite (total_burst_perm _ _ Hperm), (max_arrival_perm _ _ Hperm) in *.
  pose proof (max_arrival_nonneg processes).
  split; [reflexivity|]. split; [|split; lia].
  apply Hlast. intros Hnil. apply Hne. apply Permutation_nil_r.
  rewrite <- Hnil. symmetry. exact Hperm.
Qed.

Lemma non_preemptive_makespan_witness :
  exists finish order fuel0 done,
    (forall fuel, (fuel0 <= fuel)%nat ->
       (run RunFcfs fuel [[1; 0; 5; 0]; [2; 2; 3; 0]]).2
       = Returns (Schedule finish order))
    /\ last finish = Some done
    /\ total_burst [[1; 0; 5; 0]; [2; 2; 3; 0]] <= done
    /\ done <= total_burst [[1; 0; 5; 0]; [2; 2; 3; 0]]
               + max_arrival [[1; 0; 5; 0]; [2; 2; 3; 0]].
Proof.
  apply (non_preemptive_makespan RunFcfs [[1; 0; 5; 0]; [2; 2; 3; 0]] I).
  - solve_valid_batch.
  - discriminate.
Defined.

(** ** Timeline of [round_robin] *)

Lemma last_occurrence (l : list Z) (x : Z) :
  x ∈ l -> exists j, l !! j = Some x /\ x ∉ drop (S j) l.
Proof.
  induction l as [|a l IH]; intros Hx; [inversion Hx|].
  destruct (decide (x ∈ l)) as [Hin|Hout].
  - destruct (IH Hin) as (j & Hj & Hd). exists (S j). split; assumption.
  - apply elem_of_cons in Hx as [->|Hx]; [|contradiction].
    exists 0%nat. split; [reflexivity|]. simpl. rewrite drop_0. exact Hout.
Qed.

(** What the invariant says about the process the loop dispatches. *)
Lemma rr_dispatched_facts quantum l st p r queue :
  valid_batch l ->
  rr_inv quantum l st ->
  p ∈ l ->
  rr_queue st
    ++ (pid_of <$> filter (admissible (rr_time st) (rr_completed st) None
                             (rr_queue st)) l) = pid_of p :: queue ->
  rr_dict st !! pid_of p = Some (entry_of p r) ->
  0 < r
  /\ arrival_of p <= rr_time st
  /\ executed (pid_of p) (rr_slices st) = burst_of p - r.
Proof.
  intros Hvalid (Hled & _ & Hq & _ & Harr & _) Hp Hq1 Hlook.
  assert (Hids : NoDup (pid_of <$> l)) by apply Hvalid.
  assert (Hin : pid_of p ∈ pid_of p :: queue) by left.
  rewrite <- Hq1 in Hin.
  assert (Hfacts : (pid_of p ∉ rr_completed st) /\ arrival_of p <= rr_time st).
  { apply elem_of_app in Hin as [Hin|Hin].
    - split; [apply Hq, Hin|]. apply Harr; [exact Hp|left; exact Hin].
    - apply enqueued_elem in Hin as (p0 & Hp0 & Heq & (Ha & Hnc & _)).
      rewrite <- (pid_of_inj l p0 p Hids Hp0 Hp Heq). split; assumption. }
  destruct Hfacts as [Hnc Ha].
  destruct (Hled p Hp) as (r0 & Hd & Hr0 & Hc0 & He & _).
  rewrite Hlook in Hd. injection Hd as <-.
  split; [|split; assumption].
  destruct (decide (r = 0)) as [Hz|Hz]; [|lia].
  apply Hc0 in Hz. contradiction.
Qed.

Lemma rr_clock_step quantum l st st' :
  0 < quantum ->
  valid_batch l ->
  (size (rr_completed st) < length l)%nat ->
  rr_inv quantum l st ->
  rr_clock quantum l st ->
  rr_body quantum l st = Returns st' ->
  rr_clock quantum l st'.
Proof.
  intros Hquantum Hvalid Hlt Hinv (Hs & Hle & Ht & Hlast & Hsl & Hev) Hbody.
  assert (Hids : NoDup (pid_of <$> l)) by apply Hvalid.
  destruct (rr_body_cases quantum l st Hvalid)
    as [[_ Hidle]|(p & r & queue & Hp & Hq1 & Hlook & Hdisp)].
  { intros p Hp. destruct Hinv as (Hled & _).
    destruct (Hled p Hp) as (r & Hd & _). eauto. }
  { intros x Hx. destruct Hinv as (_ & _ & Hq & _). apply Hq, Hx. }
  - rewrite Hidle in Hbody. injection Hbody as <-.
    unfold rr_clock, rr_after_idle. simpl.
    split; [exact Hs|]. split.
    { eapply Forall_impl; [exact Hle|]. simpl. intros x Hx. lia. }
    split; [lia|]. split; [intros f _; right; exact Hlt|].
    split; [exact Hsl|exact Hev].
  - rewrite Hdisp in Hbody. injection Hbody as <-.
    destruct (rr_dispatched_facts quantum l st p r queue Hvalid Hinv Hp Hq1 Hlook)
      as (Hr & Ha & _).
    assert (Hleft : left_of (rr_dict st) (pid_of p) = r).
    { unfold left_of. rewrite Hlook. reflexivity. }
    assert (Hlen : length (rr_finish st) = length (rr_order st)) by apply Hinv.
    unfold rr_clock, rr_after_dispatch. simpl.
    split; [apply (sorted_snoc _ (rr_time st)); [assumption|assumption|lia]|].
    split; [apply (behind_snoc _ (rr_time st)); [assumption|lia]|].
    split; [rewrite total_left_insert by assumption; rewrite Hleft; simpl; lia|].
    split.
    { intros f Hf. rewrite last_snoc in Hf. injection Hf as <-. left. reflexivity. }
    split.
    { apply Forall_app. split; [exact Hsl|]. repeat constructor; simpl; lia. }
    intros i pid f p' Ho Hf Hp' Hpid.
    apply lookup_app_Some in Ho as [Ho|[Hi Ho]].
    + assert (Hi : (i < length (rr_finish st))%nat).
      { rewrite Hlen. eapply lookup_lt_Some. exact Ho. }
      rewrite lookup_app_l in Hf by exact Hi.
      apply (Hev i pid f p'); assumption.
    + apply list_lookup_singleton_Some in Ho as [Hi0 <-].
      rewrite lookup_app_r in Hf by lia.
      rewrite Hlen in Hf. replace (i - length (rr_order st))%nat with 0%nat in Hf by lia.
      injection Hf as <-.
      rewrite (pid_of_inj l p' p Hids Hp' Hp Hpid). lia.
Qed.

Lemma rr_turnaround_step quantum l st st' :
  0 < quantum ->
  valid_batch l ->
  rr_inv quantum l st ->
  rr_clock quantum l st ->
  rr_turnaround l st ->
  rr_body quantum l st = Returns st' ->
  rr_turnaround l st'.
Proof.
  intros Hquantum Hvalid Hinv Hclock Hturn Hbody.
  assert (Hids : NoDup (pid_of <$> l)) by apply Hvalid.
  destruct (rr_body_cases quantum l st Hvalid)
    as [[_ Hidle]|(p & r & queue & Hp & Hq1 & Hlook & Hdisp)].
  { intros p Hp. destruct Hinv as (Hled & _).
    destruct (Hled p Hp) as (r & Hd & _). eauto. }
  { intros x Hx. destruct Hinv as (_ & _ & Hq & _). apply Hq, Hx. }
  - rewrite Hidle in Hbody. injection Hbody as <-. exact Hturn.
  - rewrite Hdisp in Hbody. injection Hbody as <-.
    destruct (rr_dispatched_facts quantum l st p r queue Hvalid Hinv Hp Hq1 Hlook)
      as (Hr & Ha & Hex).
    assert (Hleft : left_of (rr_dict st) (pid_of p) = r).
    { unfold left_of. rewrite Hlook. reflexivity. }
    assert (Hlen : length (rr_finish st) = length (rr_order st)) by apply Hinv.
    assert (Hord : rr_order st = s_pid <$> rr_slices st) by apply Hinv.
    destruct Hclock as (_ & Hle & _).
    (* the clock has passed the arrival by what the process was served *)
    assert (Hserved : arrival_of p + (burst_of p - r) <= rr_time st).
    { destruct (decide (pid_of p ∈ rr_order st)) as [Hin|Hout].
      - destruct (last_occurrence _ _ Hin) as (j & Hj & Hd).
        assert (Hjf : is_Some (rr_finish st !! j)).
        { apply lookup_lt_is_Some. rewrite Hlen. eapply lookup_lt_Some. exact Hj. }
        destruct Hjf as [fj Hfj].
        pose proof (Hturn j (pid_of p) fj p Hj Hfj Hp eq_refl Hd) as Hinv_j.
        rewrite Hleft in Hinv_j.
        rewrite Forall_forall in Hle.
        pose proof (Hle fj (list_elem_of_lookup_2 _ _ _ Hfj)). lia.
      - pose proof (events_of_absent _ _ Hout) as Hzero.
        rewrite Hord, events_are_slices in Hzero.
        unfold executed in Hex. apply nil_length_inv in Hzero.
        rewrite Hzero in Hex. simpl in Hex. lia. }
    unfold rr_turnaround, rr_after_dispatch. simpl.
    intros i pid f p' Ho Hf Hp' Hpid Hlastev.
    apply lookup_app_Some in Ho as [Ho|[Hi Ho]].
    + assert (Hi : (i < length (rr_order st))%nat) by (eapply lookup_lt_Some; exact Ho).
      rewrite lookup_app_l in Hf by lia.
      rewrite drop_app_le in Hlastev by lia.
      rewrite elem_of_app, list_elem_of_singleton in Hlastev.
      rewrite left_of_insert_other by (intros Heq; apply Hlastev; right; congruence).
      apply (Hturn i pid f p'); try assumption. tauto.
    + apply list_lookup_singleton_Some in Ho as [Hi0 <-].
      rewrite lookup_app_r in Hf by lia.
      rewrite Hlen in Hf. replace (i - length (rr_order st))%nat with 0%nat in Hf by lia.
      injection Hf as <-.
      rewrite left_of_insert_same. simpl.
      rewrite (pid_of_inj l p' p Hids Hp' Hp Hpid). lia.
Qed.

Lemma rr_loop_keeps (P : rr_state -> Prop) quantum l n fuel st st' :
  (forall s s', P s -> (size (rr_completed s) < n)%nat ->
                rr_body quantum l s = Returns s' -> P s') ->
  P st ->
  rr_loop quantum l n fuel st = Returns st' ->
  P st'.
Proof.
  intros Hstep. revert st. induction fuel as [|fuel IH]; intros st Hst H; [discriminate|].
  rewrite rr_loop_S in H.
  destruct (Nat.ltb_spec (size (rr_completed st)) n) as [Hlt|Hge].
  - inv_bind H. apply (IH a); [|exact H]. eapply Hstep; eauto.
  - injection H as <-. exact Hst.
Qed.

Lemma rr_clock_init quantum l d :
  (forall p, p ∈ l -> d !! pid_of p = Some (entry_of p (burst_of p))) ->
  rr_clock quantum l (rr_init d) /\ rr_turnaround l (rr_init d).
Proof.
  intros Hd. unfold rr_clock, rr_turnaround, rr_init. simpl. split.
  - split; [constructor|]. split; [constructor|]. split.
    { rewrite (total_left_initial l d); [lia|].
      intros p Hp. unfold left_of. rewrite (Hd p Hp). reflexivity. }
    split; [intros f Hf; discriminate Hf|]. split; [constructor|].
    intros i pid f p Ho. discriminate Ho.
  - intros i pid f p Ho. discriminate Ho.
Qed.

Lemma total_left_zero (l : list row) d :
  (forall p, p ∈ l -> left_of d (pid_of p) = 0) -> total_left d l = 0.
Proof.
  induction l as [|p l IH]; intros H; [reflexivity|].
  simpl. rewrite H by left. rewrite IH; [reflexivity|].
  intros q Hq. apply H. right. exact Hq.
Qed.

Lemma rr_run_valid fuel processes quantum :
  valid_batch processes ->
  rr_run fuel processes quantum
  = rr_loop quantum (sort_arrival processes) (length (sort_arrival processes)) fuel
      (rr_init (foldl (fun d p => <[pid_of p := entry_of p (burst_of p)]> d)
                  (∅ : gmap Z pentry) processes)).
Proof.
  intros Hvalid. unfold rr_run.
  rewrite build_dict_pure by apply valid_batch_four, Hvalid.
  rewrite sorted_by_arrival_ok by apply valid_batch_has_arrival, Hvalid.
  unfold bind. rewrite (Permutation_length (sort_arrival_perm processes)).
  reflexivity.
Qed.

(** The final state of a round-robin run on a valid batch, with its clock. *)
Lemma rr_final quantum processes :
  0 < quantum ->
  valid_batch processes ->
  exists st,
    (forall fuel, (rr_steps st < fuel)%nat ->
       rr_run fuel processes quantum = Returns st
       /\ round_robin fuel processes (Some quantum)
          = (processes, Returns (Schedule (rr_finish st) (rr_order st))))
    /\ rr_inv quantum (sort_arrival processes) st
    /\ rr_clock quantum (sort_arrival processes) st
    /\ rr_turnaround (sort_arrival processes) st
    /\ (length processes <= size (rr_completed st))%nat
    /\ Z.of_nat (rr_idles st) <= max_arrival processes
    /\ forall p, p ∈ processes -> left_of (rr_dict st) (pid_of p) = 0.
Proof.
  intros Hquantum Hvalid.
  pose proof (sort_arrival_perm processes) as Hperm.
  assert (Hvalid' : valid_batch (sort_arrival processes)).
  { eapply valid_batch_perm; [|exact Hvalid]. symmetry. exact Hperm. }
  destruct (rr_dispatched_all quantum processes Hquantum Hvalid)
    as (st & Hrun & _ & _ & Hidle & Hall).
  exists st. split; [exact Hrun|].
  destruct (Hrun (S (rr_steps st))) as [Hloop _]; [lia|].
  rewrite rr_run_valid in Hloop by exact Hvalid.
  set (d := foldl (fun d p => <[pid_of p := entry_of p (burst_of p)]> d)
              (∅ : gmap Z pentry) processes) in *.
  assert (Hd : forall p, p ∈ sort_arrival processes ->
                         d !! pid_of p = Some (entry_of p (burst_of p))).
  { intros p Hp. rewrite Hperm in Hp.
    apply foldl_insert_lookup; [apply Hvalid|exact Hp]. }
  assert (Hfinal : rr_inv quantum (sort_arrival processes) st
                   /\ rr_clock quantum (sort_arrival processes) st
                   /\ rr_turnaround (sort_arrival processes) st).
  { refine (rr_loop_keeps
              (fun s => rr_inv quantum (sort_arrival processes) s
                        /\ rr_clock quantum (sort_arrival processes) s
                        /\ rr_turnaround (sort_arrival processes) s)
              _ _ _ _ _ _ _
              (conj (rr_init_inv quantum _ d Hquantum Hvalid' Hd)
                 (rr_clock_init quantum _ d Hd)) Hloop).
    intros s s' (Hi & Hc & Ht) Hlt Hbody.
    destruct (rr_body_step quantum _ s Hquantum Hvalid' Hi Hlt)
      as (s1 & Hbody1 & Hi1 & _).
    rewrite Hbody in Hbody1. injection Hbody1 as <-.
    split; [exact Hi1|]. split.
    - apply (rr_clock_step quantum _ s s'); assumption.
    - apply (rr_turnaround_step quantum _ s s'); assumption. }
  destruct Hfinal as (Hi & Hc & Ht).
  split; [exact Hi|]. split; [exact Hc|]. split; [exact Ht|].
  split; [|split; [exact Hidle|intros p Hp; apply Hall, Hp]].
  destruct (Nat.lt_ge_cases (size (rr_completed st)) (length processes)) as [Hlt|Hge];
    [|exact Hge].
  exfalso.
  assert (Hex : exists p, p ∈ processes /\ pid_of p ∉ rr_completed st).
  { apply missing_pid; [apply Hvalid|exact Hlt]. }
  destruct Hex as (p & Hp & Hnc).
  destruct Hi as (Hled & _).
  destruct (Hled p) as (r & Hdict & _ & Hiff & _); [rewrite Hperm; exact Hp|].
  destruct (Hall p Hp) as (_ & _ & _ & Hzero).
  unfold left_of in Hzero. rewrite Hdict in Hzero. simpl in Hzero.
  apply Hnc, Hiff, Hzero.
Qed.

(** Timeline of [round_robin] on a valid batch with a positive quantum: the
    finish times grow strictly along the schedule, every slice lasts at
    least one time unit and at most the quantum, every event ends after the
    arrival of its process, and the last event of a process ends no earlier
    than its arrival plus its burst. *)
Theorem round_robin_timeline (quantum : Z) (processes : list row) :
  0 < quantum ->
  valid_batch processes ->
  exists st,
    (forall fuel, (rr_steps st < fuel)%nat ->
       rr_run fuel processes quantum = Returns st
       /\ round_robin fuel processes (Some quantum)
          = (processes, Returns (Schedule (rr_finish st) (rr_order st))))
    /\ StronglySorted Z.lt (rr_finish st)
    /\ Forall (fun s => 0 < s_exec s <= quantum) (rr_slices st)
    /\ forall i pid f p,
         rr_order st !! i = Some pid -> rr_finish st !! i = Some f ->
         p ∈ processes -> pid_of p = pid ->
         arrival_of p < f
         /\ (pid ∉ drop (S i) (rr_order st) -> arrival_of p + burst_of p <= f).
Proof.
  intros Hquantum Hvalid.
  destruct (rr_final quantum processes Hquantum Hvalid)
    as (st & Hrun & _ & Hclock & Hturn & _ & _ & Hzero).
  destruct Hclock as (Hs & _ & _ & _ & Hsl & Hev).
  exists st. split; [exact Hrun|]. split; [exact Hs|]. split; [exact Hsl|].
  intros i pid f p Ho Hf Hp Hpid.
  assert (Hp' : p ∈ sort_arrival processes) by (rewrite sort_arrival_perm; exact Hp).
  split; [apply (Hev i pid f p); assumption|].
  intros Hlast. pose proof (Hturn i pid f p Ho Hf Hp' Hpid Hlast) as H.
  rewrite <- Hpid, (Hzero p Hp) in H. lia.
Qed.

Lemma round_robin_timeline_witness :
  valid_batch scenario_D
  /\ exists st,
       (forall fuel, (rr_steps st < fuel)%nat ->
          rr_run fuel scenario_D 2 = Returns st
          /\ round_robin fuel scenario_D (Some 2)
             = (scenario_D, Returns (Schedule (rr_finish st) (rr_order st))))
       /\ StronglySorted Z.lt (rr_finish st)
       /\ Forall (fun s => 0 < s_exec s <= 2) (rr_slices st)
       /\ forall i pid f p,
            rr_order st !! i = Some pid -> rr_finish st !! i = Some f ->
            p ∈ scenario_D -> pid_of p = pid ->
            arrival_of p < f
            /\ (pid ∉ drop (S i) (rr_order st) -> arrival_of p + burst_of p <= f).
Proof.
  assert (Hvalid : valid_batch scenario_D) by (unfold scenario_D; solve_valid_batch).
  split; [exact Hvalid|].
  apply (round_robin_timeline 2 scenario_D); [lia|exact Hvalid].
Defined.

(** The makespan of [round_robin] on a valid batch that is not empty, with a
    positive quantum: the last finish time is at least the sum of all bursts
    and at most that sum plus the latest arrival, whatever the quantum. *)
Theorem round_robin_makespan (quantum : Z) (processes : list row) :
  0 < quantum ->
  valid_batch processes ->
  processes <> [] ->
  exists finish order fuel0 done,
    (forall fuel, (fuel0 <= fuel)%nat ->
       (round_robin fuel processes (Some quantum)).2
       = Returns (Schedule finish order))
    /\ last finish = Some done
    /\ total_burst processes <= done
    /\ done <= total_burst processes + max_arrival processes.
Proof.
  intros Hquantum Hvalid Hne.
  pose proof (sort_arrival_perm processes) as Hperm.
  destruct (rr_final quantum processes Hquantum Hvalid)
    as (st & Hrun & Hinv & Hclock & _ & Hdone & Hidle & Hzero).
  destruct Hclock as (_ & _ & Ht & Hlast & _).
  rewrite total_left_zero in Ht
    by (intros p Hp; apply Hzero; rewrite <- Hperm; exact Hp).
  rewrite (total_burst_perm _ _ Hperm) in Ht.
  destruct (last (rr_finish st)) as [done|] eqn:El.
  - exists (rr_finish st), (rr_order st), (S (rr_steps st)), done.
    split.
    { intros fuel Hfuel. destruct (Hrun fuel) as [_ ->]; [lia|reflexivity]. }
    split; [exact El|].
    destruct (Hlast done eq_refl) as [->|Hlt].
    + split; lia.
    + rewrite (Permutation_length Hperm) in Hlt. lia.
  - exfalso. apply last_None in El.
    destruct Hinv as (Hled & _ & _ & _ & _ & Hord & Hlen & _).
    rewrite El in Hlen. simpl in Hlen. symmetry in Hlen. apply nil_length_inv in Hlen.
    destruct processes as [|p ps]; [congruence|].
    destruct (Hled p) as (r & Hd & _ & _ & _ & Hlo & Hhi & _);
      [rewrite Hperm; left|].
    assert (Hr : r = 0).
    { specialize (Hzero p ltac:(left)). unfold left_of in Hzero.
      rewrite Hd in Hzero. exact Hzero. }
    assert (Hb : 0 < burst_of p).
    { destruct Hvalid as [Hwf _]. apply Forall_cons in Hwf as [(_ & _ & Hb) _]. exact Hb. }
    rewrite Hord in Hlen. apply fmap_nil_inv in Hlen.
    rewrite Hlen in Hhi. simpl in Hhi. lia.
Qed.

Lemma round_robin_makespan_witness :
  exists finish order fuel0 done,
    (forall fuel, (fuel0 <= fuel)%nat ->
       (round_robin fuel scenario_D (Some 2)).2 = Returns (Schedule finish order))
    /\ last finish = Some done
    /\ total_burst scenario_D <= done
    /\ done <= total_burst scenario_D + max_arrival scenario_D.
Proof.
  apply (round_robin_makespan 2 scenario_D).
  - lia.
  - unfold scenario_D. solve_valid_batch.
  - discriminate.
Defined.

(** ** No row is dropped: events and rows of any batch *)

Lemma fcfs_loop_order_length l st st' :
  fcfs_loop l st = Returns st' ->
  length (f_order st') = (length (f_order st) + length l)%nat.
Proof.
  revert st. induction l as [|p l IH]; intros st H; simpl in H.
  - injection H as <-. simpl. lia.
  - inv_bind H. destruct a as [[[pid at_] bt] pri].
    apply IH in H. simpl in H. rewrite length_app in H. simpl in *. lia.
Qed.

Lemma np_body_counts key l st st' :
  np_body key l st = Returns st' ->
  length (np_order st) = length (np_completed st) ->
  length (np_order st') = length (np_completed st')
  /\ (length (np_completed st') <= S (length (np_completed st)))%nat.
Proof.
  unfold np_body. intros H Hlen. inv_bind H.
  destruct a as [|p0 av].
  - injection H as <-. simpl. lia.
  - inv_bind H. inv_bind H. inv_bind H. injection H as <-. simpl.
    rewrite !length_app. simpl. lia.
Qed.

Lemma np_loop_counts key l n fuel st st' :
  np_loop key l fuel n st = Returns st' ->
  length (np_order st) = length (np_completed st) ->
  (length (np_completed st) <= n)%nat ->
  length (np_order st') = n.
Proof.
  revert st. induction fuel as [|fuel IH]; intros st H Hlen Hle; [discriminate|].
  rewrite np_loop_S in H.
  destruct (Nat.ltb_spec (length (np_completed st)) n) as [Hlt|Hge].
  - inv_bind H. destruct (np_body_counts _ _ _ _ E Hlen) as [Hlen' Hle'].
    apply (IH a); [exact H|exact Hlen'|lia].
  - injection H as <-. lia.
Qed.

Lemma rr_body_counts quantum l st st' :
  rr_body quantum l st = Returns st' ->
  (size (rr_completed st) <= length (rr_order st))%nat ->
  (size (rr_completed st') <= length (rr_order st'))%nat.
Proof.
  unfold rr_body. intros H Hle. inv_bind H.
  destruct a as [|c q].
  - injection H as <-. exact Hle.
  - inv_bind H. inv_bind H. apply bind_Returns in H as (e' & _ & H).
    destruct (0 <? remaining e'); injection H as <-; simpl;
      rewrite length_app; simpl; [lia|].
    rewrite size_union_alt.
    assert (Hsub : ({[c]} ∖ rr_completed st : gset Z) ⊆ {[c]}).
    { intros y Hy. apply elem_of_difference in Hy as [Hy _]. exact Hy. }
    apply subseteq_size in Hsub. rewrite size_singleton in Hsub. lia.
Qed.

Lemma rr_loop_counts quantum l n fuel st st' :
  rr_loop quantum l n fuel st = Returns st' ->
  (size (rr_completed st) <= length (rr_order st))%nat ->
  (n <= length (rr_order st'))%nat.
Proof.
  revert st. induction fuel as [|fuel IH]; intros st H Hle; [discriminate|].
  rewrite rr_loop_S in H.
  destruct (Nat.ltb_spec (size (rr_completed st)) n) as [Hlt|Hge].
  - inv_bind H. apply (IH a); [exact H|]. eapply rr_body_counts; eauto.
  - injection H as <-. lia.
Qed.

Lemma sorted_by_arrival_length processes sorted :
  sorted_by 1 processes = Returns sorted -> length sorted = length processes.
Proof.
  destruct (decide (Forall has_arrival processes)) as [H|H].
  - rewrite sorted_by_arrival_ok by exact H. intros [= <-].
    apply Permutation_length, sort_arrival_perm.
  - rewrite sorted_by_arrival_short by exact H. discriminate.
Qed.

(** ** All processes present from the start: service in key order *)

Lemma np_by_key_step key l st st' :
  (key < 4)%nat ->
  valid_batch l ->
  Forall (fun p => arrival_of p <= 0) l ->
  np_by_key key l st ->
  np_body key l st = Returns st' ->
  np_by_key key l st'.
Proof.
  intros Hkey Hvalid Hzero (Ht & Hs & Hpre) Hbody.
  destruct (np_body_cases key l st Hkey (valid_batch_four l Hvalid))
    as [[_ Hidle]|(l1 & p & l2 & Hav & H1 & H2 & Hdisp)].
  - rewrite Hidle in Hbody. injection Hbody as <-. unfold np_by_key. simpl.
    split; [lia|]. split; assumption.
  - rewrite Hdisp in Hbody. injection Hbody as <-.
    assert (Hp : p ∈ filter (eligible (np_time st) (np_completed st)) l).
    { rewrite Hav. apply elem_of_app. right. left. }
    apply list_elem_of_filter in Hp as [[_ Hpc] Hp].
    assert (Hb : 0 < burst_of p).
    { destruct Hvalid as [Hwf _]. rewrite Forall_forall in Hwf. apply (Hwf p Hp). }
    assert (Hmin : forall u, u ∈ l -> u ∉ np_completed st -> key_order key p u).
    { intros u Hu Huc.
      assert (Hin : u ∈ l1 ++ p :: l2).
      { rewrite <- Hav. apply list_elem_of_filter. split; [|exact Hu].
        split; [|exact Huc]. rewrite Forall_forall in Hzero.
        specialize (Hzero u Hu). lia. }
      rewrite Forall_forall in H1, H2. unfold key_order.
      apply elem_of_app in Hin as [Hin|Hin]; [specialize (H1 u Hin); lia|].
      apply elem_of_cons in Hin as [->|Hin]; [lia|apply H2, Hin]. }
    unfold np_by_key. simpl. split; [lia|]. split.
    + apply StronglySorted_app. split; [|split; [exact Hs|repeat constructor]].
      intros c u Hc Hu. apply list_elem_of_singleton in Hu. subst u.
      apply Hpre; assumption.
    + intros c u Hc Hu Huc. rewrite elem_of_app, list_elem_of_singleton in Huc.
      apply elem_of_app in Hc as [Hc|Hc].
      * apply Hpre; [exact Hc|exact Hu|tauto].
      * apply list_elem_of_singleton in Hc. subst c. apply Hmin; [exact Hu|tauto].
Qed.

(** When every process of a valid batch has arrived by time 0, [sjf]
    dispatches in non-decreasing order of burst and [priority_scheduling] in
    non-decreasing order of the priority value: the answer lists the ids of
    the batch rearranged into key order. *)
Theorem served_in_key_order (key : nat) (processes : list row) :
  key = 2%nat \/ key = 3%nat ->
  valid_batch processes ->
  Forall (fun p => arrival_of p <= 0) processes ->
  exists rows finish fuel0,
    rows ≡ₚ processes
    /\ StronglySorted (key_order key) rows
    /\ forall fuel, (fuel0 <= fuel)%nat ->
         (nonpreemptive key fuel processes).2
         = Returns (Schedule finish (pid_of <$> rows)).
Proof.
  intros Hkey Hvalid Hzero.
  assert (Hk : (key < 4)%nat) by lia.
  pose proof (sort_arrival_perm processes) as Hperm.
  assert (Hvalid' : valid_batch (sort_arrival processes)).
  { eapply valid_batch_perm; [|exact Hvalid]. symmetry. exact Hperm. }
  destruct (nonpreemptive_runs key processes Hk Hvalid) as (st & Hrun & Hinv & Hall).
  destruct (Hrun (S (np_steps st))) as [Hloop _]; [lia|].
  assert (Hfinal : np_by_key key (sort_arrival processes) st).
  { refine (np_loop_keeps (np_by_key key (sort_arrival processes))
              _ _ _ _ _ _ _ _ Hloop).
    - intros s s' Hs _ Hbody.
      apply (np_by_key_step key _ s s'); try assumption.
      rewrite Hperm. exact Hzero.
    - unfold np_by_key, np_init. simpl. split; [lia|]. split; [constructor|].
      intros c u Hc. inversion Hc. }
  exists (np_completed st), (np_finish st), (S (np_steps st)).
  split; [exact Hall|]. split; [apply Hfinal|].
  intros fuel Hfuel. destruct (Hrun fuel) as [_ ->]; [lia|].
  destruct Hinv as (_ & _ & -> & _). reflexivity.
Qed.

Lemma served_in_key_order_witness :
  exists rows finish fuel0,
    rows ≡ₚ [[1; 0; 5; 3]; [2; 0; 3; 1]]
    /\ StronglySorted (key_order 3) rows
    /\ forall fuel, (fuel0 <= fuel)%nat ->
         (priority_scheduling fuel [[1; 0; 5; 3]; [2; 0; 3; 1]]).2
         = Returns (Schedule finish (pid_of <$> rows)).
Proof.
  apply (served_in_key_order 3 [[1; 0; 5; 3]; [2; 0; 3; 1]]).
  - right. reflexivity.
  - solve_valid_batch.
  - repeat constructor; unfold arrival_of; simpl; lia.
Defined.

(** ** [priority_scheduling] against [sjf] *)

Lemma filter_o_sub {A : Type} (f : A -> outcome bool) (l av : list A) :
  filter_o f l = Returns av -> forall x, x ∈ av -> x ∈ l.
Proof.
  revert av. induction l as [|y l IH]; intros av H x Hx; simpl in H.
  - injection H as <-. inversion Hx.
  - inv_bind H. inv_bind H. injection H as <-.
    destruct a.
    + apply elem_of_cons in Hx as [->|Hx]; [left|right; eapply IH; eauto].
    + right. eapply IH; eauto.
Qed.

Lemma map_o_ext {A B : Type} (f g : A -> outcome B) (l : list A) :
  (forall x, x ∈ l -> f x = g x) -> map_o f l = map_o g l.
Proof.
  induction l as [|x l IH]; intros H; [reflexivity|].
  simpl. rewrite (H x) by left. rewrite IH; [reflexivity|].
  intros y Hy. apply H. right. exact Hy.
Qed.

Lemma min_by_same_key (k k' : nat) (l : list row) :
  Forall (fun p => p !! k = p !! k') l -> min_by k l = min_by k' l.
Proof.
  intros H. unfold min_by. rewrite (map_o_ext (keyed k) (keyed k')); [reflexivity|].
  intros p Hp. rewrite Forall_forall in H. unfold keyed, item. rewrite (H p Hp).
  reflexivity.
Qed.

Lemma np_body_same_key (k k' : nat) (l : list row) st :
  Forall (fun p => p !! k = p !! k') l -> np_body k l st = np_body k' l st.
Proof.
  intros H. unfold np_body.
  destruct (np_available l (np_time st) (np_completed st)) as [av| |] eqn:E;
    [|reflexivity|reflexivity].
  simpl. destruct av as [|p0 av]; [reflexivity|].
  rewrite (min_by_same_key k k'); [reflexivity|].
  rewrite Forall_forall in H. rewrite Forall_forall. intros p Hp.
  apply H. eapply filter_o_sub; [exact E|exact Hp].
Qed.

Lemma np_loop_same_key (k k' : nat) (l : list row) n fuel st :
  Forall (fun p => p !! k = p !! k') l ->
  np_loop k l fuel n st = np_loop k' l fuel n st.
Proof.
  intros H. revert st. induction fuel as [|fuel IH]; intros st; [reflexivity|].
  rewrite !np_loop_S. destruct (length (np_completed st) <? n)%nat; [|reflexivity].
  rewrite (np_body_same_key k k' l st H).
  destruct (np_body k' l st); simpl; [apply IH|reflexivity|reflexivity].
Qed.

(** On a batch in which every row carries its burst as its priority,
    [priority_scheduling] answers exactly as [sjf] does, and leaves the
    caller's batch in the same state. *)
Theorem priority_with_burst_as_priority_is_sjf (fuel : nat) (processes : list row) :
  Forall (fun p => p !! 3%nat = p !! 2%nat) processes ->
  priority_scheduling fuel processes = sjf fuel processes.
Proof.
  intros H. unfold priority_scheduling, sjf, nonpreemptive.
  destruct (decide (Forall has_arrival processes)) as [Ha|Ha].
  - rewrite sorted_by_arrival_ok by exact Ha.
    rewrite (np_loop_same_key 3 2); [reflexivity|].
    rewrite sort_arrival_perm. exact H.
  - rewrite sorted_by_arrival_short by exact Ha. reflexivity.
Qed.

Lemma priority_with_burst_as_priority_witness :
  priority_scheduling 40 [[1; 0; 8; 8]; [2; 1; 4; 4]; [3; 2; 9; 9]]
  = sjf 40 [[1; 0; 8; 8]; [2; 1; 4; 4]; [3; 2; 9; 9]].
Proof.
  apply (priority_with_burst_as_priority_is_sjf 40).
  repeat constructor.
Defined.

(** ** The order of the records in the request *)

Lemma arrival_of_inj (l : list row) p q :
  NoDup (arrival_of <$> l) -> p ∈ l -> q ∈ l -> arrival_of p = arrival_of q -> p = q.
Proof.
  induction l as [|x l IH]; intros Hnd Hp Hq Heq; [inversion Hp|].
  rewrite fmap_cons in Hnd. apply NoDup_cons in Hnd as [Hx Hnd].
  apply elem_of_cons in Hp as [->|Hp]; apply elem_of_cons in Hq as [->|Hq].
  - reflexivity.
  - destruct Hx. rewrite Heq. apply list_elem_of_fmap. eauto.
  - destruct Hx. rewrite <- Heq. apply list_elem_of_fmap. eauto.
  - apply IH; assumption.
Qed.

Lemma sort_arrival_unique processes processes' :
  processes ≡ₚ processes' ->
  NoDup (arrival_of <$> processes) ->
  sort_arrival processes = sort_arrival processes'.
Proof.
  intros Hperm Hnd.
  apply (StronglySorted_unique_strong arrival_le).
  - intros p q Hp Hq Hpq Hqp. unfold arrival_le in *.
    apply (arrival_of_inj processes); [exact Hnd| | |lia].
    + rewrite <- (sort_arrival_perm processes). exact Hp.
    + rewrite Hperm, <- (sort_arrival_perm processes'). exact Hq.
  - apply sort_arrival_sorted.
  - apply sort_arrival_sorted.
  - rewrite !sort_arrival_perm. exact Hperm.
Qed.

Lemma initial_dict_perm (processes processes' : list row) :
  processes ≡ₚ processes' ->
  NoDup (pid_of <$> processes) ->
  foldl (fun d p => <[pid_of p := entry_of p (burst_of p)]> d)
    (∅ : gmap Z pentry) processes
  = foldl (fun d p => <[pid_of p := entry_of p (burst_of p)]> d)
      (∅ : gmap Z pentry) processes'.
Proof.
  intros Hperm Hnd. apply map_eq. intros k.
  assert (Hnd' : NoDup (pid_of <$> processes')) by (rewrite <- Hperm; exact Hnd).
  destruct (decide (k ∈ pid_of <$> processes)) as [Hin|Hout].
  - apply pid_in_batch in Hin as (p & Hp & <-).
    rewrite foldl_insert_lookup by assumption.
    rewrite foldl_insert_lookup; [reflexivity|exact Hnd'|rewrite <- Hperm; exact Hp].
  - rewrite foldl_insert_absent by exact Hout.
    rewrite foldl_insert_absent; [reflexivity|rewrite <- Hperm; exact Hout].
Qed.

(** When no two records of a batch arrive at the same time, the order in
    which the request lists them does not matter: [fcfs], [sjf] and
    [priority_scheduling] leave the same sorted batch and give the same
    answer for every rearrangement of the records, and so does
    [round_robin] on a valid batch. *)
Theorem record_order_is_irrelevant_without_ties (processes processes' : list row) :
  processes ≡ₚ processes' ->
  NoDup (arrival_of <$> processes) ->
  Forall has_arrival processes ->
  fcfs processes = fcfs processes'
  /\ (forall fuel, sjf fuel processes = sjf fuel processes')
  /\ (forall fuel, priority_scheduling fuel processes
                   = priority_scheduling fuel processes')
  /\ (valid_batch processes ->
      forall fuel quantum,
        (round_robin fuel processes quantum).2
        = (round_robin fuel processes' quantum).2).
Proof.
  intros Hperm Hnd Ha.
  assert (Ha' : Forall has_arrival processes') by (rewrite <- Hperm; exact Ha).
  pose proof (sort_arrival_unique _ _ Hperm Hnd) as Hsort.
  assert (Hnp : forall key fuel,
            nonpreemptive key fuel processes = nonpreemptive key fuel processes').
  { intros key fuel. unfold nonpreemptive.
    rewrite !sorted_by_arrival_ok by assumption. rewrite Hsort. reflexivity. }
  split; [|split; [|split]].
  - unfold fcfs. rewrite !sorted_by_arrival_ok by assumption.
    rewrite Hsort. reflexivity.
  - intros fuel. apply Hnp.
  - intros fuel. apply Hnp.
  - intros Hvalid fuel [quantum|]; [|reflexivity].
    unfold round_robin. simpl.
    rewrite (rr_run_valid fuel processes quantum Hvalid).
    rewrite (rr_run_valid fuel processes' quantum)
      by (eapply valid_batch_perm; [exact Hperm|exact Hvalid]).
    rewrite Hsort, (initial_dict_perm _ _ Hperm); [reflexivity|apply Hvalid].
Qed.

Lemma record_order_witness :
  fcfs [[1; 0; 5; 0]; [2; 2; 3; 0]] = fcfs [[2; 2; 3; 0]; [1; 0; 5; 0]].
Proof.
  apply (record_order_is_irrelevant_without_ties
           [[1; 0; 5; 0]; [2; 2; 3; 0]] [[2; 2; 3; 0]; [1; 0; 5; 0]]).
  - apply Permutation_swap.
  - apply (bool_decide_unpack _). vm_compute. exact I.
  - repeat constructor; unfold has_arrival; simpl; lia.
Defined.

(** ** When the selection key follows the arrivals *)

Lemma fcfs_loop_app l1 l2 st :
  fcfs_loop (l1 ++ l2) st = do s <- fcfs_loop l1 st; fcfs_loop l2 s.
Proof.
  revert st. induction l1 as [|p l1 IH]; intros st; [reflexivity|].
  simpl. destruct (unpack4 p) as [[[[pid at_] bt] pri]| |]; simpl;
    [apply IH|reflexivity|reflexivity].
Qed.

Lemma fcfs_loop_snoc l q st fs :
  length q = 4%nat ->
  fcfs_loop l st = Returns fs ->
  fcfs_loop (l ++ [q]) st
  = Returns (FcfsState (Z.max (f_time fs) (arrival_of q) + burst_of q)
               (f_start fs ++ [Z.max (f_time fs) (arrival_of q)])
               (f_finish fs ++ [Z.max (f_time fs) (arrival_of q) + burst_of q])
               (f_order fs ++ [pid_of q])).
Proof.
  intros Hq Hl. rewrite fcfs_loop_app, Hl. simpl.
  destruct q as [|pid [|at_ [|bt [|pri [|]]]]]; try discriminate Hq.
  simpl. unfold arrival_of, burst_of, pid_of. simpl.
  destruct (Z.ltb_spec (f_time fs) at_).
  - rewrite Z.max_r by lia. reflexivity.
  - rewrite Z.max_l by lia. reflexivity.
Qed.

Lemma filter_none {A : Type} (P : A -> Prop) `{!forall x, Decision (P x)} (l : list A) :
  (forall x, x ∈ l -> ~ P x) -> filter P l = [].
Proof.
  induction l as [|x l IH]; intros Hno; [reflexivity|].
  rewrite filter_cons_False by (apply Hno; left).
  apply IH. intros y Hy. apply Hno. right. exact Hy.
Qed.

Lemma np_as_fcfs_step key l st st' :
  (key < 4)%nat ->
  valid_batch l ->
  StronglySorted arrival_le l ->
  StronglySorted (key_order key) l ->
  (length (np_completed st) < length l)%nat ->
  np_as_fcfs l st ->
  np_body key l st = Returns st' ->
  np_as_fcfs l st'.
Proof.
  intros Hkey Hvalid Hsa Hsk Hlt (k & fs & Hc & Hf & Hfin & Hord & Hle & Hwait) Hbody.
  assert (Hk : (k < length l)%nat).
  { rewrite Hc, length_take in Hlt. lia. }
  destruct (lookup_lt_is_Some_2 l k Hk) as [q Hq].
  pose proof (take_drop_middle l k q Hq) as Hsplit.
  pose proof (valid_batch_NoDup l Hvalid) as Hnd.
  rewrite <- Hsplit in Hnd, Hsa, Hsk.
  apply NoDup_app in Hnd as (_ & Hfresh & Hnd).
  apply NoDup_cons in Hnd as [HqB _].
  apply StronglySorted_app_1_r in Hsa, Hsk.
  apply StronglySorted_inv in Hsa as [_ Hsa], Hsk as [_ Hsk].
  rewrite Forall_forall in Hsa, Hsk.
  assert (Hqc : q ∉ np_completed st).
  { rewrite Hc. intros Hin. apply (Hfresh q Hin). left. }
  assert (Hq4 : length q = 4%nat).
  { pose proof (valid_batch_four l Hvalid) as H4. rewrite Forall_forall in H4.
    apply H4. rewrite <- Hsplit. apply elem_of_app. right. left. }
  destruct (np_body_cases key l st Hkey (valid_batch_four l Hvalid))
    as [[Hnone Hidle]|(l1 & p & l2 & Hav & H1 & H2 & Hdisp)].
  - rewrite Hidle in Hbody. injection Hbody as <-.
    assert (Hlate : np_time st < arrival_of q).
    { destruct (Z.lt_ge_cases (np_time st) (arrival_of q)) as [|Hge]; [assumption|].
      exfalso.
      assert (Hin : q ∈ filter (eligible (np_time st) (np_completed st)) l).
      { apply list_elem_of_filter. split; [split; [lia|exact Hqc]|].
        rewrite <- Hsplit. apply elem_of_app. right. left. }
      rewrite Hnone in Hin. inversion Hin. }
    exists k, fs. simpl. split; [exact Hc|]. split; [exact Hf|].
    split; [exact Hfin|]. split; [exact Hord|]. split; [lia|].
    intros _. exists q. split; [exact Hq|lia].
  - rewrite Hdisp in Hbody. injection Hbody as <-.
    assert (Hp : p ∈ filter (eligible (np_time st) (np_completed st)) l).
    { rewrite Hav. apply elem_of_app. right. left. }
    apply list_elem_of_filter in Hp as [[Hpt Hpc] Hp].
    assert (Hqt : arrival_of q <= np_time st).
    { rewrite <- Hsplit in Hp. apply elem_of_app in Hp as [Hp|Hp].
      - destruct Hpc. rewrite Hc. exact Hp.
      - apply elem_of_cons in Hp as [->|Hp]; [exact Hpt|].
        specialize (Hsa p Hp). unfold arrival_le in Hsa. lia. }
    assert (Hpq : p = q).
    { assert (Hfil : filter (eligible (np_time st) (np_completed st)) l
                     = q :: filter (eligible (np_time st) (np_completed st))
                             (drop (S k) l)).
      { rewrite <- Hsplit at 1. rewrite filter_app, filter_none.
        - rewrite filter_cons_True by (split; assumption). reflexivity.
        - intros x Hx [_ Hxc]. apply Hxc. rewrite Hc. exact Hx. }
      rewrite Hav in Hfil. destruct l1 as [|x l1].
      - simpl in Hfil. injection Hfil as -> _. reflexivity.
      - simpl in Hfil. injection Hfil as -> Hrest. exfalso.
        apply Forall_cons in H1 as [Hstrict _].
        assert (HpB : p ∈ drop (S k) l).
        { assert (Hin : p ∈ l1 ++ p :: l2) by (apply elem_of_app; right; left).
          rewrite Hrest in Hin. apply list_elem_of_filter in Hin as [_ Hin].
          exact Hin. }
        specialize (Hsk p HpB). unfold key_order in Hsk. lia. }
    subst p.
    exists (S k), (FcfsState (Z.max (f_time fs) (arrival_of q) + burst_of q)
                     (f_start fs ++ [Z.max (f_time fs) (arrival_of q)])
                     (f_finish fs ++ [Z.max (f_time fs) (arrival_of q) + burst_of q])
                     (f_order fs ++ [pid_of q])).
    assert (Hmax : Z.max (f_time fs) (arrival_of q) = np_time st).
    { destruct (Z.eq_dec (f_time fs) (np_time st)) as [He|Hne]; [lia|].
      destruct Hwait as (q' & Hq' & Hwait); [lia|].
      rewrite Hq in Hq'. injection Hq' as <-. lia. }
    simpl. rewrite (take_S_r l k q Hq).
    split; [rewrite Hc; reflexivity|].
    split; [apply fcfs_loop_snoc; assumption|].
    rewrite Hmax, Hfin, Hord.
    split; [reflexivity|]. split; [reflexivity|]. split; [lia|]. intros; lia.
Qed.

(** When the selection key never decreases along the batch sorted by
    arrival (no later row has a smaller burst for [sjf], a smaller priority
    value for [priority_scheduling]; in particular when all keys are equal),
    the function answers exactly as [fcfs] does on a valid batch, and leaves
    the caller's batch in the same state. *)
Theorem nonpreemptive_is_fcfs_when_key_follows_arrival
    (key : nat) (processes : list row) :
  key = 2%nat \/ key = 3%nat ->
  valid_batch processes ->
  StronglySorted (key_order key) (sort_arrival processes) ->
  exists fuel0, forall fuel, (fuel0 <= fuel)%nat ->
    nonpreemptive key fuel processes = fcfs processes.
Proof.
  intros Hkey Hvalid Hsk.
  assert (Hk : (key < 4)%nat) by lia.
  pose proof (sort_arrival_perm processes) as Hperm.
  assert (Hvalid' : valid_batch (sort_arrival processes)).
  { eapply valid_batch_perm; [|exact Hvalid]. symmetry. exact Hperm. }
  destruct (nonpreemptive_runs key processes Hk Hvalid) as (st & Hrun & Hinv & Hall).
  destruct (Hrun (S (np_steps st))) as [Hloop _]; [lia|].
  assert (Hfinal : np_as_fcfs (sort_arrival processes) st).
  { refine (np_loop_keeps (np_as_fcfs (sort_arrival processes))
              _ _ _ _ _ _ _ _ Hloop).
    - intros s s' Hs Hlt Hbody.
      apply (np_as_fcfs_step key _ s s'); try assumption.
      apply sort_arrival_sorted.
    - exists 0%nat, fcfs_init. unfold np_init, fcfs_init. simpl.
      repeat split; try reflexivity; try lia. }
  destruct Hfinal as (k & fs & Hc & Hf & Hfin & Hord & _).
  assert (Htake : take k (sort_arrival processes) = sort_arrival processes).
  { apply take_ge. apply Permutation_length in Hall.
    rewrite Hc, length_take in Hall.
    pose proof (Permutation_length Hperm). lia. }
  rewrite Htake in Hf.
  exists (S (np_steps st)). intros fuel Hfuel.
  destruct (Hrun fuel) as [_ ->]; [lia|].
  unfold fcfs. rewrite sorted_by_arrival_ok by apply valid_batch_has_arrival, Hvalid.
  rewrite Hf. simpl. rewrite Hfin, Hord. reflexivity.
Qed.

Lemma nonpreemptive_is_fcfs_witness :
  exists fuel0, forall fuel, (fuel0 <= fuel)%nat ->
    sjf fuel [[2; 3; 6; 0]; [1; 0; 4; 0]] = fcfs [[2; 3; 6; 0]; [1; 0; 4; 0]].
Proof.
  apply (nonpreemptive_is_fcfs_when_key_follows_arrival 2
           [[2; 3; 6; 0]; [1; 0; 4; 0]]).
  - left. reflexivity.
  - solve_valid_batch.
  - change (sort_arrival [[2; 3; 6; 0]; [1; 0; 4; 0]])
      with [[1; 0; 4; 0]; [2; 3; 6; 0]].
    repeat constructor; unfold key_order; simpl; lia.
Defined.

(** ** [round_robin] with a quantum that covers every burst *)

Lemma filter_sorted_prefix (P : row -> Prop) `{!forall p, Decision (P p)}
    (t : Z) (B : list row) :
  StronglySorted arrival_le B ->
  (forall p, p ∈ B -> P p <-> arrival_of p <= t) ->
  exists m,
    filter P B = take m B
    /\ (forall p, p ∈ take m B -> arrival_of p <= t)
    /\ (forall p, p ∈ drop m B -> t < arrival_of p).
Proof.
  induction B as [|x B IH]; intros Hs HP.
  - exists 0%nat. repeat split; intros p Hp; inversion Hp.
  - apply StronglySorted_inv in Hs as [Hs Hx].
    destruct (Z.le_gt_cases (arrival_of x) t) as [Hle|Hgt].
    + destruct (IH Hs) as (m & Hf & Hin & Hout).
      { intros p Hp. apply HP. right. exact Hp. }
      exists (S m). simpl. rewrite filter_cons_True by (apply HP; [left|exact Hle]).
      rewrite Hf. split; [reflexivity|]. split; [|exact Hout].
      intros p Hp. apply elem_of_cons in Hp as [->|Hp]; [exact Hle|apply Hin, Hp].
    + exists 0%nat. simpl. split; [|split].
      * apply filter_none. intros p Hp HPp. apply HP in HPp; [|exact Hp].
        apply elem_of_cons in Hp as [->|Hp]; [lia|].
        rewrite Forall_forall in Hx. specialize (Hx p Hp). unfold arrival_le in Hx.
        lia.
      * intros p Hp. inversion Hp.
      * intros p Hp. apply elem_of_cons in Hp as [->|Hp]; [lia|].
        rewrite Forall_forall in Hx. specialize (Hx p Hp). unfold arrival_le in Hx.
        lia.
Qed.

Lemma window_app {A : Type} (l : list A) (k j j' : nat) :
  (k <= j)%nat -> (j <= j')%nat -> (k <= length l)%nat ->
  drop k (take j l) ++ drop j (take j' l) = drop k (take j' l).
Proof.
  intros Hkj Hjj Hk.
  assert (Hsplit : take j' l = take j l ++ drop j (take j' l)).
  { rewrite <- (take_drop j (take j' l)) at 1. rewrite take_take.
    rewrite Nat.min_l by lia. reflexivity. }
  rewrite Hsplit at 2. rewrite drop_app_le; [reflexivity|].
  rewrite length_take. lia.
Qed.

Lemma admitted_window (t : Z) (C : gset Z) (skip : option Z) (Q : list Z)
    (l : list row) (j : nat) :
  NoDup l ->
  StronglySorted arrival_le l ->
  (forall p, p ∈ l ->
     (pid_of p ∈ C \/ pid_of p ∈ Q \/ skip = Some (pid_of p)) <-> p ∈ take j l) ->
  exists j',
    (j <= j')%nat
    /\ filter (admissible t C skip Q) l = drop j (take j' l)
    /\ (forall p, p ∈ drop j (take j' l) -> arrival_of p <= t)
    /\ (forall p, p ∈ drop j' l -> t < arrival_of p).
Proof.
  intros Hnd Hs Hex.
  rewrite <- (take_drop j l) in Hnd, Hs.
  apply NoDup_app in Hnd as (_ & Hfresh & _).
  apply StronglySorted_app_1_r in Hs.
  destruct (filter_sorted_prefix (admissible t C skip Q) t (drop j l) Hs)
    as (m & Hf & Hin & Hout).
  { intros p Hp.
    assert (Hpl : p ∈ l).
    { rewrite <- (take_drop j l). apply elem_of_app. right. exact Hp. }
    assert (Hno : ~ (pid_of p ∈ C \/ pid_of p ∈ Q \/ skip = Some (pid_of p))).
    { intros H. apply (Hex p Hpl) in H. exact (Hfresh p H Hp). }
    unfold admissible. split; [tauto|]. intros Hle.
    split; [exact Hle|]. repeat split; intros H; apply Hno; tauto. }
  exists (j + m)%nat. split; [lia|].
  rewrite <- take_drop_commute, <- drop_drop.
  split; [|split; assumption].
  rewrite <- (take_drop j l) at 1. rewrite filter_app, filter_none; [exact Hf|].
  intros p Hp (_ & H1 & H2 & H3).
  assert (Hpl : p ∈ l).
  { rewrite <- (take_drop j l). apply elem_of_app. left. exact Hp. }
  apply (Hex p Hpl) in Hp. destruct Hp as [H|[H|H]]; tauto.
Qed.

Lemma take_elem {A : Type} (l : list A) (n : nat) (x : A) : x ∈ take n l -> x ∈ l.
Proof. intros H. rewrite <- (take_drop n l). apply elem_of_app. left. exact H. Qed.

Lemma drop_elem {A : Type} (l : list A) (n : nat) (x : A) : x ∈ drop n l -> x ∈ l.
Proof. intros H. rewrite <- (take_drop n l). apply elem_of_app. right. exact H. Qed.

Lemma pid_elem (l X : list row) (p : row) :
  NoDup (pid_of <$> l) -> p ∈ l -> (forall x, x ∈ X -> x ∈ l) ->
  pid_of p ∈ pid_of <$> X <-> p ∈ X.
Proof.
  intros Hids Hp HX. split.
  - intros H. apply pid_in_batch in H as (x & Hx & Heq).
    rewrite <- (pid_of_inj l x p Hids (HX x Hx) Hp Heq). exact Hx.
  - intros H. apply list_elem_of_fmap. eauto.
Qed.

Lemma excluded_iff (l : list row) (k j : nat) (p : row) :
  NoDup (pid_of <$> l) -> (k <= j)%nat -> p ∈ l ->
  (pid_of p ∈ (list_to_set (pid_of <$> take k l) : gset Z)
   \/ pid_of p ∈ pid_of <$> drop k (take j l))
  <-> p ∈ take j l.
Proof.
  intros Hids Hkj Hp.
  assert (Hsplit : take j l = take k l ++ drop k (take j l)).
  { rewrite <- (take_drop k (take j l)) at 1. rewrite take_take.
    rewrite Nat.min_l by lia. reflexivity. }
  rewrite elem_of_list_to_set.
  rewrite (pid_elem l (take k l) p Hids Hp) by (intros x; apply take_elem).
  rewrite (pid_elem l (drop k (take j l)) p Hids Hp)
    by (intros x Hx; apply drop_elem, take_elem in Hx; exact Hx).
  rewrite Hsplit at 2. rewrite elem_of_app. reflexivity.
Qed.

Lemma rr_as_fcfs_step quantum l st st' :
  valid_batch l ->
  StronglySorted arrival_le l ->
  Forall (fun p => burst_of p <= quantum) l ->
  rr_inv quantum l st ->
  (size (rr_completed st) < length l)%nat ->
  rr_as_fcfs l st ->
  rr_body quantum l st = Returns st' ->
  rr_as_fcfs l st'.
Proof.
  intros Hvalid Hsa Hq Hinv Hlt
    (k & j & fs & Hkj & Hc & Hqu & Hd & Hf & Hfin & Hord & Hle & Hwait) Hbody.
  assert (Hids : NoDup (pid_of <$> l)) by apply Hvalid.
  pose proof (valid_batch_NoDup l Hvalid) as Hnd.
  assert (Hk : (k < length l)%nat).
  { rewrite Hc, size_list_to_set in Hlt.
    - rewrite length_fmap, length_take in Hlt. lia.
    - rewrite fmap_take. eapply sublist_NoDup; [exact Hids|apply sublist_take]. }
  destruct (lookup_lt_is_Some_2 l k Hk) as [q Hq0].
  assert (Hql : q ∈ l) by (eapply list_elem_of_lookup_2; exact Hq0).
  destruct (admitted_window (rr_time st) (rr_completed st) None (rr_queue st) l j
              Hnd Hsa) as (j' & Hjj & Hadm & Hin & Hout).
  { intros p Hp. rewrite Hc, Hqu.
    rewrite <- (excluded_iff l k j p Hids Hkj Hp).
    split; [intros [H|[H|H]]; [tauto|tauto|discriminate]|tauto]. }
  assert (Hcomb : rr_queue st
                    ++ (pid_of <$> filter (admissible (rr_time st) (rr_completed st)
                                             None (rr_queue st)) l)
                  = pid_of <$> drop k (take j' l)).
  { rewrite Hadm, Hqu, <- fmap_app, window_app; [reflexivity|lia..]. }
  destruct (rr_body_cases quantum l st Hvalid)
    as [[Hempty Hidle]|(p & r & queue & Hp & Hq1 & Hlook & Hdisp)].
  - intros p Hp. destruct Hinv as (Hled & _).
    destruct (Hled p Hp) as (r & Hdr & _). eauto.
  - intros x Hx. destruct Hinv as (_ & _ & Hqq & _). apply Hqq, Hx.
  - rewrite Hidle in Hbody. injection Hbody as <-.
    rewrite Hcomb in Hempty. apply fmap_nil_inv in Hempty.
    assert (Hj' : j' = k).
    { apply (f_equal length) in Hempty.
      rewrite length_drop, length_take in Hempty. simpl in Hempty. lia. }
    subst j'. assert (j = k) by lia. subst j.
    assert (Hlate : rr_time st < arrival_of q).
    { apply Hout. rewrite (drop_S l q k Hq0). left. }
    exists k, k, fs. unfold rr_after_idle.
    cbn [rr_completed rr_queue rr_dict rr_finish rr_order rr_time].
    split; [lia|]. split; [exact Hc|]. split.
    { rewrite drop_ge; [reflexivity|]. rewrite length_take. lia. }
    split; [exact Hd|]. split; [exact Hf|]. split; [exact Hfin|].
    split; [exact Hord|]. split; [lia|].
    intros _. split; [reflexivity|]. exists q. split; [exact Hq0|lia].
  - rewrite Hdisp in Hbody. injection Hbody as <-.
    destruct (rr_dispatched_facts quantum l st p r queue Hvalid Hinv Hp Hq1 Hlook)
      as (Hr & Hpt & _).
    rewrite Hcomb in Hq1.
    assert (Hkj' : (k < j')%nat).
    { destruct (Nat.lt_ge_cases k j') as [|Hge]; [assumption|].
      rewrite drop_ge in Hq1 by (rewrite length_take; lia). discriminate Hq1. }
    assert (Hwin : drop k (take j' l) = q :: drop (S k) (take j' l)).
    { apply drop_S. rewrite lookup_take.
      destruct (decide (k < j')%nat); [exact Hq0|lia]. }
    rewrite Hwin, fmap_cons in Hq1. injection Hq1 as Hpq Hqueue.
    assert (Heq : q = p) by (apply (pid_of_inj l); assumption).
    subst p.
    assert (Hrest : drop k l = q :: drop (S k) l) by (apply drop_S; exact Hq0).
    assert (Hrb : r = burst_of q).
    { rewrite Hd in Hlook by (rewrite Hrest; left).
      injection Hlook as Hrem. symmetry. exact Hrem. }
    subst r.
    assert (Hmin : Z.min quantum (burst_of q) = burst_of q).
    { rewrite Forall_forall in Hq. specialize (Hq q Hql). lia. }
    destruct (admitted_window (rr_time st + burst_of q) (rr_completed st)
                (Some (pid_of q)) queue l j' Hnd Hsa)
      as (j'' & Hjj' & Hadm' & _ & _).
    { intros p Hp'. rewrite Hc, <- Hqueue.
      rewrite <- (excluded_iff l k j' p Hids); [|lia|exact Hp'].
      rewrite Hwin, fmap_cons, elem_of_cons. split.
      - intros [H|[H|H]]; [tauto|tauto|]. injection H as H. right. left.
        symmetry. exact H.
      - intros [H|[H|H]]; [tauto| |tauto]. right. right. f_equal. symmetry.
        exact H. }
    assert (Hmax : Z.max (f_time fs) (arrival_of q) = rr_time st).
    { destruct (Z.eq_dec (f_time fs) (rr_time st)) as [He|Hne]; [lia|].
      destruct Hwait as (_ & q' & Hq' & Hwait); [lia|].
      rewrite Hq0 in Hq'. injection Hq' as <-. lia. }
    assert (Hq4 : length q = 4%nat).
    { pose proof (valid_batch_four l Hvalid) as H4. rewrite Forall_forall in H4.
      apply H4, Hql. }
    exists (S k), j'',
      (FcfsState (Z.max (f_time fs) (arrival_of q) + burst_of q)
         (f_start fs ++ [Z.max (f_time fs) (arrival_of q)])
         (f_finish fs ++ [Z.max (f_time fs) (arrival_of q) + burst_of q])
         (f_order fs ++ [pid_of q])).
    unfold rr_after_dispatch. rewrite Hmin, Z.sub_diag, Z.ltb_irrefl.
    cbn [rr_completed rr_queue rr_dict rr_finish rr_order rr_time
         f_time f_finish f_order].
    rewrite (take_S_r l k q Hq0).
    split; [lia|]. split.
    { rewrite fmap_app, list_to_set_app_L, Hc, fmap_cons, fmap_nil.
      rewrite list_to_set_cons, list_to_set_nil, union_empty_r_L. reflexivity. }
    split.
    { rewrite Hadm', <- Hqueue, <- fmap_app, window_app; [reflexivity|lia..]. }
    split.
    { intros p Hp'. rewrite lookup_insert_ne.
      - apply Hd. rewrite Hrest. right. exact Hp'.
      - intros Hsame.
        assert (Heq : q = p).
        { apply (pid_of_inj l); try assumption. eapply drop_elem; exact Hp'. }
        subst p. rewrite <- (take_drop_middle l k q Hq0) in Hnd.
        apply NoDup_app in Hnd as (_ & _ & Hnd).
        apply NoDup_cons in Hnd as [Hfresh _]. exact (Hfresh Hp'). }
    split; [apply fcfs_loop_snoc; assumption|].
    rewrite Hmax, Hfin, Hord.
    split; [reflexivity|]. split; [reflexivity|]. split; [lia|]. intros; lia.
Qed.

(** With a quantum that is at least every burst of a valid batch, no process
    is ever preempted and [round_robin] returns the very schedule [fcfs]
    returns: the same order and the same finish times. *)
Theorem round_robin_is_fcfs_when_quantum_covers_bursts
    (quantum : Z) (processes : list row) :
  valid_batch processes ->
  Forall (fun p => burst_of p <= quantum) processes ->
  exists fuel0, forall fuel, (fuel0 <= fuel)%nat ->
    (round_robin fuel processes (Some quantum)).2 = (fcfs processes).2.
Proof.
  intros Hvalid Hcover.
  destruct (decide (processes = [])) as [->|Hne].
  { exists 1%nat. intros [|fuel] Hfuel; [lia|]. vm_compute. reflexivity. }
  assert (Hquantum : 0 < quantum).
  { destruct processes as [|p0 ps]; [congruence|].
    apply Forall_cons in Hcover as [Hp0 _].
    destruct Hvalid as [Hwf _]. apply Forall_cons in Hwf as [(_ & _ & Hb) _]. lia. }
  pose proof (sort_arrival_perm processes) as Hperm.
  assert (Hvalid' : valid_batch (sort_arrival processes)).
  { eapply valid_batch_perm; [|exact Hvalid]. symmetry. exact Hperm. }
  destruct (rr_final quantum processes Hquantum Hvalid)
    as (st & Hrun & _ & _ & _ & Hsize & _).
  destruct (Hrun (S (rr_steps st))) as [Hloop _]; [lia|].
  rewrite rr_run_valid in Hloop by exact Hvalid.
  set (d := foldl (fun d p => <[pid_of p := entry_of p (burst_of p)]> d)
              (∅ : gmap Z pentry) processes) in *.
  assert (Hd : forall p, p ∈ sort_arrival processes ->
                         d !! pid_of p = Some (entry_of p (burst_of p))).
  { intros p Hp. rewrite Hperm in Hp.
    apply foldl_insert_lookup; [apply Hvalid|exact Hp]. }
  assert (Hinit : rr_as_fcfs (sort_arrival processes) (rr_init d)).
  { exists 0%nat, 0%nat, fcfs_init. unfold rr_init, fcfs_init.
    cbn [rr_completed rr_queue rr_dict rr_finish rr_order rr_time
         f_time f_finish f_order].
    rewrite take_0, drop_0. simpl.
    split; [lia|]. split; [reflexivity|]. split; [reflexivity|].
    split; [exact Hd|]. split; [reflexivity|]. split; [reflexivity|].
    split; [reflexivity|]. split; [lia|]. intros; lia. }
  assert (Hfinal : rr_inv quantum (sort_arrival processes) st
                   /\ rr_as_fcfs (sort_arrival processes) st).
  { refine (rr_loop_keeps
              (fun s => rr_inv quantum (sort_arrival processes) s
                        /\ rr_as_fcfs (sort_arrival processes) s)
              _ _ _ _ _ _ _
              (conj (rr_init_inv quantum _ d Hquantum Hvalid' Hd) Hinit) Hloop).
    intros s s' (Hi & Ha) Hlt Hbody.
    destruct (rr_body_step quantum _ s Hquantum Hvalid' Hi Hlt)
      as (s1 & Hbody1 & Hi1 & _).
    rewrite Hbody in Hbody1. injection Hbody1 as <-.
    split; [exact Hi1|].
    apply (rr_as_fcfs_step quantum _ s s'); try assumption.
    - apply sort_arrival_sorted.
    - rewrite Hperm. exact Hcover. }
  destruct Hfinal as (_ & k & j & fs & _ & Hc & _ & _ & Hf & Hfin & Hord & _).
  assert (Htake : take k (sort_arrival processes) = sort_arrival processes).
  { apply take_ge. rewrite Hc, size_list_to_set in Hsize.
    - rewrite length_fmap, length_take in Hsize.
      pose proof (Permutation_length Hperm). lia.
    - rewrite fmap_take. eapply sublist_NoDup; [apply Hvalid'|apply sublist_take]. }
  rewrite Htake in Hf.
  exists (S (rr_steps st)). intros fuel Hfuel.
  destruct (Hrun fuel) as [_ ->]; [lia|].
  unfold fcfs. rewrite sorted_by_arrival_ok by apply valid_batch_has_arrival, Hvalid.
  simpl. rewrite Hf. simpl. rewrite Hfin, Hord. reflexivity.
Qed.

Lemma round_robin_is_fcfs_witness :
  exists fuel0, forall fuel, (fuel0 <= fuel)%nat ->
    (round_robin fuel [[2; 3; 2; 0]; [1; 0; 4; 0]] (Some 4)).2
    = (fcfs [[2; 3; 2; 0]; [1; 0; 4; 0]]).2.
Proof.
  apply (round_robin_is_fcfs_when_quantum_covers_bursts 4
           [[2; 3; 2; 0]; [1; 0; 4; 0]]).
  - solve_valid_batch.
  - repeat constructor; unfold burst_of; simpl; lia.
Defined.

(** ** A request on the batch an earlier call left behind *)

Lemma run_on_sorted_batch op fuel processes :
  non_preemptive op \/ valid_batch processes ->
  Forall has_arrival processes ->
  (run op fuel (sort_arrival processes)).2 = (run op fuel processes).2.
Proof.
  intros Hop Ha.
  pose proof (sort_arrival_perm processes) as Hperm.
  assert (Ha' : Forall has_arrival (sort_arrival processes))
    by (rewrite Hperm; exact Ha).
  pose proof (sort_arrival_id _ (sort_arrival_sorted processes)) as Hid.
  destruct op as [| | |[quantum|]]; simpl.
  - unfold fcfs. rewrite !sorted_by_arrival_ok by assumption.
    rewrite Hid. reflexivity.
  - unfold sjf, nonpreemptive. rewrite !sorted_by_arrival_ok by assumption.
    rewrite Hid. reflexivity.
  - unfold priority_scheduling, nonpreemptive.
    rewrite !sorted_by_arrival_ok by assumption. rewrite Hid. reflexivity.
  - destruct Hop as [[]|Hvalid].
    assert (Hvalid' : valid_batch (sort_arrival processes)).
    { eapply valid_batch_perm; [|exact Hvalid]. symmetry. exact Hperm. }
    rewrite !rr_run_valid by assumption.
    rewrite Hid, (initial_dict_perm _ _ Hperm); [reflexivity|apply Hvalid'].
  - reflexivity.
Qed.

(** The in-place sort an endpoint leaves behind does not change later
    answers: a request served on the batch as an earlier call left it gets the
    answer it would have got on the original batch.  For [fcfs], [sjf] and
    [priority_scheduling] this holds for every batch, for [round_robin] on
    valid batches. *)
Theorem answer_unchanged_by_earlier_run
    (first second : operation) (fuel1 fuel2 : nat) (processes : list row) :
  non_preemptive second \/ valid_batch processes ->
  (run second fuel2 (run first fuel1 processes).1).2
  = (run second fuel2 processes).2.
Proof.
  intros Hop. rewrite run_batch.
  destruct first as [| | |quantum]; try reflexivity;
    (case_decide; [apply run_on_sorted_batch; assumption|reflexivity]).
Qed.

Lemma answer_unchanged_by_earlier_run_witness :
  (run (RunRoundRobin (Some 2)) 9 (run RunSjf 9 [[2; 1; 3; 0]; [1; 0; 5; 0]]).1).2
  = (run (RunRoundRobin (Some 2)) 9 [[2; 1; 3; 0]; [1; 0; 5; 0]]).2.
Proof.
  apply (answer_unchanged_by_earlier_run RunSjf (RunRoundRobin (Some 2)) 9 9
           [[2; 1; 3; 0]; [1; 0; 5; 0]]).
  right. solve_valid_batch.
Defined.

(** ** Which quanta [round_robin] can work with *)

(** On a valid batch that is not empty, [round_robin] returns a schedule if
    and only if the quantum is positive: with a zero or negative quantum the
    loop never ends, however long it is run. *)
Theorem round_robin_returns_iff_quantum_positive
    (quantum : Z) (processes : list row) :
  valid_batch processes ->
  processes <> [] ->
  (exists fuel finish order,
      (round_robin fuel processes (Some quantum)).2
      = Returns (Schedule finish order))
  <-> 0 < quantum.
Proof.
  intros Hvalid Hne. split.
  - intros (fuel & finish & order & Hret).
    destruct (Z.lt_ge_cases 0 quantum) as [Hpos|Hnonpos]; [exact Hpos|].
    rewrite round_robin_nonpositive_quantum_diverges in Hret
      by (try assumption; lia).
    discriminate Hret.
  - intros Hpos.
    destruct (rr_final quantum processes Hpos Hvalid) as (st & Hrun & _).
    exists (S (rr_steps st)), (rr_finish st), (rr_order st).
    destruct (Hrun (S (rr_steps st))) as [_ ->]; [lia|]. reflexivity.
Qed.

Lemma round_robin_returns_iff_witness :
  (exists fuel finish order,
      (round_robin fuel [[1; 0; 5; 0]; [2; 1; 3; 0]] (Some (-1))).2
      = Returns (Schedule finish order))
  <-> 0 < -1.
Proof.
  apply (round_robin_returns_iff_quantum_positive (-1)
           [[1; 0; 5; 0]; [2; 1; 3; 0]]).
  - solve_valid_batch.
  - discriminate.
Defined.

(** ** What a returned schedule says about the batch, whatever the batch *)

Lemma unpack4_Returns (p : row) pid at_ bt pri :
  unpack4 p = Returns (pid, at_, bt, pri) -> pid_of p = pid.
Proof.
  destruct p as [|a [|b [|c [|d [|e p]]]]]; try discriminate.
  intros [= <- _ _ _]. reflexivity.
Qed.

Lemma fcfs_loop_order l st st' :
  fcfs_loop l st = Returns st' ->
  f_order st' = f_order st ++ (pid_of <$> l).
Proof.
  revert st. induction l as [|p l IH]; intros st H; simpl in H.
  - injection H as <-. rewrite app_nil_r. reflexivity.
  - inv_bind H. destruct a as [[[pid at_] bt] pri].
    apply unpack4_Returns in E. apply IH in H. simpl in H.
    rewrite H, fmap_cons, E, <- app_assoc. reflexivity.
Qed.

Lemma map_o_keyed_rows (k : nat) (l : list row) ks :
  map_o (keyed k) l = Returns ks -> ks.*2 = l.
Proof.
  revert ks. induction l as [|p l IH]; intros ks H; simpl in H.
  - injection H as <-. reflexivity.
  - inv_bind H. inv_bind H. injection H as <-.
    unfold keyed in E. inv_bind E. injection E as <-.
    rewrite fmap_cons, (IH _ E0). reflexivity.
Qed.

Lemma min_by_elem (k : nat) (l : list row) p :
  min_by k l = Returns p -> p ∈ l.
Proof.
  unfold min_by. intros H. inv_bind H.
  apply map_o_keyed_rows in E. subst l.
  destruct a as [|x ks]; [discriminate|]. injection H as <-.
  destruct (min_keyed_first x ks) as (l1 & y & l2 & Heq & -> & _).
  rewrite Heq, fmap_app, fmap_cons. apply elem_of_app. right. left.
Qed.

Lemma np_body_covers key l st st' :
  Forall has_arrival l ->
  np_covers l st ->
  np_body key l st = Returns st' ->
  np_covers l st'.
Proof.
  intros Hall [[Hnd Hsub] Hord] Hbody. unfold np_body in Hbody.
  rewrite np_available_pure in Hbody by exact Hall. simpl in Hbody.
  destruct (filter (eligible (np_time st) (np_completed st)) l) as [|p0 av] eqn:Eav.
  - injection Hbody as <-. split; [split|]; assumption.
  - inv_bind Hbody. inv_bind Hbody. inv_bind Hbody. injection Hbody as <-.
    apply min_by_elem in E. rewrite <- Eav in E.
    apply list_elem_of_filter in E as [[_ Hc] Hp].
    apply item_Returns in E1. unfold np_covers, np_part. simpl.
    split; [split|].
    + apply NoDup_app. repeat split; [exact Hnd| |apply NoDup_singleton].
      intros q Hq Hq'. apply list_elem_of_singleton in Hq'. subst q. contradiction.
    + intros q Hq. apply elem_of_app in Hq as [Hq|Hq]; [apply Hsub, Hq|].
      apply list_elem_of_singleton in Hq. subst q. exact Hp.
    + rewrite fmap_app, Hord, E1. reflexivity.
Qed.

Lemma np_loop_done key l n fuel st st' :
  np_loop key l fuel n st = Returns st' -> (n <= length (np_completed st'))%nat.
Proof.
  revert st. induction fuel as [|fuel IH]; intros st H; [discriminate|].
  rewrite np_loop_S in H.
  destruct (Nat.ltb_spec (length (np_completed st)) n) as [Hlt|Hge].
  - inv_bind H. apply (IH a), H.
  - injection H as <-. exact Hge.
Qed.

Lemma rr_loop_done quantum l n fuel st st' :
  rr_loop quantum l n fuel st = Returns st' -> (n <= size (rr_completed st'))%nat.
Proof.
  revert st. induction fuel as [|fuel IH]; intros st H; [discriminate|].
  rewrite rr_loop_S in H.
  destruct (Nat.ltb_spec (size (rr_completed st)) n) as [Hlt|Hge].
  - inv_bind H. apply (IH a), H.
  - injection H as <-. exact Hge.
Qed.

Lemma rr_body_covers quantum l st st' :
  Forall (has_fields 1) l ->
  rr_covers l st ->
  rr_body quantum l st = Returns st' ->
  rr_covers l st'.
Proof.
  intros Hall (Hk & Hco & Hop) Hbody.
  destruct (rr_body_known quantum l st Hall Hk) as (st1 & Hb1 & Hk1).
  rewrite Hbody in Hb1. injection Hb1 as <-.
  split; [exact Hk1|].
  destruct Hk as (Hd & Hq & _).
  unfold rr_body in Hbody. inv_bind Hbody.
  destruct (enqueue_arrivals_total (rr_dict st) (rr_time st) (rr_completed st)
              None l (rr_queue st) Hall Hd) as (queue1 & Hq1 & Hin1).
  rewrite E in Hq1. injection Hq1 as <-.
  destruct a as [|c q].
  - injection Hbody as <-. simpl. split; assumption.
  - assert (Hc : c ∈ pid_of <$> l).
    { destruct (Hin1 c) as [H|H]; [left|apply Hq, H|exact H]. }
    inv_bind Hbody. inv_bind Hbody. apply bind_Returns in Hbody as (e' & _ & Hbody).
    destruct (0 <? remaining e'); injection Hbody as <-; simpl; split.
    + intros x Hx. apply elem_of_app. left. apply Hco, Hx.
    + intros x Hx. apply elem_of_app in Hx as [Hx|Hx]; [apply Hop, Hx|].
      apply list_elem_of_singleton in Hx. subst x. exact Hc.
    + intros x Hx. apply elem_of_app. apply elem_of_union in Hx as [Hx|Hx].
      * left. apply Hco, Hx.
      * right. apply elem_of_singleton in Hx. subst x. left.
    + intros x Hx. apply elem_of_app in Hx as [Hx|Hx]; [apply Hop, Hx|].
      apply list_elem_of_singleton in Hx. subst x. exact Hc.
Qed.

(** Whatever the batch and the quantum, a schedule that an endpoint returns
    covers the batch: the id of every row of the batch occurs in [order],
    every entry of [order] is the id of a row of the batch, and [order] is
    at least as long as the batch.  For [fcfs], [sjf] and
    [priority_scheduling] the order is a rearrangement of the ids of the
    batch, one event per row. *)
Theorem schedule_covers_batch
    (op : operation) (fuel : nat) (processes : list row) (finish order : list Z) :
  (run op fuel processes).2 = Returns (Schedule finish order) ->
  (forall p, p ∈ processes -> pid_of p ∈ order)
  /\ (forall pid, pid ∈ order -> pid ∈ pid_of <$> processes)
  /\ (length processes <= length order)%nat
  /\ (non_preemptive op ->
      order ≡ₚ pid_of <$> processes /\ length order = length processes).
Proof.
  intros H.
  assert (Hall : order ≡ₚ pid_of <$> processes ->
            (forall p, p ∈ processes -> pid_of p ∈ order)
            /\ (forall pid, pid ∈ order -> pid ∈ pid_of <$> processes)
            /\ (length processes <= length order)%nat
            /\ (non_preemptive op ->
                order ≡ₚ pid_of <$> processes /\ length order = length processes)).
  { intros Hperm. pose proof (Permutation_length Hperm) as Hlen.
    rewrite length_fmap in Hlen.
    split; [|split; [|split; [lia|intros _; split; assumption]]].
    - intros p Hp. rewrite Hperm. apply list_elem_of_fmap. eauto.
    - intros pid Hpid. rewrite <- Hperm. exact Hpid. }
  assert (Hsorted : forall sorted, sorted_by 1 processes = Returns sorted ->
            sorted = sort_arrival processes /\ Forall has_arrival sorted).
  { intros sorted Es.
    destruct (decide (Forall has_arrival processes)) as [Ha|Ha].
    - rewrite sorted_by_arrival_ok in Es by exact Ha. injection Es as <-.
      split; [reflexivity|]. rewrite sort_arrival_perm. exact Ha.
    - rewrite sorted_by_arrival_short in Es by exact Ha. discriminate Es. }
  assert (Hnp : forall key,
            (nonpreemptive key fuel processes).2 = Returns (Schedule finish order) ->
            order ≡ₚ pid_of <$> processes).
  { intros key. unfold nonpreemptive.
    destruct (sorted_by 1 processes) as [sorted| |] eqn:Es; simpl;
      [|discriminate|discriminate].
    destruct (Hsorted sorted eq_refl) as [-> Ha].
    intros Hr. inv_bind Hr. injection Hr as <- <-.
    assert (Hcov : np_covers (sort_arrival processes) a).
    { refine (np_loop_keeps (np_covers (sort_arrival processes))
                _ _ _ _ _ _ _ _ E).
      - intros s s' Hs _ Hbody. apply (np_body_covers key _ s s'); assumption.
      - split; [apply np_part_init|reflexivity]. }
    apply np_loop_done in E.
    destruct Hcov as [[Hnd Hsub] ->].
    pose proof (NoDup_submseteq _ _ Hnd Hsub) as Hms.
    rewrite (submseteq_length_Permutation _ _ Hms E).
    rewrite sort_arrival_perm. reflexivity. }
  destruct op as [| | |[quantum|]]; simpl in H.
  - apply Hall. unfold fcfs in H.
    destruct (sorted_by 1 processes) as [sorted| |] eqn:Es; simpl in H;
      [|discriminate|discriminate].
    destruct (Hsorted sorted eq_refl) as [-> _].
    inv_bind H. injection H as <- <-.
    apply fcfs_loop_order in E. rewrite E. simpl.
    rewrite sort_arrival_perm. reflexivity.
  - apply Hall, (Hnp 2%nat H).
  - apply Hall, (Hnp 3%nat H).
  - inv_bind H. injection H as <- <-.
    assert (Hfour : Forall (has_fields 4) processes).
    { destruct (decide (Forall (has_fields 4) processes)) as [Hf|Hf]; [exact Hf|].
      unfold rr_run in E. rewrite build_dict_missing in E by exact Hf.
      discriminate E. }
    pose proof (sort_arrival_perm processes) as Hperm.
    assert (Hlen : (length processes <= length (rr_order a))%nat).
    { unfold rr_run in E. inv_bind E. inv_bind E.
      apply (rr_loop_counts _ _ _ _ _ _ E).
      unfold rr_init. cbn [rr_completed rr_order]. rewrite size_empty. simpl. lia. }
    destruct (rr_run_on_known fuel processes quantum Hfour) as (d & Hrun & Hk & H1).
    rewrite Hrun in E.
    assert (Hcov : rr_covers (sort_arrival processes) a).
    { refine (rr_loop_keeps (rr_covers (sort_arrival processes))
                _ _ _ _ _ _ _ _ E).
      - intros s s' Hs _ Hbody. apply (rr_body_covers quantum _ s s'); assumption.
      - split; [exact Hk|]. unfold rr_init. simpl. split.
        + intros x Hx. apply not_elem_of_empty in Hx. contradiction.
        + intros x Hx. inversion Hx. }
    apply rr_loop_done in E.
    destruct Hcov as ((_ & _ & Hc) & Hco & Hop).
    assert (Hsub : rr_completed a ⊆ (list_to_set (pid_of <$> sort_arrival processes)
                                      : gset Z)).
    { intros x Hx. apply elem_of_list_to_set, Hc, Hx. }
    assert (Heq : rr_completed a = list_to_set (pid_of <$> sort_arrival processes)).
    { apply set_subseteq_size_eq; [exact Hsub|].
      pose proof (size_list_to_set_le (pid_of <$> sort_arrival processes)) as Hle.
      rewrite length_fmap in Hle. lia. }
    split; [|split; [|split; [exact Hlen|intros []]]].
    + intros p Hp. apply Hco. rewrite Heq. apply elem_of_list_to_set.
      apply list_elem_of_fmap. exists p. split; [reflexivity|].
      rewrite Hperm. exact Hp.
    + intros pid Hpid. rewrite <- Hperm. apply Hop, Hpid.
  - discriminate H.
Qed.

Lemma schedule_covers_batch_witness :
  (forall p, p ∈ [[2; 1; 3; 0]; [1; 0; 5; 0]] -> pid_of p ∈ [1; 2])
  /\ (forall pid, pid ∈ [1; 2] -> pid ∈ pid_of <$> [[2; 1; 3; 0]; [1; 0; 5; 0]])
  /\ Nat.le (length [[2; 1; 3; 0]; [1; 0; 5; 0]]) (length [1; 2])
  /\ (non_preemptive RunSjf ->
      [1; 2] ≡ₚ pid_of <$> [[2; 1; 3; 0]; [1; 0; 5; 0]]
      /\ length [1; 2] = length [[2; 1; 3; 0]; [1; 0; 5; 0]]).
Proof.
  apply (schedule_covers_batch RunSjf 5 [[2; 1; 3; 0]; [1; 0; 5; 0]] [5; 8] [1; 2]).
  vm_compute. reflexivity.
Defined.
